(** * Claude3Pass: dispatch, batch reassembly and rolling state

    A shallow embedding of [book_maker/translator/claude_3pass_translator.py]
    (class [Claude3Pass]) and of [_translate_txt] of
    [orchestrator/tools/translate.py], which drives it line by line, and
    proofs about the dispatcher, the batch reassembler, the rolling
    glossary/context state, the retrying call layer and its bookkeeping.

    Modelling choices.
    - A Python [str] is a list of Unicode code points ([list N]); [len] is
      [length], slices are [take]/[drop].
    - Python [int]s are [Z]; [%] is [Z.modulo] (both are floor modulo) and
      raises [ZeroDivisionError] on a zero divisor.
    - [self.glossary] (a [dict] from [str] to [str]) is a [gmap]; the only
      place that iterates over it sorts its items first, so insertion order
      is not observable.
    - The Anthropic client is an oracle: the [k]-th invocation of
      [client.messages.create] in a run either raises or returns a response.
      Nothing is assumed about the oracle, so every theorem holds for every
      behaviour of the remote model.  A cache counter of a response may be
      missing, hold [None] or hold a number; adding [None] to a total raises
      inside the [try] block of the attempt.
    - Effects (attribute updates, exceptions, [time.sleep], the warnings that
      are printed) are threaded through a state-and-exception monad [M]; the
      log records every [_api_call], every [create] attempt, every sleep and
      every warning.
    - [json.loads] and [str.lower] are library functions and are parameters
      of the development.
    - Progress lines and the printing of statistics have no effect on the
      state and are left out.
    - Sampling temperatures (floats) and the fixed wording of the prompt
      templates are not modelled: a request is recorded as the template it
      instantiates together with the values substituted into it. *)

From stdpp Require Import base strings pretty list gmap sorting.
From Stdlib Require Import ZArith Lia.

Local Open Scope Z_scope.
Local Open Scope list_scope.

(** ** Python strings *)

Abbreviation str := (list N).

Module PyStr.

(** A literal whose characters are all ASCII. *)
Fixpoint lit (s : string) : str :=
  match s with
  | EmptyString => []
  | String a s' => Ascii.N_of_ascii a :: lit s'
  end.

Definition NL : str := [10%N].
Definition SP : str := [32%N].

(** [prefix.startswith] *)
Fixpoint startswith (p s : str) : bool :=
  match p, s with
  | [], _ => true
  | _ :: _, [] => false
  | a :: p', b :: s' => if N.eqb a b then startswith p' s' else false
  end.

(** [sub in s] *)
Fixpoint contains (sub s : str) : bool :=
  startswith sub s ||
  match s with
  | [] => false
  | _ :: s' => contains sub s'
  end.

(** [s.split(sep)] for a non-empty [sep]: leftmost, non-overlapping
    occurrences.  [skip] counts the characters of a matched separator that
    are still to be passed over. *)
Fixpoint split_go (sep : str) (skip : nat) (s : str) : list str :=
  match s with
  | [] => [[]]
  | c :: s' =>
      match skip with
      | S k => split_go sep k s'
      | O =>
          if startswith sep s then [] :: split_go sep (length sep - 1) s'
          else match split_go sep 0 s' with
               | seg :: rest => (c :: seg) :: rest
               | [] => [[c]]
               end
      end
  end.

Definition split (sep s : str) : list str := split_go sep 0 s.

(** [sep.join(l)] *)
Fixpoint join (sep : str) (l : list str) : str :=
  match l with
  | [] => []
  | [x] => x
  | x :: l' => x ++ sep ++ join sep l'
  end.

(** [s.replace(old, new)] for a non-empty [old]. *)
Definition replace (old new s : str) : str := join new (split old s).

(** The code points for which [str.isspace] holds, which are the ones
    [str.strip()] removes. *)
Definition is_space (c : N) : bool :=
  ((9 <=? c) && (c <=? 13) || (28 <=? c) && (c <=? 32) || (c =? 133)
   || (c =? 160) || (c =? 5760) || (8192 <=? c) && (c <=? 8202)
   || (c =? 8232) || (c =? 8233) || (c =? 8239) || (c =? 8287)
   || (c =? 12288))%N.

Fixpoint lstrip (s : str) : str :=
  match s with
  | [] => []
  | c :: s' => if is_space c then lstrip s' else s
  end.

Definition rstrip (s : str) : str := reverse (lstrip (reverse s)).
Definition strip (s : str) : str := rstrip (lstrip s).

(** Truth value of a string: non-empty. *)
Definition truthy (s : str) : bool :=
  match s with [] => false | _ => true end.

(** [l[:k]] and [l[k:]] for an integer [k] of either sign. *)
Definition slice_to {A} (k : Z) (l : list A) : list A :=
  if k <? 0 then take (Z.to_nat (Z.of_nat (length l) + k)) l
  else take (Z.to_nat k) l.

Definition slice_from {A} (k : Z) (l : list A) : list A :=
  if k <? 0 then drop (Z.to_nat (Z.of_nat (length l) + k)) l
  else drop (Z.to_nat k) l.

Definition len {A} (l : list A) : Z := Z.of_nat (length l).

(** [s.split(sep, 1)]: at most one cut, at the first occurrence. *)
Fixpoint split_once (sep s : str) : option (str * str) :=
  if startswith sep s then Some ([], drop (length sep) s)
  else match s with
       | [] => None
       | c :: s' =>
           match split_once sep s' with
           | Some (a, b) => Some (c :: a, b)
           | None => None
           end
       end.

(** [s.rsplit(sep, 1)[0]]: the text before the last occurrence of [sep],
    or all of [s] when there is none. *)
Fixpoint before_last (sep s : str) : option str :=
  match s with
  | [] => if startswith sep [] then Some [] else None
  | c :: s' =>
      match before_last sep s' with
      | Some a => Some (c :: a)
      | None => if startswith sep s then Some [] else None
      end
  end.

Definition rsplit_once_head (sep s : str) : str :=
  match before_last sep s with
  | Some a => a
  | None => s
  end.

End PyStr.
Import PyStr.


(** ** Exceptions, responses, requests *)

(** An exception is known by [type(e).__name__] and [str(e)]. *)
Record exn := Exn { exn_type : str; exn_msg : str }.

Inductive result (A : Type) : Type :=
| Ok (a : A)
| Raise (e : exn).
Arguments Ok {A} a.
Arguments Raise {A} e.

(** A cache counter of [response.usage], as [getattr(usage, name, 0)]
    finds it: the attribute is missing, or it is there and holds [None]
    (what the client library puts when the service reports nothing), or it
    holds a number. *)
Inductive counter :=
| Absent
| Null
| Count (n : Z).

(** [response.usage] *)
Record Usage := {
  input_tokens : Z;
  output_tokens : Z;
  cache_read_input_tokens : counter;
  cache_creation_input_tokens : counter
}.

Record Block := { block_type : str; block_text : str }.

Record Response := { content : list Block; usage : Usage }.

(** What a completion call asks for: the system template it instantiates
    and the values substituted into the template and the user message.
    [batch_instruction] carries the paragraph count named in the batch
    block, when there is one. *)
Inductive request :=
| TranslateReq (glossary_text context text : str) (batch_instruction : option Z)
| ReviewReq (glossary_text original translation : str) (is_batch : bool)
| RefineReq (glossary_text original translation review : str)
    (batch_instruction : option Z)
| ContextReq (prev original translation : str)
| GlossaryReq (original translation : str).

Inductive pass := Translate | Review | Refine | ContextRefresh | GlossaryRefresh.

Definition pass_of (r : request) : pass :=
  match r with
  | TranslateReq _ _ _ _ => Translate
  | ReviewReq _ _ _ _ => Review
  | RefineReq _ _ _ _ _ => Refine
  | ContextReq _ _ _ => ContextRefresh
  | GlossaryReq _ _ => GlossaryRefresh
  end.

Global Instance pass_eq_dec : EqDecision pass.
Proof. solve_decision. Defined.

Inductive warning :=
| MergedParas (m n : Z)
| PaddedParas (m n : Z)
| ContextUpdateFailed (e : exn)
| GlossaryParseFailed (e : exn)
| SuppressingGlossaryWarnings
| GlossaryExtractionFailed (e : exn).

(** What a run leaves behind: every attempt on the client, every sleep,
    every completed [_api_call] with the way it ended, every warning. *)
Inductive event :=
| Create (attempt : nat)
| Sleep (secs : Z)
| Called (r : request) (max_tokens : Z) (use_cache : bool) (out : result str)
| Warn (wn : warning).

(** A parsed JSON document. An object is given by its items. *)
Local Unset Elimination Schemes.
Inductive json :=
| JNull
| JBool (b : bool)
| JNum (literal : str)
| JStr (s : str)
| JArr (l : list json)
| JObj (items : list (str * json)).
Local Set Elimination Schemes.

(** ** The translator object *)

(** What [load_profile] sets (temperatures left out). *)
Record Profile := {
  profile_name : str;
  style_instructions : str;
  protected_nouns : list str;
  source_language : str;
  min_review_chars : Z;
  context_update_interval : Z;
  glossary_update_interval : Z
}.

(** Totals kept by [_api_call]. *)
Record Meter := {
  total_input_tokens : Z;
  total_output_tokens : Z;
  total_cache_read_tokens : Z;
  total_cache_create_tokens : Z;
  total_requests : Z
}.

Record Counters := {
  pass1_only_count : Z;
  full_3pass_count : Z;
  reviews_ok : Z;
  reviews_fixed : Z;
  chunk_counter : Z;
  glossary_extract_failures : Z
}.

Record Translator := {
  profile : Profile;
  skip_review : bool;
  context_flag : bool;
  glossary : gmap str str;
  context_summary : str;
  meter : Meter;
  counters : Counters
}.

Definition with_profile (p : Profile) (t : Translator) : Translator :=
  {| profile := p; skip_review := skip_review t;
     context_flag := context_flag t; glossary := glossary t;
     context_summary := context_summary t; meter := meter t;
     counters := counters t |}.

Definition with_glossary (g : gmap str str) (t : Translator) : Translator :=
  {| profile := profile t; skip_review := skip_review t;
     context_flag := context_flag t; glossary := g;
     context_summary := context_summary t; meter := meter t;
     counters := counters t |}.

Definition with_context_summary (s : str) (t : Translator) : Translator :=
  {| profile := profile t; skip_review := skip_review t;
     context_flag := context_flag t; glossary := glossary t;
     context_summary := s; meter := meter t; counters := counters t |}.

Definition with_meter (m : Meter) (t : Translator) : Translator :=
  {| profile := profile t; skip_review := skip_review t;
     context_flag := context_flag t; glossary := glossary t;
     context_summary := context_summary t; meter := m;
     counters := counters t |}.

Definition with_counters (c : Counters) (t : Translator) : Translator :=
  {| profile := profile t; skip_review := skip_review t;
     context_flag := context_flag t; glossary := glossary t;
     context_summary := context_summary t; meter := meter t;
     counters := c |}.

Definition incr_pass1_only (c : Counters) : Counters :=
  {| pass1_only_count := pass1_only_count c + 1;
     full_3pass_count := full_3pass_count c; reviews_ok := reviews_ok c;
     reviews_fixed := reviews_fixed c; chunk_counter := chunk_counter c;
     glossary_extract_failures := glossary_extract_failures c |}.

Definition incr_full_3pass (c : Counters) : Counters :=
  {| pass1_only_count := pass1_only_count c;
     full_3pass_count := full_3pass_count c + 1; reviews_ok := reviews_ok c;
     reviews_fixed := reviews_fixed c; chunk_counter := chunk_counter c;
     glossary_extract_failures := glossary_extract_failures c |}.

Definition incr_reviews_ok (c : Counters) : Counters :=
  {| pass1_only_count := pass1_only_count c;
     full_3pass_count := full_3pass_count c; reviews_ok := reviews_ok c + 1;
     reviews_fixed := reviews_fixed c; chunk_counter := chunk_counter c;
     glossary_extract_failures := glossary_extract_failures c |}.

Definition incr_reviews_fixed (c : Counters) : Counters :=
  {| pass1_only_count := pass1_only_count c;
     full_3pass_count := full_3pass_count c; reviews_ok := reviews_ok c;
     reviews_fixed := reviews_fixed c + 1; chunk_counter := chunk_counter c;
     glossary_extract_failures := glossary_extract_failures c |}.

Definition incr_chunk_counter (c : Counters) : Counters :=
  {| pass1_only_count := pass1_only_count c;
     full_3pass_count := full_3pass_count c; reviews_ok := reviews_ok c;
     reviews_fixed := reviews_fixed c; chunk_counter := chunk_counter c + 1;
     glossary_extract_failures := glossary_extract_failures c |}.

Definition incr_glossary_extract_failures (c : Counters) : Counters :=
  {| pass1_only_count := pass1_only_count c;
     full_3pass_count := full_3pass_count c; reviews_ok := reviews_ok c;
     reviews_fixed := reviews_fixed c; chunk_counter := chunk_counter c;
     glossary_extract_failures := glossary_extract_failures c + 1 |}.

(** [int + None] *)
Definition TypeError : exn :=
  Exn (lit "TypeError")
    (lit "unsupported operand type(s) for +=: 'int' and 'NoneType'").

(** [getattr(usage, name, 0)] as a summand; [None] is none. *)
Definition summand (c : counter) : option Z :=
  match c with
  | Absent => Some 0
  | Null => None
  | Count n => Some n
  end.

(** The token bookkeeping after [create] has returned (lines 552-557): five
    additions in a row, of which the two on the cache counters raise on
    [None].  The result says whether one raised and gives the totals with
    the additions made until then. *)
Definition track (u : Usage) (m : Meter) : result unit * Meter :=
  let m1 :=
    {| total_input_tokens := total_input_tokens m + input_tokens u;
       total_output_tokens := total_output_tokens m;
       total_cache_read_tokens := total_cache_read_tokens m;
       total_cache_create_tokens := total_cache_create_tokens m;
       total_requests := total_requests m |} in
  let m2 :=
    {| total_input_tokens := total_input_tokens m1;
       total_output_tokens := total_output_tokens m1 + output_tokens u;
       total_cache_read_tokens := total_cache_read_tokens m1;
       total_cache_create_tokens := total_cache_create_tokens m1;
       total_requests := total_requests m1 |} in
  match summand (cache_read_input_tokens u) with
  | None => (Raise TypeError, m2)
  | Some read =>
      let m3 :=
        {| total_input_tokens := total_input_tokens m2;
           total_output_tokens := total_output_tokens m2;
           total_cache_read_tokens := total_cache_read_tokens m2 + read;
           total_cache_create_tokens := total_cache_create_tokens m2;
           total_requests := total_requests m2 |} in
      match summand (cache_creation_input_tokens u) with
      | None => (Raise TypeError, m3)
      | Some created =>
          (Ok tt,
           {| total_input_tokens := total_input_tokens m3;
              total_output_tokens := total_output_tokens m3;
              total_cache_read_tokens := total_cache_read_tokens m3;
              total_cache_create_tokens :=
                total_cache_create_tokens m3 + created;
              total_requests := total_requests m3 + 1 |})
      end
  end.

(** ** The world and the monad *)

Record World := {
  self : Translator;
  oracle : nat → result Response;
  next : nat;
  log : list event
}.

Definition M (A : Type) : Type := World → result A * World.

Definition ret {A} (a : A) : M A := λ w, (Ok a, w).

Definition raise {A} (e : exn) : M A := λ w, (Raise e, w).

Definition bind {A B} (m : M A) (k : A → M B) : M B :=
  λ w, match m w with
       | (Ok a, w') => k a w'
       | (Raise e, w') => (Raise e, w')
       end.

(** [try: m  except Exception as e: h e] *)
Definition try_except {A} (m : M A) (h : exn → M A) : M A :=
  λ w, match m w with
       | (Ok a, w') => (Ok a, w')
       | (Raise e, w') => h e w'
       end.

Notation "'let*' x := m 'in' k" := (bind m (λ x, k))
  (at level 10, x name, m at level 100, k at level 200,
   format "'[v' 'let*'  x  :=  m  'in' '/' k ']'").

Definition get_self : M Translator := λ w, (Ok (self w), w).

Definition update (f : Translator → Translator) : M unit :=
  λ w, (Ok tt, {| self := f (self w); oracle := oracle w; next := next w;
                  log := log w |}).

Definition emit (ev : event) : M unit :=
  λ w, (Ok tt, {| self := self w; oracle := oracle w; next := next w;
                  log := log w ++ [ev] |}).

(** Runs [m] and records how it ended. *)
Definition recorded {A} (ev : result A → event) (m : M A) : M A :=
  λ w, match m w with
       | (r, w') =>
           (r, {| self := self w'; oracle := oracle w'; next := next w';
                  log := log w' ++ [ev r] |})
       end.

(** The bookkeeping as a step: the totals are assigned as far as the
    additions went. *)
Definition account (u : Usage) : M unit :=
  λ w, ((track u (meter (self w))).1,
        {| self := with_meter (track u (meter (self w))).2 (self w);
           oracle := oracle w; next := next w; log := log w |}).

(** [self.client.messages.create]: the next answer of the oracle. *)
Definition create (attempt : nat) : M Response :=
  λ w, (oracle w (next w),
        {| self := self w; oracle := oracle w; next := S (next w);
           log := log w ++ [Create attempt] |}).

Definition ZeroDivisionError : exn :=
  Exn (lit "ZeroDivisionError") (lit "integer modulo by zero").
Definition IndexError : exn :=
  Exn (lit "IndexError") (lit "list index out of range").
Definition RuntimeError (msg : str) : exn := Exn (lit "RuntimeError") msg.
Definition FileNotFoundError (msg : str) : exn :=
  Exn (lit "FileNotFoundError") msg.
Definition JSONDecodeError : exn :=
  Exn (lit "JSONDecodeError") (lit "Expecting value").

(** [a % b] *)
Definition py_mod (a b : Z) : M Z :=
  if b =? 0 then raise ZeroDivisionError else ret (a mod b).

(** ** Constants *)

Definition DEFAULT_MIN_REVIEW_CHARS : Z := 300.
Definition DEFAULT_CONTEXT_INTERVAL : Z := 15.
Definition DEFAULT_GLOSSARY_INTERVAL : Z := 20.
Definition PARA_DELIMITER : str := lit "|||PARA|||".

(** The reserved marker of glossary keys. *)
Definition MARKER : str := lit "_".

(** ** Glossary formatting *)

(** The order of [sorted] on strings: lexicographic on code points. *)
Fixpoint str_compare (a b : str) : comparison :=
  match a, b with
  | [], [] => Eq
  | [], _ :: _ => Lt
  | _ :: _, [] => Gt
  | x :: a', y :: b' =>
      match N.compare x y with
      | Eq => str_compare a' b'
      | c => c
      end
  end.

(** The order of [sorted] on [(src, tgt)] tuples. *)
Definition item_compare (p q : str * str) : comparison :=
  match str_compare p.1 q.1 with
  | Eq => str_compare p.2 q.2
  | c => c
  end.

Definition item_le (p q : str * str) : Prop := item_compare p q ≠ Gt.

Global Instance item_le_dec : RelDecision item_le.
Proof. intros p q. unfold item_le. apply _. Defined.

(** One line of the snapshot: two spaces, source, arrow, target. *)
Definition format_entry (e : str * str) : str :=
  lit "  " ++ e.1 ++ [32; 8594; 32]%N ++ e.2.

(** [lines] of [_format_glossary]. *)
Definition glossary_lines (g : gmap str str) : list str :=
  map format_entry
    (List.filter (λ e, negb (startswith MARKER e.1))
       (merge_sort item_le (map_to_list g))).

Definition _format_glossary (t : Translator) : str :=
  if decide (glossary t = ∅) then []
  else join NL (slice_to 60 (glossary_lines (glossary t))).

(** [self.glossary.update(items)] *)
Definition dict_update (g : gmap str str) (items : list (str * str))
  : gmap str str :=
  foldl (λ g kv, <[kv.1 := kv.2]> g) g items.

(** ** Batch reassembly (the tail of [_translate_batch]) *)

Definition batch_parts (translation : str) : list str :=
  map (λ p, replace NL SP (strip p))
    (List.filter (λ p, truthy (strip p)) (split PARA_DELIMITER translation)).

(** Lines 369-381: the reassembled text and the notice printed on a
    count mismatch. *)
Definition reassemble (paragraphs : list str) (translation : str)
  : str * option warning :=
  let para_count := len paragraphs in
  let parts := batch_parts translation in
  if len parts =? para_count then (join NL parts, None)
  else if len parts >? para_count then
    let merged :=
      slice_to (para_count - 1) parts
      ++ [join SP (slice_from (para_count - 1) parts)] in
    (join NL merged, Some (MergedParas (len parts) para_count))
  else
    let padded := parts ++ slice_from (len parts) paragraphs in
    (join NL (slice_to para_count padded),
     Some (PaddedParas (len parts) para_count)).

(** [_is_quality_ok] *)
Definition QUALITY_TAGS : list str :=
  [lit "QUALITY_OK"; lit "QUALITAET_OK";
   lit "QUALIT" ++ [196%N] ++ lit "T_OK"].

Definition _is_quality_ok (review : str) : bool :=
  existsb (λ tag, contains tag review) QUALITY_TAGS.

(** ** Profiles *)

(** The recognised fields of a profile file; [None] is an absent field. *)
Record ProfileFile := {
  pf_name : option str;
  pf_style_instructions : option str;
  pf_protected_nouns : option (list str);
  pf_source_language : option str;
  pf_glossary_seed : option (gmap str str);
  pf_min_review_chars : option Z;
  pf_context_update_interval : option Z;
  pf_glossary_update_interval : option Z
}.

Definition skip_prefixes : list str :=
  [lit "Names,"; lit "Add "; lit "DELETE"; lit "Character ";
   lit "One entry"; lit "Delete "].

Definition keep_noun (n : str) : bool :=
  negb (existsb (λ p, startswith p n) skip_prefixes) && (len n <? 100).

(** [load_profile]: [file] is the parsed content of the file at
    [profile_path], [None] when the path does not exist; [basename] is
    [os.path.basename(profile_path)]. *)
Definition load_profile (basename : str) (file : option ProfileFile) : M unit :=
  match file with
  | None => raise (FileNotFoundError (lit "Translation profile not found"))
  | Some pf =>
      update (λ t,
        let p := profile t in
        let seed := delete (lit "_comment") (default ∅ (pf_glossary_seed pf)) in
        with_glossary (seed ∪ glossary t)
          (with_profile
             {| profile_name := default basename (pf_name pf);
                style_instructions :=
                  default (style_instructions p) (pf_style_instructions pf);
                protected_nouns :=
                  List.filter keep_noun (default [] (pf_protected_nouns pf));
                source_language :=
                  default (source_language p) (pf_source_language pf);
                min_review_chars :=
                  default (min_review_chars p) (pf_min_review_chars pf);
                context_update_interval :=
                  default (context_update_interval p)
                    (pf_context_update_interval pf);
                glossary_update_interval :=
                  default (glossary_update_interval p)
                    (pf_glossary_update_interval pf) |} t))
  end.

(** ** The translator's methods *)

Section Claude3Pass.

(** [json.loads]: [None] stands for [json.JSONDecodeError]. *)
Variable json_loads : str → option json.

(** [str.lower] *)
Variable lower : str → str.

(** *** The call layer *)

Definition looks_rate_limited (e : exn) : bool :=
  contains (lit "RateLimit") (exn_type e)
  || contains (lit "rate") (lower (exn_msg e)).

Definition backoff_base (e : exn) : Z :=
  if looks_rate_limited e then 5 else 3.

(** [min(60, 2 ** attempt * base)] *)
Definition backoff (attempt : nat) (e : exn) : Z :=
  Z.min 60 (2 ^ Z.of_nat attempt * backoff_base e).

(** Concatenated text of the text-typed content blocks. *)
Definition text_of (r : Response) : str :=
  concat (map block_text
            (List.filter (λ b, bool_decide (block_type b = lit "text"))
               (content r))).

(** The body of [for attempt in range(retries)], with [todo] iterations
    left. *)
Fixpoint api_loop (retries todo : nat) : M str :=
  match todo with
  | O =>
      raise (RuntimeError
               (lit "Failed after " ++ lit (pretty retries) ++ lit " retries"))
  | S todo' =>
      let attempt := (retries - todo)%nat in
      try_except
        (let* response := create attempt in
         let* _ := account (usage response) in
         ret (text_of response))
        (λ e,
           if Z.of_nat attempt <? Z.of_nat retries - 1 then
             let* _ := emit (Sleep (backoff attempt e)) in
             api_loop retries todo'
           else raise e)
  end.

Definition _api_call (req : request) (max_tokens : Z) (retries : nat)
    (use_cache : bool) : M str :=
  recorded (Called req max_tokens use_cache) (api_loop retries retries).

(** Default arguments of [_api_call]. *)
Definition MAX_TOKENS : Z := 8192.
Definition RETRIES : nat := 5.

(** *** The three passes *)

Definition _pass1 (text : str) (batch_instruction : option Z) : M str :=
  let* t := get_self in
  _api_call
    (TranslateReq (_format_glossary t) (context_summary t) text
       batch_instruction)
    MAX_TOKENS RETRIES true.

Definition _pass2 (original translation : str) (is_batch : bool) : M str :=
  let* t := get_self in
  _api_call (ReviewReq (_format_glossary t) original translation is_batch)
    MAX_TOKENS RETRIES true.

Definition _pass3 (original translation review : str)
    (batch_instruction : option Z) : M str :=
  let* t := get_self in
  _api_call
    (RefineReq (_format_glossary t) original translation review
       batch_instruction)
    MAX_TOKENS RETRIES true.

(** *** Context and glossary refresh *)

(** The pairs of a parsed object that pass the filter. *)
Definition valid_terms (items : list (str * json)) : list (str * str) :=
  omap (λ kv,
          match kv.2 with
          | JStr v =>
              if (len kv.1 <? 100) && (len v <? 200)
                 && negb (startswith MARKER kv.1)
              then Some (kv.1, v) else None
          | _ => None
          end) items.

(** Lines 484-486: the reply without its optional code fence; [None]
    stands for the [IndexError] of [resp.split(...)[1]]. *)
Definition unfence (resp : str) : option str :=
  let resp := strip resp in
  if startswith (lit "```") resp then
    match split_once NL resp with
    | Some (_, rest) => Some (rsplit_once_head (lit "```") rest)
    | None => None
    end
  else Some resp.

(** The first [if] of [_maybe_update_context_glossary]. *)
Definition update_context (original translation : str) : M unit :=
  let* t := get_self in
  if context_flag t then
    let* r := py_mod (chunk_counter (counters t))
                (context_update_interval (profile t)) in
    if r =? 0 then
      try_except
        (let prev := context_summary t in
         let msg :=
           if truthy prev then
             ContextReq prev (slice_to 1500 original)
               (slice_to 1500 translation)
           else
             ContextReq [] (slice_to 2000 original)
               (slice_to 2000 translation) in
         let* summary := _api_call msg 512 RETRIES false in
         update (with_context_summary summary))
        (λ e, emit (Warn (ContextUpdateFailed e)))
    else ret tt
  else ret tt.

Definition count_glossary_failure : M Z :=
  let* _ := update (λ t,
              with_counters (incr_glossary_extract_failures (counters t)) t) in
  let* t := get_self in
  ret (glossary_extract_failures (counters t)).

(** The two [except] clauses of the glossary refresh: the first is for
    [json.JSONDecodeError], the second for every other [Exception]. *)
Definition glossary_except (e : exn) : M unit :=
  if decide (exn_type e = lit "JSONDecodeError") then
    let* n := count_glossary_failure in
    if n <=? 5 then emit (Warn (GlossaryParseFailed e))
    else if n =? 6 then emit (Warn SuppressingGlossaryWarnings)
    else ret tt
  else
    let* n := count_glossary_failure in
    if n <=? 3 then emit (Warn (GlossaryExtractionFailed e))
    else ret tt.

(** The second [if] of [_maybe_update_context_glossary]. *)
Definition update_glossary (original translation : str) : M unit :=
  let* t := get_self in
  let* r := py_mod (chunk_counter (counters t))
              (glossary_update_interval (profile t)) in
  if r =? 0 then
    try_except
      (let* resp :=
         _api_call
           (GlossaryReq (slice_to 2000 original) (slice_to 2000 translation))
           1024 RETRIES false in
       let* resp :=
         match unfence resp with
         | Some resp => ret resp
         | None => raise IndexError
         end in
       match json_loads resp with
       | None => raise JSONDecodeError
       | Some (JObj items) =>
           let valid := valid_terms items in
           match valid with
           | [] => ret tt
           | _ :: _ =>
               update (λ t, with_glossary (dict_update (glossary t) valid) t)
           end
       | Some _ => ret tt
       end)
      glossary_except
  else ret tt.

Definition _maybe_update_context_glossary (original translation : str)
  : M unit :=
  let* _ := update_context original translation in
  update_glossary original translation.

(** *** Translation modes *)

Definition _translate_pass1_only (text : str) : M str :=
  let* _ := update (λ t, with_counters (incr_pass1_only (counters t)) t) in
  let* translation := _pass1 text None in
  let* _ := _maybe_update_context_glossary text translation in
  ret translation.

Definition _translate_3pass (text : str) : M str :=
  let* _ := update (λ t, with_counters (incr_full_3pass (counters t)) t) in
  let* translation := _pass1 text None in
  let* review := _pass2 text translation false in
  if _is_quality_ok review then
    let* _ := update (λ t, with_counters (incr_reviews_ok (counters t)) t) in
    let* _ := _maybe_update_context_glossary text translation in
    ret translation
  else
    let* _ := update (λ t, with_counters (incr_reviews_fixed (counters t)) t) in
    let* refined := _pass3 text translation review None in
    let* _ := _maybe_update_context_glossary text refined in
    ret refined.

Definition _translate_batch (text : str) : M str :=
  let paragraphs := split NL text in
  let para_count := len paragraphs in
  let total_chars := len text in
  let* _ := update (λ t, with_counters (incr_full_3pass (counters t)) t) in
  let delimited := join (NL ++ PARA_DELIMITER ++ NL) paragraphs in
  let bi := Some para_count in
  let* translation := _pass1 delimited bi in
  let* t := get_self in
  let* translation :=
    if negb (skip_review t) && (total_chars >=? min_review_chars (profile t))
    then
      let* review := _pass2 delimited translation true in
      if _is_quality_ok review then
        let* _ := update (λ t, with_counters (incr_reviews_ok (counters t)) t) in
        ret translation
      else
        let* _ := update (λ t, with_counters (incr_reviews_fixed (counters t)) t) in
        _pass3 delimited translation review bi
    else ret translation in
  let (result, notice) := reassemble paragraphs translation in
  let* _ := match notice with
            | Some wn => emit (Warn wn)
            | None => ret tt
            end in
  let* _ := _maybe_update_context_glossary text result in
  ret result.

(** [translate]: the entry point, called once per unit. *)
Definition translate (text : str) : M str :=
  let* _ := update (λ t, with_counters (incr_chunk_counter (counters t)) t) in
  let is_batch := contains NL (strip text) in
  if is_batch then _translate_batch text
  else
    let* t := get_self in
    if (len text <? min_review_chars (profile t)) || skip_review t then
      _translate_pass1_only text
    else _translate_3pass text.

End Claude3Pass.

(** ** Views of the state and of the log, for the statements below *)

(** What only [load_profile] and the constructor set. *)
Definition settings (t : Translator) : Profile * bool * bool :=
  (profile t, skip_review t, context_flag t).

(** What the two refreshes maintain. *)
Definition rolling (t : Translator) : gmap str str * str * Z :=
  (glossary t, context_summary t, glossary_extract_failures (counters t)).

(** What the dispatcher and the modes count. *)
Definition modes (t : Translator) : Z * Z * Z * Z * Z :=
  let c := counters t in
  (pass1_only_count c, full_3pass_count c, reviews_ok c, reviews_fixed c,
   chunk_counter c).

(** How the [try] block of an attempt ends on the answer [a] of the
    client: with the text of the response, with the exception the client
    raised, or with the exception of the bookkeeping. *)
Definition outcome (a : result Response) : result str :=
  match a with
  | Raise e => Raise e
  | Ok resp =>
      match summand (cache_read_input_tokens (usage resp)),
            summand (cache_creation_input_tokens (usage resp)) with
      | Some _, Some _ => Ok (text_of resp)
      | _, _ => Raise TypeError
      end
  end.

(** The totals after an attempt that got the answer [a]. *)
Definition settle (a : result Response) (m : Meter) : Meter :=
  match a with
  | Ok resp => (track (usage resp) m).2
  | Raise _ => m
  end.

(** The completed calls of a log, oldest first. *)
Definition calls (l : list event) : list (request * result str) :=
  omap (λ ev, match ev with
              | Called r _ _ out => Some (r, out)
              | _ => None
              end) l.

(** The calls whose answer is a translation: the translate call and the
    refine call. *)
Definition gives_translation (c : request * result str) : bool :=
  match pass_of c.1 with
  | Translate | Refine => true
  | _ => false
  end.

(** How many of the calls belong to pass [p]. *)
Definition issued (p : pass) (cs : list (request * result str)) : nat :=
  length (List.filter (λ c, bool_decide (pass_of c.1 = p)) cs).

Definition is_refresh (c : request * result str) : Prop :=
  pass_of c.1 = ContextRefresh ∨ pass_of c.1 = GlossaryRefresh.

Definition is_ok {A} (r : result A) : bool :=
  match r with Ok _ => true | Raise _ => false end.

(** A step that leaves everything but the token totals and the log as it
    was. *)
Definition untouched (w w' : World) : Prop :=
  settings (self w') = settings (self w)
  ∧ rolling (self w') = rolling (self w)
  ∧ modes (self w') = modes (self w)
  ∧ oracle w' = oracle w.

(** The mode counters of [t], moved by the given amounts. *)
Definition bumped (p1 f3 ok fixed : Z) (t : Translator) : Z * Z * Z * Z * Z :=
  let c := counters t in
  (pass1_only_count c + p1, full_3pass_count c + f3, reviews_ok c + ok,
   reviews_fixed c + fixed, chunk_counter c).

(** What a glossary refresh makes of the way its call ended: [None] when it
    counts a failure, otherwise the pairs it merges. *)
Definition glossary_verdict (json_loads : str → option json)
    (out : result str) : option (list (str * str)) :=
  match out with
  | Raise _ => None
  | Ok resp =>
      match unfence resp with
      | None => None
      | Some doc =>
          match json_loads doc with
          | None => None
          | Some (JObj items) => Some (valid_terms items)
          | Some _ => Some []
          end
      end
  end.

(** ** The constructor and sample collaborators *)

(** [__init__], with the two flags a caller can pass. *)
Definition init (skip_review context_flag : bool) : Translator :=
  {| profile :=
       {| profile_name := lit "Default";
          style_instructions :=
            lit "- Produce natural, fluent literary prose in the target language"
            ++ NL ++ lit "- Preserve the author's voice, tone, and style"
            ++ NL ++ lit "- Translate idioms by meaning, not word-for-word"
            ++ NL ++ lit "- Maintain sentence rhythm and pacing where possible"
            ++ NL ++ lit "- Use natural target-language sentence structures";
          protected_nouns := [];
          source_language := lit "English";
          min_review_chars := DEFAULT_MIN_REVIEW_CHARS;
          context_update_interval := DEFAULT_CONTEXT_INTERVAL;
          glossary_update_interval := DEFAULT_GLOSSARY_INTERVAL |};
     skip_review := skip_review;
     context_flag := context_flag;
     glossary := ∅;
     context_summary := [];
     meter := {| total_input_tokens := 0; total_output_tokens := 0;
                 total_cache_read_tokens := 0; total_cache_create_tokens := 0;
                 total_requests := 0 |};
     counters := {| pass1_only_count := 0; full_3pass_count := 0;
                    reviews_ok := 0; reviews_fixed := 0; chunk_counter := 0;
                    glossary_extract_failures := 0 |} |}.

Definition with_min_review_chars (n : Z) (t : Translator) : Translator :=
  let p := profile t in
  with_profile
    {| profile_name := profile_name p;
       style_instructions := style_instructions p;
       protected_nouns := protected_nouns p;
       source_language := source_language p;
       min_review_chars := n;
       context_update_interval := context_update_interval p;
       glossary_update_interval := glossary_update_interval p |} t.

Definition with_intervals (ctx gl : Z) (t : Translator) : Translator :=
  let p := profile t in
  with_profile
    {| profile_name := profile_name p;
       style_instructions := style_instructions p;
       protected_nouns := protected_nouns p;
       source_language := source_language p;
       min_review_chars := min_review_chars p;
       context_update_interval := ctx;
       glossary_update_interval := gl |} t.

(** The world once [translate] has counted the unit. *)
Definition entered (w : World) : World :=
  {| self := with_counters (incr_chunk_counter (counters (self w))) (self w);
     oracle := oracle w; next := next w; log := log w |}.

(** A mode ends by refreshing the rolling state from [w1] and returning
    [out]. *)
Definition ends_with_refresh (json_loads : str → option json)
    (lower : str → str) (text out : str) (w1 : World) (r : result str)
    (w' : World) : Prop :=
  ∃ r0, _maybe_update_context_glossary json_loads lower text out w1 = (r0, w')
        ∧ r = match r0 with Ok _ => Ok out | Raise e => Raise e end.

(** The invariant on glossary keys. *)
Definition unmarked (g : gmap str str) : Prop :=
  ∀ k v, g !! k = Some v → startswith MARKER k = false.

(** The operations that touch the glossary, and runs of them. *)
Inductive op :=
| OpLoadProfile (basename : str) (file : option ProfileFile)
| OpTranslate (text : str).

Definition run_op (json_loads : str → option json) (lower : str → str)
    (o : op) (w : World) : World :=
  match o with
  | OpLoadProfile basename file => (load_profile basename file w).2
  | OpTranslate text => (translate json_loads lower text w).2
  end.

Definition run_ops (json_loads : str → option json) (lower : str → str)
    (ops : list op) (w : World) : World :=
  foldl (λ w o, run_op json_loads lower o w) w ops.

(** A profile whose seed has no marked key besides the comment key. *)
Definition clean_seed (o : op) : Prop :=
  match o with
  | OpLoadProfile _ (Some pf) =>
      ∀ k v, default ∅ (pf_glossary_seed pf) !! k = Some v →
             k ≠ lit "_comment" → startswith MARKER k = false
  | _ => True
  end.

Module Sample.

(** A world at the start of a run. *)
Definition world (t : Translator) (o : nat → result Response) : World :=
  {| self := t; oracle := o; next := 0; log := [] |}.

(** A response holding one text block. *)
Definition reply (s : str) : Response :=
  {| content := [{| block_type := lit "text"; block_text := s |}];
     usage := {| input_tokens := 10; output_tokens := 5;
                 cache_read_input_tokens := Absent;
                 cache_creation_input_tokens := Count 0 |} |}.

(** The same response as the client library builds it when the service
    reports no cache usage: both cache counters are there and hold
    [None]. *)
Definition reply_without_cache (s : str) : Response :=
  {| content := [{| block_type := lit "text"; block_text := s |}];
     usage := {| input_tokens := 10; output_tokens := 5;
                 cache_read_input_tokens := Null;
                 cache_creation_input_tokens := Null |} |}.

(** A client that answers the [k]-th request with the [k]-th entry of a
    script and fails once the script is exhausted. *)
Definition scripted (script : list (result Response)) (k : nat)
  : result Response :=
  default (Raise (Exn (lit "APIConnectionError") (lit "Connection error.")))
    (script !! k).

Definition overloaded : exn :=
  Exn (lit "RateLimitError") (lit "Error code: 429").
Definition timed_out : exn :=
  Exn (lit "APITimeoutError") (lit "Request timed out.").

(** [str.lower] on A-Z; other code points are left alone. *)
Definition lower (s : str) : str :=
  map (λ c, if (65 <=? c)%N && (c <=? 90)%N then (c + 32)%N else c) s.

(** [json.loads] on the documents used in the examples below; every other
    text used there is not JSON. *)
Definition quoted (s : string) : str := [34%N] ++ lit s ++ [34%N].

(** The text of a JSON object with the members [Shire: "Auenland"] and
    [n: 1]. *)
Definition doc_mixed : str :=
  lit "{" ++ quoted "Shire" ++ lit ": " ++ quoted "Auenland" ++ lit ", "
  ++ quoted "n" ++ lit ": 1}".

(** The text of a JSON object with the members [Gandalf: "Gandalf"] and
    [Shire: "Auenland"]. *)
Definition doc_terms : str :=
  lit "{" ++ quoted "Gandalf" ++ lit ": " ++ quoted "Gandalf" ++ lit ", "
  ++ quoted "Shire" ++ lit ": " ++ quoted "Auenland" ++ lit "}".

(** [json.loads] on the documents used in the examples below; every other
    text used there is not JSON. *)
Definition json_loads (s : str) : option json :=
  if decide (s = lit "[]") then Some (JArr [])
  else if decide (s = doc_mixed) then
    Some (JObj [(lit "Shire", JStr (lit "Auenland")); (lit "n", JNum (lit "1"))])
  else if decide (s = doc_terms) then
    Some (JObj [(lit "Gandalf", JStr (lit "Gandalf"));
                (lit "Shire", JStr (lit "Auenland"))])
  else None.

(** Units. *)
Definition hello : str := lit "Hello".
Definition two_paras : str := lit "A" ++ NL ++ lit "B".
Definition three_paras : str := lit "A" ++ NL ++ lit "B" ++ NL ++ lit "C".

(** Model replies. *)
Definition two_segments : str := lit "X|||PARA|||Y".
Definition issues : str := lit "1. LOCATION: Hallo PROBLEM: flat FIX: Hallo!".
Definition chatter : str := lit "Sure! Here are the terms.".

(** A freshly built translator with the default threshold of 300, and one
    that reviews everything. *)
Definition fresh : Translator := init false false.
Definition eager : Translator := with_min_review_chars 0 (init false false).

(** A short single paragraph. *)
Definition w_short : World := world fresh (scripted [Ok (reply (lit "Hallo"))]).

(** A short batch. *)
Definition w_short_batch : World :=
  world fresh (scripted [Ok (reply two_segments)]).

(** A batch whose review passes, answered with one segment too few. *)
Definition w_batch : World :=
  world eager
    (scripted [Ok (reply two_segments); Ok (reply (lit "QUALITY_OK"))]).

(** The same batch with review globally disabled. *)
Definition w_batch_skip : World :=
  world (with_min_review_chars 0 (init true false))
    (scripted [Ok (reply two_segments); Ok (reply (lit "QUALITY_OK"))]).

(** A single paragraph whose review finds issues. *)
Definition w_refine : World :=
  world eager
    (scripted [Ok (reply (lit "Hallo")); Ok (reply issues);
               Ok (reply (lit "Hallo!"))]).

(** A call that fails four times. *)
Definition w_flaky : World :=
  world fresh
    (scripted [Raise overloaded; Raise timed_out; Raise timed_out;
               Raise overloaded; Ok (reply (lit "Hallo"))]).


(** A client whose first response reports no cache usage. *)
Definition w_without_cache : World :=
  world fresh
    (scripted [Ok (reply_without_cache (lit "Hallo"));
               Ok (reply (lit "Hallo"))]).

(** Context refresh due at every unit, the client down after the
    translation. *)
Definition w_context_down : World :=
  world (with_context_summary (lit "Bisher.")
           (with_intervals 1 20 (init false true)))
    (scripted [Ok (reply (lit "Hallo"))]).

(** Glossary refresh due at every unit, answered with [reply]. *)
Definition w_glossary (answer : str) : World :=
  world (with_intervals 15 1 fresh)
    (scripted [Ok (reply (lit "Hallo")); Ok (reply answer)]).

(** Profiles: one with the comment key in its seed, one with another
    marked key. *)
Definition profile_with_seed (seed : gmap str str) : ProfileFile :=
  {| pf_name := Some (lit "Fantasy");
     pf_style_instructions := None;
     pf_protected_nouns := Some [lit "Mordor"; lit "Add a name here"];
     pf_source_language := None;
     pf_glossary_seed := Some seed;
     pf_min_review_chars := None;
     pf_context_update_interval := None;
     pf_glossary_update_interval := Some 1 |}.

Definition seed_commented : gmap str str :=
  {[ lit "_comment" := lit "Add terms here"; lit "Gandalf" := lit "Gandalf" ]}.

Definition seed_marked : gmap str str := {[ lit "_note" := lit "x" ]}.

Definition session : list op :=
  [OpLoadProfile (lit "fantasy.json") (Some (profile_with_seed seed_commented));
   OpTranslate hello].

Definition w_session : World :=
  world fresh (scripted [Ok (reply (lit "Hallo")); Ok (reply doc_terms)]).

End Sample.

(** ** Further views, for the properties of the whole engine *)

(** [m] moves every world along [R], however it ends. *)
Definition steps {A} (R : World → World → Prop) (m : M A) : Prop :=
  ∀ w r w', m w = (r, w') → R w w'.

(** The totals after the [d] answers of the client from [start] on, each
    settled in its turn. *)
Fixpoint tally (o : nat → result Response) (start d : nat) (m : Meter)
  : Meter :=
  match d with
  | O => m
  | S d' => tally o (S start) d' (settle (o start) m)
  end.

(** Among the [d] answers from [start] on, the number of responses whose
    bookkeeping went through. *)
Fixpoint responses (o : nat → result Response) (start d : nat) : Z :=
  match d with
  | O => 0
  | S d' =>
      (if is_ok (outcome (o start)) then 1 else 0) + responses o (S start) d'
  end.

(** The sum of a field of the usage over all responses among the [d]
    answers from [start] on. *)
Fixpoint received (field : Usage → Z) (o : nat → result Response)
    (start d : nat) : Z :=
  match d with
  | O => 0
  | S d' =>
      match o start with
      | Ok resp => field (usage resp)
      | Raise _ => 0
      end + received field o (S start) d'
  end.

(** The totals of [w'] are those of [w] plus the answers consumed in
    between. *)
Definition accounted (w w' : World) : Prop :=
  oracle w' = oracle w
  ∧ (next w ≤ next w')%nat
  ∧ meter (self w') =
    tally (oracle w) (next w) (next w' - next w) (meter (self w)).

(** The seconds slept in a log. *)
Definition slept (l : list event) : Z :=
  foldr (λ ev acc, match ev with Sleep s => s + acc | _ => acc end) 0 l.

(** The attempts made in a log. *)
Definition attempts (l : list event) : nat :=
  length (List.filter (λ ev, match ev with Create _ => true | _ => false end) l).

(** The protected nouns are the ones [load_profile] lets through. *)
Definition tidy_nouns (t : Translator) : Prop :=
  Forall (λ n, len n < 100
               ∧ Forall (λ p, startswith p n = false) skip_prefixes)
    (protected_nouns (profile t)).

(** The counters agree with one another. *)
Definition consistent (t : Translator) : Prop :=
  let c := counters t in
  pass1_only_count c + full_3pass_count c = chunk_counter c
  ∧ 0 ≤ reviews_ok c ∧ 0 ≤ reviews_fixed c
  ∧ reviews_ok c + reviews_fixed c ≤ full_3pass_count c.

Definition is_unit (o : op) : bool :=
  match o with OpTranslate _ => true | OpLoadProfile _ _ => false end.

(** What the batch prompt asks of each translated paragraph: some text,
    without surrounding whitespace, on one line, free of the delimiter's
    character. *)
Definition plain_paragraph (q : str) : Prop :=
  q ≠ [] ∧ strip q = q ∧ (124%N ∉ q) ∧ (10%N ∉ q).


(** What a step adds to the log stays within the budget of the call layer:
    five attempts and 75 seconds of back-off for every completed call, each
    attempt consuming one answer of the client. *)
Definition paced (w w' : World) : Prop :=
  ∃ l, log w' = log w ++ l
       ∧ next w' = (next w + attempts l)%nat
       ∧ (attempts l ≤ 5 * length (calls l))%nat
       ∧ 0 ≤ slept l ≤ 75 * Z.of_nat (length (calls l)).

(** The failures the glossary refresh has counted. *)
Definition failures (w : World) : Z :=
  glossary_extract_failures (counters (self w)).

(** The warnings of the glossary refresh. *)
Definition glossary_warning (wn : warning) : bool :=
  match wn with
  | GlossaryParseFailed _ | SuppressingGlossaryWarnings
  | GlossaryExtractionFailed _ => true
  | _ => false
  end.

(** When a step that takes the failure count from [f0] to [f1] may print
    an event. *)
Definition rationed (f0 f1 : Z) (ev : event) : Prop :=
  match ev with
  | Warn (GlossaryParseFailed _) => f0 < 5 ∧ f0 < f1
  | Warn SuppressingGlossaryWarnings => f0 ≤ 5 < f1
  | Warn (GlossaryExtractionFailed _) => f0 < 3 ∧ f0 < f1
  | _ => True
  end.

Definition hushed (w w' : World) : Prop :=
  failures w ≤ failures w'
  ∧ ∃ l, log w' = log w ++ l
         ∧ Forall (rationed (failures w) (failures w')) l.

(** When the two refreshes are due at the unit numbered [n]. *)
Definition context_due (t : Translator) (n : Z) : Prop :=
  context_flag t = true
  ∧ context_update_interval (profile t) ≠ 0
  ∧ n mod context_update_interval (profile t) = 0.

Definition glossary_due (t : Translator) (n : Z) : Prop :=
  glossary_update_interval (profile t) ≠ 0
  ∧ n mod glossary_update_interval (profile t) = 0.

(** ** The constructor's language names *)

(** The table of [_resolve_source_lang]. *)
Definition LANGUAGE_NAMES : list (str * str) :=
  [(lit "en", lit "English"); (lit "de", lit "German");
   (lit "fr", lit "French"); (lit "es", lit "Spanish");
   (lit "it", lit "Italian"); (lit "pt", lit "Portuguese");
   (lit "nl", lit "Dutch"); (lit "ru", lit "Russian");
   (lit "ja", lit "Japanese"); (lit "zh", lit "Chinese");
   (lit "zh-hans", lit "Simplified Chinese");
   (lit "zh-hant", lit "Traditional Chinese"); (lit "ko", lit "Korean");
   (lit "pl", lit "Polish"); (lit "sv", lit "Swedish");
   (lit "da", lit "Danish"); (lit "no", lit "Norwegian");
   (lit "fi", lit "Finnish"); (lit "cs", lit "Czech");
   (lit "hu", lit "Hungarian"); (lit "ro", lit "Romanian");
   (lit "tr", lit "Turkish"); (lit "ar", lit "Arabic");
   (lit "he", lit "Hebrew"); (lit "hi", lit "Hindi"); (lit "th", lit "Thai");
   (lit "vi", lit "Vietnamese"); (lit "uk", lit "Ukrainian");
   (lit "el", lit "Greek")].

(** [_resolve_source_lang]; the argument is [None] for Python's [None]. *)
Definition _resolve_source_lang (lower : str → str)
    (source_lang : option str) : str :=
  match source_lang with
  | None => lit "English"
  | Some s =>
      if negb (truthy s) || bool_decide (s = lit "auto") then lit "English"
      else default s ((list_to_map LANGUAGE_NAMES : gmap str str) !! lower s)
  end.

(** ** Translating a text file line by line

    [_translate_txt] of [orchestrator/tools/translate.py].  The file is
    given by its decoded content and the result is the text handed to
    [f.write]. *)

(** What text mode makes of the content: with universal newlines a
    carriage return followed by a line feed, and a carriage return alone,
    are read as one line feed. *)
Fixpoint universal_newlines (s : str) : str :=
  match s with
  | [] => []
  | c :: s' =>
      if (c =? 13)%N then
        match s' with
        | d :: s'' =>
            if (d =? 10)%N then 10%N :: universal_newlines s''
            else 10%N :: universal_newlines s'
        | [] => [10%N]
        end
      else c :: universal_newlines s'
  end.

(** The lines with their line ends; a last line without one is a line when
    it is not empty. *)
Fixpoint keepends (pieces : list str) : list str :=
  match pieces with
  | [] => []
  | [last] => if truthy last then [last] else []
  | p :: rest => (p ++ NL) :: keepends rest
  end.

(** [f.readlines()] *)
Definition readlines (content : str) : list str :=
  keepends (split NL (universal_newlines content)).

(** The lines that are translated: stripped, the blank ones dropped, cut to
    [lines[:test_num]] in test mode. *)
Definition txt_lines (content : str) (test_mode : bool) (test_num : Z)
  : list str :=
  let lines :=
    map strip (List.filter (λ l, truthy (strip l)) (readlines content)) in
  if test_mode then slice_to test_num lines else lines.

(** The loop over the lines. *)
Fixpoint translate_lines (json_loads : str → option json) (lower : str → str)
    (lines : list str) : M (list str) :=
  match lines with
  | [] => ret []
  | line :: rest =>
      let* result := translate json_loads lower line in
      let* translated := translate_lines json_loads lower rest in
      ret (result :: translated)
  end.

(** [translated] holds what [translate] returned for the [lines], one
    after the other, on the way from [w] to [w']. *)
Fixpoint translated_in_turn (json_loads : str → option json)
    (lower : str → str) (lines translated : list str) (w w' : World)
  : Prop :=
  match lines, translated with
  | [], [] => w' = w
  | line :: lines', result :: translated' =>
      ∃ w1, translate json_loads lower line w = (Ok result, w1)
            ∧ translated_in_turn json_loads lower lines' translated' w1 w'
  | _, _ => False
  end.

(** What is written for the pairs of [zip(lines, translated)]. *)
Definition bilingual (lines translated : list str) : str :=
  concat (zip_with (λ orig trans, orig ++ NL ++ trans ++ NL ++ NL)
            lines translated).

Definition _translate_txt (json_loads : str → option json)
    (lower : str → str) (content : str) (test_mode : bool) (test_num : Z)
  : M str :=
  let lines := txt_lines content test_mode test_num in
  let* translated := translate_lines json_loads lower lines in
  ret (bilingual lines translated).

(** The texts submitted for translation among some calls, each with the
    paragraph count of its batch block when it has one. *)
Definition submitted (cs : list (request * result str))
  : list (str * option Z) :=
  omap (λ c, match c.1 with
             | TranslateReq _ _ text bi => Some (text, bi)
             | _ => None
             end) cs.
(** * Properties *)

(** ** Strings *)

Example split_ex1 :
  split (lit "|||") (lit "a|||b||||||c|") = [lit "a"; lit "b"; []; lit "c|"].
Proof. reflexivity. Qed.

Example split_ex2 : split NL [] = [[]].
Proof. reflexivity. Qed.

Example strip_ex : strip (10 :: 32 :: lit "a b" ++ [9; 10])%N = lit "a b".
Proof. reflexivity. Qed.

Example rsplit_ex :
  rsplit_once_head (lit "```") (lit "{}```x```") = lit "{}```x".
Proof. reflexivity. Qed.

Section split_char.
Variable c : N.

Lemma startswith_char (x : N) (s : str) :
  startswith [c] (x :: s) = N.eqb c x.
Proof. simpl. by destruct (N.eqb c x). Qed.

Lemma contains_char (s : str) : contains [c] s = true ↔ c ∈ s.
Proof.
  induction s as [|x s IH].
  - simpl. split; [done | by intros ?%elem_of_nil].
  - cbn [contains]. rewrite startswith_char, orb_true_iff, IH, elem_of_cons.
    by rewrite N.eqb_eq.
Qed.

Lemma contains_char_false (s : str) : contains [c] s = false ↔ c ∉ s.
Proof. rewrite <- contains_char. by destruct (contains [c] s). Qed.

Lemma split_char_nil : split [c] [] = [[]].
Proof. reflexivity. Qed.

Lemma split_char_sep (s : str) : split [c] (c :: s) = [] :: split [c] s.
Proof.
  unfold split. cbn [split_go]. rewrite startswith_char, N.eqb_refl.
  reflexivity.
Qed.

Lemma split_go_nonempty (sep : str) (k : nat) (s : str) :
  split_go sep k s ≠ [].
Proof.
  revert k. induction s as [|x s IH]; intros k; [done|].
  cbn [split_go]. destruct k as [|k]; [|apply IH].
  destruct (startswith sep (x :: s)); [done|].
  by destruct (split_go sep 0 s).
Qed.

Lemma split_char_other (x : N) (s : str) :
  x ≠ c →
  ∃ seg rest, split [c] s = seg :: rest
              ∧ split [c] (x :: s) = (x :: seg) :: rest.
Proof.
  intros Hx. unfold split. cbn [split_go]. rewrite startswith_char.
  destruct (N.eqb_spec c x) as [->|_]; [done|].
  destruct (split_go [c] 0 s) as [|seg rest] eqn:E.
  - by apply split_go_nonempty in E.
  - by exists seg, rest.
Qed.

(** A prefix free of the separator stays in the first segment. *)
Lemma split_char_app (a s : str) :
  c ∉ a →
  ∃ seg rest, split [c] s = seg :: rest
              ∧ split [c] (a ++ s) = (a ++ seg) :: rest.
Proof.
  induction a as [|x a IH]; intros Ha.
  - destruct (split [c] s) as [|seg rest] eqn:E.
    + by apply split_go_nonempty in E.
    + by exists seg, rest.
  - apply not_elem_of_cons in Ha as [Hx Ha].
    destruct (IH Ha) as (seg & rest & E1 & E2).
    destruct (split_char_other x (a ++ s)) as (seg' & rest' & E3 & E4);
      [done|].
    exists seg, rest. split; [done|].
    simpl. rewrite E4. rewrite E2 in E3. by simplify_eq.
Qed.

Lemma split_char_free (a : str) : c ∉ a → split [c] a = [a].
Proof.
  intros Ha. destruct (split_char_app a [] Ha) as (seg & rest & E1 & E2).
  rewrite split_char_nil in E1. simplify_eq.
  by rewrite !app_nil_r in E2.
Qed.

(** Splitting undoes joining, when no piece holds the separator. *)
Lemma split_join_char (l : list str) :
  l ≠ [] → Forall (λ x, c ∉ x) l → split [c] (join [c] l) = l.
Proof.
  induction l as [|a l IH]; [done|]. intros _ Hl.
  apply Forall_cons in Hl as [Ha Hl].
  destruct l as [|b l].
  - simpl. by apply split_char_free.
  - change (join [c] (a :: b :: l)) with (a ++ c :: join [c] (b :: l)).
    destruct (split_char_app a (c :: join [c] (b :: l)) Ha)
      as (seg & rest & E1 & E2).
    rewrite split_char_sep, IH in E1 by done. simplify_eq.
    by rewrite app_nil_r in E2.
Qed.

(** No segment holds the separator. *)
Lemma split_char_segments (s : str) : Forall (λ x, c ∉ x) (split [c] s).
Proof.
  induction s as [|x s IH].
  - rewrite split_char_nil. repeat constructor. by intros ?%elem_of_nil.
  - destruct (decide (x = c)) as [->|Hx].
    + rewrite split_char_sep. constructor; [by intros ?%elem_of_nil|done].
    + destruct (split_char_other x s Hx) as (seg & rest & E1 & E2).
      rewrite E2. rewrite E1 in IH. apply Forall_cons in IH as [??].
      constructor; [|done]. by apply not_elem_of_cons.
Qed.

(** Joining undoes splitting. *)
Lemma join_split_char (s : str) : join [c] (split [c] s) = s.
Proof.
  induction s as [|x s IH]; [done|].
  destruct (decide (x = c)) as [->|Hx].
  - rewrite split_char_sep.
    destruct (split [c] s) as [|seg rest] eqn:E;
      [by apply split_go_nonempty in E|].
    change (join [c] ([] :: seg :: rest)) with (c :: join [c] (seg :: rest)).
    by rewrite IH.
  - destruct (split_char_other x s Hx) as (seg & rest & E1 & E2).
    rewrite E2. rewrite E1 in IH. destruct rest as [|r rest].
    + simpl in *. by rewrite IH.
    + change (join [c] ((x :: seg) :: r :: rest))
        with (x :: join [c] (seg :: r :: rest)).
      by rewrite IH.
Qed.

(** One more segment than separators. *)
Lemma split_char_length (s : str) :
  length (split [c] s) = S (length (List.filter (N.eqb c) s)).
Proof.
  induction s as [|x s IH]; [done|].
  destruct (decide (x = c)) as [->|Hx].
  - rewrite split_char_sep. simpl. rewrite N.eqb_refl. simpl. by rewrite IH.
  - destruct (split_char_other x s Hx) as (seg & rest & E1 & E2).
    rewrite E2. rewrite E1 in IH. simpl.
    destruct (N.eqb_spec c x) as [->|_]; [done|]. exact IH.
Qed.

Lemma split_char_snoc (s : str) : split [c] (s ++ [c]) = split [c] s ++ [[]].
Proof.
  induction s as [|x s IH].
  - simpl. by rewrite split_char_sep.
  - destruct (decide (x = c)) as [->|Hx].
    + simpl. by rewrite !split_char_sep, IH.
    + destruct (split_char_other x s Hx) as (seg & rest & E1 & E2).
      destruct (split_char_other x (s ++ [c]) Hx) as (seg' & rest' & E3 & E4).
      simpl. rewrite E4, E2. rewrite IH, E1 in E3. simpl in E3. by simplify_eq.
Qed.

Lemma join_free (d : N) (sep : str) (l : list str) :
  d ∉ sep → Forall (λ x, d ∉ x) l → d ∉ join sep l.
Proof.
  intros Hsep. induction 1 as [|a l Ha Hl IH]; [by intros ?%elem_of_nil|].
  destruct l as [|b l]; [done|].
  change (join sep (a :: b :: l)) with (a ++ sep ++ join sep (b :: l)).
  rewrite !elem_of_app. tauto.
Qed.
End split_char.

(** [replace] of one character by another leaves none of the first. *)
Lemma replace_char_free (c d : N) (s : str) :
  c ≠ d → c ∉ replace [c] [d] s.
Proof.
  intros Hcd. apply join_free.
  - by intros ->%list_elem_of_singleton.
  - apply split_char_segments.
Qed.

Lemma slice_to_nonneg {A} (k : nat) (l : list A) :
  slice_to (Z.of_nat k) l = take k l.
Proof.
  unfold slice_to. destruct (Z.ltb_spec (Z.of_nat k) 0); [lia|].
  by rewrite Nat2Z.id.
Qed.

Lemma slice_from_nonneg {A} (k : nat) (l : list A) :
  slice_from (Z.of_nat k) l = drop k l.
Proof.
  unfold slice_from. destruct (Z.ltb_spec (Z.of_nat k) 0); [lia|].
  by rewrite Nat2Z.id.
Qed.

(** *** Stripping *)

Lemma lstrip_spaces (a s : str) :
  Forall (λ x, is_space x = true) a → lstrip (a ++ s) = lstrip s.
Proof. induction 1 as [|x a Hx _ IH]; [done|]. simpl. by rewrite Hx. Qed.

Lemma lstrip_app (x y : str) :
  lstrip (x ++ y) = match lstrip x with [] => lstrip y | _ => lstrip x ++ y end.
Proof.
  induction x as [|a x IH]; [done|]. simpl.
  destruct (is_space a); [exact IH|done].
Qed.

Lemma lstrip_all_space (b : str) :
  Forall (λ x, is_space x = true) b → lstrip b = [].
Proof. intros Hb. rewrite <- (app_nil_r b). by rewrite lstrip_spaces. Qed.

Lemma rstrip_spaces (s b : str) :
  Forall (λ x, is_space x = true) b → rstrip (s ++ b) = rstrip s.
Proof.
  intros Hb. unfold rstrip. rewrite reverse_app.
  rewrite lstrip_spaces; [done|]. by apply Forall_reverse.
Qed.

Lemma lstrip_suffix (s : str) : lstrip s `suffix_of` s.
Proof.
  induction s as [|a s IH]; [done|]. simpl.
  destruct (is_space a); [by apply suffix_cons_r|done].
Qed.

Lemma strip_subseteq (s : str) (x : N) : x ∈ strip s → x ∈ s.
Proof.
  unfold strip, rstrip. rewrite elem_of_reverse. intros Hx.
  assert (x ∈ reverse (lstrip s)) as H1
    by (eapply elem_of_suffix; [exact Hx | apply lstrip_suffix]).
  rewrite elem_of_reverse in H1.
  eapply elem_of_suffix; [exact H1 | apply lstrip_suffix].
Qed.

(** Whitespace around a text does not change what [strip] returns. *)
Lemma strip_padding (a core b : str) :
  Forall (λ x, is_space x = true) a → Forall (λ x, is_space x = true) b →
  strip (a ++ core ++ b) = strip core.
Proof.
  intros Ha Hb. unfold strip. rewrite lstrip_spaces by done.
  rewrite lstrip_app. destruct (lstrip core) as [|x l] eqn:E.
  - by rewrite lstrip_all_space.
  - by rewrite rstrip_spaces.
Qed.

(** ** Batch reassembly *)

Lemma batch_parts_free (translation : str) :
  Forall (λ p, 10%N ∉ p) (batch_parts translation).
Proof.
  unfold batch_parts. apply Forall_forall. intros p Hp.
  apply list_elem_of_fmap in Hp as (q & -> & _).
  by apply (replace_char_free 10 32).
Qed.

Lemma batch_parts_nonempty (translation : str) :
  Forall (λ p, p ≠ []) (batch_parts translation).
Proof.
  unfold batch_parts. apply Forall_forall. intros p Hp.
  apply list_elem_of_fmap in Hp as (q & -> & Hq).
  apply list_elem_of_In, filter_In in Hq as [_ Hq].
  unfold replace, NL. destruct (strip q) as [|c s] eqn:E; [done|].
  destruct (decide (c = 10%N)) as [->|Hc].
  - rewrite split_char_sep.
    destruct (split [10%N] s) as [|seg rest] eqn:E2;
      [by apply split_go_nonempty in E2|done].
  - destruct (split_char_other 10 c s Hc) as (seg & rest & _ & ->).
    by destruct rest.
Qed.

(** The segments of the reassembled text, in each of the three cases. *)
Lemma reassemble_segments (paragraphs : list str) (translation : str) :
  paragraphs ≠ [] → Forall (λ p, 10%N ∉ p) paragraphs →
  let n := length paragraphs in
  let parts := batch_parts translation in
  let m := length parts in
  let out := (reassemble paragraphs translation).1 in
  length (split NL out) = n
  ∧ (m = n → split NL out = parts)
  ∧ ((n < m)%nat →
     split NL out = take (n - 1) parts ++ [join SP (drop (n - 1) parts)])
  ∧ ((m < n)%nat → split NL out = parts ++ drop m paragraphs).
Proof.
  intros Hne Hfree n parts m out.
  assert (n ≠ 0%nat) as Hn by (subst n; by destruct paragraphs).
  pose proof (batch_parts_free translation) as Hparts. fold parts in Hparts.
  assert (out =
          if decide (m = n) then join NL parts
          else if decide (n < m)%nat then
                 join NL (take (n - 1) parts ++ [join SP (drop (n - 1) parts)])
               else join NL (parts ++ drop m paragraphs)) as Hout.
  { subst out. unfold reassemble, len. fold parts. fold m. fold n.
    destruct (Z.eqb_spec (Z.of_nat m) (Z.of_nat n)) as [E|E].
    { rewrite decide_True by lia. done. }
    rewrite decide_False by lia.
    destruct (Z.gtb_spec (Z.of_nat m) (Z.of_nat n)) as [G|G]; cbn [fst].
    - rewrite decide_True by lia.
      replace (Z.of_nat n - 1) with (Z.of_nat (n - 1)) by lia.
      by rewrite slice_to_nonneg, slice_from_nonneg.
    - rewrite decide_False by lia.
      rewrite slice_from_nonneg, slice_to_nonneg, take_ge; [done|].
      rewrite length_app, length_drop. lia. }
  assert (∀ l, l ≠ [] → Forall (λ p, 10%N ∉ p) l →
               split NL (join NL l) = l) as Hsj
    by (intros; unfold NL; by apply (split_join_char 10)).
  assert (Forall (λ p, 10%N ∉ p)
            (take (n - 1) parts ++ [join SP (drop (n - 1) parts)])) as Hmerged.
  { apply Forall_app. split; [by apply Forall_take|].
    apply Forall_singleton, join_free; [|by apply Forall_drop].
    by intros ?%list_elem_of_singleton. }
  assert (Forall (λ p, 10%N ∉ p) (parts ++ drop m paragraphs)) as Hpadded.
  { apply Forall_app. split; [done|by apply Forall_drop]. }
  rewrite Hout. repeat split.
  - repeat case_decide.
    + rewrite Hsj; [done| |done]. intros E. apply (f_equal length) in E.
      simpl in E. lia.
    + rewrite Hsj; [|by destruct (take _ _)|done].
      rewrite length_app, length_take. simpl. lia.
    + rewrite Hsj; [|intros E; apply (f_equal length) in E;
                      rewrite length_app, length_drop in E; simpl in E; lia
                    |done].
      rewrite length_app, length_drop. lia.
  - intros E. rewrite decide_True by done. apply Hsj; [|done].
    intros E2. apply (f_equal length) in E2. simpl in E2. lia.
  - intros L. rewrite decide_False, decide_True by lia.
    apply Hsj; [by destruct (take _ _)|done].
  - intros L. rewrite !decide_False by lia. apply Hsj; [|done].
    intros E. apply (f_equal length) in E.
    rewrite length_app, length_drop in E. simpl in E. lia.
Qed.

(** ** The monad and the call layer *)

Local Arguments dict_update : simpl never.
Local Arguments slice_to : simpl never.
Local Arguments slice_from : simpl never.
Local Arguments valid_terms : simpl never.
Local Arguments unfence : simpl never.
Local Arguments glossary_verdict : simpl never.
Local Arguments _format_glossary : simpl never.
Local Arguments reassemble : simpl never.
Local Arguments _is_quality_ok : simpl never.
Local Arguments split : simpl never.
Local Arguments join : simpl never.
Local Arguments strip : simpl never.
Local Arguments contains : simpl never.
Local Arguments calls : simpl never.
Local Arguments lit : simpl never.

Section Properties.

Variable json_loads : str → option json.
Variable lower : str → str.

Lemma calls_app (l1 l2 : list event) : calls (l1 ++ l2) = calls l1 ++ calls l2.
Proof. apply omap_app. Qed.

Lemma issued_app (p : pass) (a b : list (request * result str)) :
  issued p (a ++ b) = (issued p a + issued p b)%nat.
Proof. unfold issued. by rewrite List.filter_app, length_app. Qed.

Lemma issued_refresh (p : pass) (cs : list (request * result str)) :
  p ≠ ContextRefresh → p ≠ GlossaryRefresh → Forall is_refresh cs →
  issued p cs = 0%nat.
Proof.
  intros H1 H2. induction 1 as [|c cs Hc _ IH]; [done|].
  unfold issued in *. simpl.
  destruct Hc as [Hc|Hc]; rewrite Hc;
    (rewrite bool_decide_eq_false_2 by congruence); exact IH.
Qed.

Lemma untouched_refl (w : World) : untouched w w.
Proof. by repeat split. Qed.

Lemma untouched_trans (w1 w2 w3 : World) :
  untouched w1 w2 → untouched w2 w3 → untouched w1 w3.
Proof.
  intros (?&?&?&?) (?&?&?&?). repeat split; congruence.
Qed.

Lemma bind_inv {A B} (m : M A) (k : A → M B) (w : World) r w' :
  bind m k w = (r, w') →
  (∃ a w1, m w = (Ok a, w1) ∧ k a w1 = (r, w'))
  ∨ (∃ e, m w = (Raise e, w') ∧ r = Raise e).
Proof.
  unfold bind. destruct (m w) as [[a|e] w1]; intros H.
  - left. by exists a, w1.
  - right. exists e. by simplify_eq.
Qed.

Lemma with_meter_id (t : Translator) : with_meter (meter t) t = t.
Proof. by destruct t. Qed.

(** The bookkeeping raises exactly when [outcome] says so. *)
Lemma track_outcome (resp : Response) (m : Meter) :
  (track (usage resp) m).1
  = match outcome (Ok resp) with
    | Ok _ => Ok tt
    | Raise e => Raise e
    end.
Proof.
  unfold track, outcome.
  by destruct (summand (cache_read_input_tokens (usage resp))),
    (summand (cache_creation_input_tokens (usage resp))).
Qed.

Lemma outcome_text (resp : Response) s :
  outcome (Ok resp) = Ok s → s = text_of resp.
Proof.
  unfold outcome.
  destruct (summand (cache_read_input_tokens (usage resp))),
    (summand (cache_creation_input_tokens (usage resp)));
    intros; by simplify_eq.
Qed.

(** One iteration of the loop. *)
Lemma api_loop_unfold (retries todo : nat) (w : World) :
  api_loop lower retries (S todo) w =
  let attempt := (retries - S todo)%nat in
  let t := with_meter (settle (oracle w (next w)) (meter (self w))) (self w) in
  match outcome (oracle w (next w)) with
  | Ok s =>
      (Ok s, {| self := t; oracle := oracle w; next := S (next w);
                log := log w ++ [Create attempt] |})
  | Raise e =>
      if Z.of_nat attempt <? Z.of_nat retries - 1 then
        api_loop lower retries todo
          {| self := t; oracle := oracle w; next := S (next w);
             log := (log w ++ [Create attempt])
                    ++ [Sleep (backoff lower attempt e)] |}
      else
        (Raise e, {| self := t; oracle := oracle w; next := S (next w);
                     log := log w ++ [Create attempt] |})
  end.
Proof.
  cbn [api_loop]. unfold try_except, bind, create, account, emit, ret, raise.
  cbv zeta. destruct (oracle w (next w)) as [resp|e] eqn:Ho.
  - cbn [self oracle next log meter settle].
    rewrite (track_outcome resp).
    destruct (outcome (Ok resp)) as [s|e] eqn:Hs.
    + by rewrite (outcome_text _ _ Hs).
    + cbn. by destruct (_ <? _).
  - cbn [outcome settle]. rewrite with_meter_id. by destruct (_ <? _).
Qed.

Lemma api_loop_success retries todo (w : World) s :
  outcome (oracle w (next w)) = Ok s →
  api_loop lower retries (S todo) w =
  (Ok s,
   {| self := with_meter (settle (oracle w (next w)) (meter (self w))) (self w);
      oracle := oracle w; next := S (next w);
      log := log w ++ [Create (retries - S todo)] |}).
Proof. intros H. by rewrite api_loop_unfold, H. Qed.

Lemma api_loop_retry retries todo (w : World) e :
  outcome (oracle w (next w)) = Raise e →
  (retries - S todo < retries - 1)%nat →
  api_loop lower retries (S todo) w =
  api_loop lower retries todo
    {| self := with_meter (settle (oracle w (next w)) (meter (self w))) (self w);
       oracle := oracle w; next := S (next w);
       log := (log w ++ [Create (retries - S todo)])
              ++ [Sleep (backoff lower (retries - S todo) e)] |}.
Proof.
  intros H Hlt. rewrite api_loop_unfold, H. cbv zeta.
  destruct (Z.ltb_spec (Z.of_nat (retries - S todo)) (Z.of_nat retries - 1));
    [done|lia].
Qed.

Lemma api_loop_give_up retries todo (w : World) e :
  outcome (oracle w (next w)) = Raise e →
  ¬ (retries - S todo < retries - 1)%nat →
  api_loop lower retries (S todo) w =
  (Raise e,
   {| self := with_meter (settle (oracle w (next w)) (meter (self w))) (self w);
      oracle := oracle w; next := S (next w);
      log := log w ++ [Create (retries - S todo)] |}).
Proof.
  intros H Hlt. rewrite api_loop_unfold, H. cbv zeta.
  destruct (Z.ltb_spec (Z.of_nat (retries - S todo)) (Z.of_nat retries - 1));
    [lia|done].
Qed.

Lemma api_loop_spec (retries todo : nat) (w : World) r w' :
  api_loop lower retries todo w = (r, w') →
  untouched w w' ∧ calls (log w') = calls (log w).
Proof.
  revert w. induction todo as [|todo IH]; intros w H.
  - cbn in H. unfold raise in H. simplify_eq. split; [apply untouched_refl|done].
  - destruct (outcome (oracle w (next w))) as [s|e] eqn:Ho.
    + rewrite (api_loop_success _ _ _ _ Ho) in H. simplify_eq. cbn.
      split; [by repeat split|]. rewrite calls_app. simpl.
      by rewrite app_nil_r.
    + destruct (decide (retries - S todo < retries - 1)%nat) as [Hlt|Hlt].
      * rewrite (api_loop_retry _ _ _ _ Ho Hlt) in H.
        apply IH in H as [(?&?&?&?) C]. cbn in *. split; [by repeat split|].
        rewrite C, !calls_app. simpl. by rewrite !app_nil_r.
      * rewrite (api_loop_give_up _ _ _ _ Ho Hlt) in H. simplify_eq. cbn.
        split; [by repeat split|]. rewrite calls_app. simpl.
        by rewrite app_nil_r.
Qed.

Lemma api_call_spec req mt retries uc (w : World) r w' :
  _api_call lower req mt retries uc w = (r, w') →
  untouched w w' ∧ calls (log w') = calls (log w) ++ [(req, r)].
Proof.
  unfold _api_call, recorded. intros H.
  destruct (api_loop lower retries retries w) as [r1 w1] eqn:E.
  apply api_loop_spec in E as [U C]. simplify_eq. cbn.
  split; [exact U|]. rewrite calls_app, C. done.
Qed.

Lemma pass1_spec text bi (w : World) r w' :
  _pass1 lower text bi w = (r, w') →
  untouched w w'
  ∧ calls (log w') =
    calls (log w)
    ++ [(TranslateReq (_format_glossary (self w)) (context_summary (self w))
           text bi, r)].
Proof. apply api_call_spec. Qed.

Lemma pass2_spec original translation b (w : World) r w' :
  _pass2 lower original translation b w = (r, w') →
  untouched w w'
  ∧ calls (log w') =
    calls (log w)
    ++ [(ReviewReq (_format_glossary (self w)) original translation b, r)].
Proof. apply api_call_spec. Qed.

Lemma pass3_spec original translation review bi (w : World) r w' :
  _pass3 lower original translation review bi w = (r, w') →
  untouched w w'
  ∧ calls (log w') =
    calls (log w)
    ++ [(RefineReq (_format_glossary (self w)) original translation review bi,
         r)].
Proof. apply api_call_spec. Qed.

(** ** The two refreshes *)

Ltac frame :=
  repeat match goal with x := _ |- _ => subst x end;
  unfold untouched, settings, rolling, modes, bumped in *; simplify_eq;
  cbn in *; rewrite ?Z.add_0_r;
  intuition (simplify_eq; cbn in *; try congruence; try lia).

Lemma update_context_spec original translation (w : World) r w' :
  update_context lower original translation w = (r, w') →
  settings (self w') = settings (self w)
  ∧ modes (self w') = modes (self w)
  ∧ oracle w' = oracle w
  ∧ glossary (self w') = glossary (self w)
  ∧ glossary_extract_failures (counters (self w'))
    = glossary_extract_failures (counters (self w))
  ∧ ((calls (log w') = calls (log w)
      ∧ context_summary (self w') = context_summary (self w)
      ∧ (r = Ok tt
         ∨ r = Raise ZeroDivisionError
           ∧ context_update_interval (profile (self w)) = 0))
     ∨ (∃ req out,
          pass_of req = ContextRefresh
          ∧ calls (log w') = calls (log w) ++ [(req, out)]
          ∧ r = Ok tt
          ∧ context_summary (self w') =
            match out with
            | Ok s => s
            | Raise _ => context_summary (self w)
            end)).
Proof.
  unfold update_context, bind, get_self. cbn.
  destruct (context_flag (self w)); [|unfold ret; intros; simplify_eq; frame].
  unfold py_mod.
  destruct (Z.eqb_spec (context_update_interval (profile (self w))) 0)
    as [Hz|Hz].
  { unfold raise. intros; simplify_eq. frame. }
  unfold ret. cbn. destruct (_ =? 0); [|intros; simplify_eq; frame].
  unfold try_except, bind.
  set (req := if truthy _ then _ else _).
  assert (pass_of req = ContextRefresh) as Hreq
    by (subst req; by destruct (truthy _)).
  destruct (_api_call lower req 512 RETRIES false w) as [[s|e] w1] eqn:E;
    apply api_call_spec in E as [U C].
  - unfold update. intros; simplify_eq. cbn.
    repeat (split; [frame|]). right. exists req, (Ok s). frame.
  - unfold emit. intros; simplify_eq. cbn.
    repeat (split; [frame|]). right. exists req, (Raise e).
    rewrite calls_app, C. simpl. rewrite app_nil_r. frame.
Qed.

Lemma dict_update_nil (g : gmap str str) : dict_update g [] = g.
Proof. reflexivity. Qed.

Lemma glossary_except_spec e (w : World) r w' :
  glossary_except e w = (r, w') →
  r = Ok tt
  ∧ settings (self w') = settings (self w)
  ∧ modes (self w') = modes (self w)
  ∧ oracle w' = oracle w
  ∧ context_summary (self w') = context_summary (self w)
  ∧ glossary (self w') = glossary (self w)
  ∧ glossary_extract_failures (counters (self w'))
    = glossary_extract_failures (counters (self w)) + 1
  ∧ calls (log w') = calls (log w).
Proof.
  unfold glossary_except, count_glossary_failure, bind, update, get_self, ret.
  cbn. intros H.
  repeat match type of H with
         | context [if ?b then _ else _] => destruct b
         end;
    unfold emit in H; simplify_eq; cbn;
    rewrite ?calls_app, ?app_nil_r; frame.
Qed.

Lemma update_glossary_spec original translation (w : World) r w' :
  update_glossary json_loads lower original translation w = (r, w') →
  settings (self w') = settings (self w)
  ∧ modes (self w') = modes (self w)
  ∧ oracle w' = oracle w
  ∧ context_summary (self w') = context_summary (self w)
  ∧ ((calls (log w') = calls (log w)
      ∧ glossary (self w') = glossary (self w)
      ∧ glossary_extract_failures (counters (self w'))
        = glossary_extract_failures (counters (self w))
      ∧ (r = Ok tt
         ∨ r = Raise ZeroDivisionError
           ∧ glossary_update_interval (profile (self w)) = 0))
     ∨ (∃ out,
          calls (log w') =
            calls (log w)
            ++ [(GlossaryReq (slice_to 2000 original)
                   (slice_to 2000 translation), out)]
          ∧ r = Ok tt
          ∧ glossary (self w') =
            dict_update (glossary (self w))
              (default [] (glossary_verdict json_loads out))
          ∧ glossary_extract_failures (counters (self w')) =
            glossary_extract_failures (counters (self w))
            + (match glossary_verdict json_loads out with
               | Some _ => 0
               | None => 1
               end))).
Proof.
  unfold update_glossary, bind, get_self. cbn. unfold py_mod.
  destruct (Z.eqb_spec (glossary_update_interval (profile (self w))) 0)
    as [Hz|Hz].
  { unfold raise. intros; simplify_eq. frame. }
  unfold ret. cbn. destruct (_ =? 0); [|intros; simplify_eq; frame].
  unfold try_except, bind.
  destruct (_api_call lower _ 1024 RETRIES false w) as [[resp|e] w1] eqn:E;
    apply api_call_spec in E as [U C].
  - intros H. repeat (split; [|]).
    5: right; exists (Ok resp); unfold glossary_verdict.
    all: unfold raise, ret in H; cbn in H.
    all: destruct (unfence resp) as [doc|] eqn:Hd; cbn in H.
    all: try destruct (json_loads doc) as [[| | | | |items]|] eqn:Hj; cbn in H.
    all: try destruct (valid_terms items) as [|kv valid] eqn:Hv; cbn in H.
    all: try (apply glossary_except_spec in H).
    all: unfold update in H; cbn; rewrite ?Z.add_0_r, ?dict_update_nil; frame.
  - intros H. apply glossary_except_spec in H.
    repeat (split; [frame|]). right. exists (Raise e).
    unfold glossary_verdict. cbn. rewrite dict_update_nil. frame.
Qed.

Lemma maybe_update_spec original translation (w : World) r w' :
  _maybe_update_context_glossary json_loads lower original translation w
  = (r, w') →
  settings (self w') = settings (self w)
  ∧ modes (self w') = modes (self w)
  ∧ oracle w' = oracle w
  ∧ ∃ cs, calls (log w') = calls (log w) ++ cs ∧ Forall is_refresh cs.
Proof.
  unfold _maybe_update_context_glossary. intros H.
  apply bind_inv in H as [([] & w1 & H1 & H2)|(e & H1 & ->)].
  - apply update_context_spec in H1 as (S1 & M1 & O1 & _ & _ & C1).
    apply update_glossary_spec in H2 as (S2 & M2 & O2 & _ & C2).
    repeat (split; [congruence|]).
    assert (∃ c1, calls (log w1) = calls (log w) ++ c1 ∧ Forall is_refresh c1)
      as (c1 & E1 & F1).
    { destruct C1 as [(E & _)|(req & out & Hp & E & _)].
      - exists []. by rewrite app_nil_r.
      - exists [(req, out)]. split; [done|]. apply Forall_singleton. by left. }
    assert (∃ c2, calls (log w') = calls (log w1) ++ c2 ∧ Forall is_refresh c2)
      as (c2 & E2 & F2).
    { destruct C2 as [(E & _)|(out & E & _)].
      - exists []. by rewrite app_nil_r.
      - eexists. split; [done|]. apply Forall_singleton. by right. }
    exists (c1 ++ c2). split; [|by apply Forall_app].
    by rewrite E2, E1, app_assoc.
  - apply update_context_spec in H1 as (S1 & M1 & O1 & _ & _ & C1).
    repeat (split; [congruence|]).
    destruct C1 as [(E & _)|(req & out & Hp & E & ? & _)]; [|done].
    exists []. by rewrite app_nil_r.
Qed.

(** ** The three modes *)

Lemma translate_3pass_spec text (w : World) r w' :
  _translate_3pass json_loads lower text w = (r, w') →
  ∃ w1 g1 g2 g3 c1 out1,
    settings (self w1) = settings (self w)
    ∧ rolling (self w1) = rolling (self w)
    ∧ oracle w1 = oracle w
    ∧ modes (self w') = modes (self w1)
    ∧ ((calls (log w1) = calls (log w) ++ [(TranslateReq g1 c1 text None, out1)]
        ∧ modes (self w1) = bumped 0 1 0 0 (self w)
        ∧ r = out1 ∧ is_ok out1 = false ∧ w' = w1)
       ∨ ∃ tr out2,
           out1 = Ok tr
           ∧ ((calls (log w1) =
               calls (log w)
               ++ [(TranslateReq g1 c1 text None, out1);
                   (ReviewReq g2 text tr false, out2)]
               ∧ ((modes (self w1) = bumped 0 1 0 0 (self w)
                   ∧ r = out2 ∧ is_ok out2 = false ∧ w' = w1)
                  ∨ ∃ rv, out2 = Ok rv ∧ _is_quality_ok rv = true
                          ∧ modes (self w1) = bumped 0 1 1 0 (self w)
                          ∧ ends_with_refresh json_loads lower text tr w1 r w'))
              ∨ ∃ rv out3,
                  out2 = Ok rv ∧ _is_quality_ok rv = false
                  ∧ calls (log w1) =
                    calls (log w)
                    ++ [(TranslateReq g1 c1 text None, out1);
                        (ReviewReq g2 text tr false, out2);
                        (RefineReq g3 text tr rv None, out3)]
                  ∧ modes (self w1) = bumped 0 1 0 1 (self w)
                  ∧ ((r = out3 ∧ is_ok out3 = false ∧ w' = w1)
                     ∨ ∃ refined,
                         out3 = Ok refined
                         ∧ ends_with_refresh json_loads lower text refined
                             w1 r w'))).
Proof.
  unfold _translate_3pass. intros H.
  apply bind_inv in H as [([] & w0 & H0 & H)|(e & H0 & _)];
    [|by unfold update in H0].
  unfold update in H0. simplify_eq.
  set (w0 := {| self := _ |}) in *.
  destruct (_pass1 lower text None w0) as [out1 w1] eqn:E1.
  pose proof (pass1_spec _ _ _ _ _ E1) as [U1 C1].
  change (log w0) with (log w) in C1.
  unfold bind at 1 in H. rewrite E1 in H. destruct out1 as [tr|e].
  2:{ simplify_eq. eexists w', _, [], [], _, (Raise e).
      repeat (split; [frame|]). left. split; [exact C1|]. frame. }
  destruct (_pass2 lower text tr false w1) as [out2 w2] eqn:E2.
  pose proof (pass2_spec _ _ _ _ _ _ E2) as [U2 C2].
  rewrite C1, <- app_assoc in C2. simpl in C2.
  unfold bind at 1 in H. rewrite E2 in H. destruct out2 as [rv|e].
  2:{ simplify_eq. eexists w', _, _, [], _, (Ok tr).
      repeat (split; [frame|]). right. exists tr, (Raise e).
      split; [done|]. left. split; [exact C2|]. left. frame. }
  destruct (_is_quality_ok rv) eqn:Hq.
  - apply bind_inv in H as [([] & w3 & H3 & H)|(e & H3 & _)];
      [|by unfold update in H3].
    unfold update in H3. simplify_eq.
    set (w3 := {| self := with_counters (incr_reviews_ok _) _ |}) in *.
    destruct (_maybe_update_context_glossary json_loads lower text tr w3)
      as [r0 w4] eqn:E4.
    pose proof (maybe_update_spec _ _ _ _ _ E4) as (S4 & M4 & O4 & _).
    assert (w4 = w' ∧ r = match r0 with Ok _ => Ok tr | Raise e => Raise e end)
      as [-> ->].
    { unfold bind in H. rewrite E4 in H. destruct r0; unfold ret in H; frame. }
    eexists w3, _, _, [], _, (Ok tr).
    repeat (split; [frame|]).
    right. exists tr, (Ok rv). split; [done|]. left.
    split; [exact C2|].
    right. exists rv. repeat (split; [frame|]).
    by exists r0.
  - apply bind_inv in H as [([] & w3 & H3 & H)|(e & H3 & _)];
      [|by unfold update in H3].
    unfold update in H3. simplify_eq.
    set (w3 := {| self := with_counters (incr_reviews_fixed _) _ |}) in *.
    destruct (_pass3 lower text tr rv None w3) as [out3 w4] eqn:E3.
    pose proof (pass3_spec _ _ _ _ _ _ _ E3) as [U3 C3].
    change (log w3) with (log w2) in C3.
    rewrite C2, <- app_assoc in C3. simpl in C3.
    unfold bind at 1 in H. rewrite E3 in H. destruct out3 as [refined|e].
    2:{ simplify_eq. eexists w', _, _, _, _, (Ok tr).
        repeat (split; [frame|]). right. exists tr, (Ok rv).
        split; [done|]. right. exists rv, (Raise e).
        repeat (split; [first [done | exact C3 | frame]|]).
        by left. }
    destruct (_maybe_update_context_glossary json_loads lower text refined w4)
      as [r0 w5] eqn:E5.
    pose proof (maybe_update_spec _ _ _ _ _ E5) as (S5 & M5 & O5 & _).
    assert (w5 = w'
            ∧ r = match r0 with Ok _ => Ok refined | Raise e => Raise e end)
      as [-> ->].
    { unfold bind in H. rewrite E5 in H. destruct r0; unfold ret in H; frame. }
    eexists w4, _, _, _, _, (Ok tr).
    repeat (split; [frame|]). right. exists tr, (Ok rv).
    split; [done|]. right. exists rv, (Ok refined).
    repeat (split; [first [done | exact C3 | frame]|]).
    right. exists refined. split; [done|]. by exists r0.
Qed.

Lemma ends_with_refresh_intro text out (w1 : World) r0 w2 r w' :
  _maybe_update_context_glossary json_loads lower text out w1 = (r0, w2) →
  (let* _ := _maybe_update_context_glossary json_loads lower text out in
   ret out) w1 = (r, w') →
  modes (self w') = modes (self w1)
  ∧ ends_with_refresh json_loads lower text out w1 r w'.
Proof.
  intros E H. pose proof (maybe_update_spec _ _ _ _ _ E) as (_ & Hm & _).
  unfold bind in H. rewrite E in H.
  assert (w2 = w' ∧ r = match r0 with Ok _ => Ok out | Raise e => Raise e end)
    as [-> ->] by (destruct r0; unfold ret in H; by simplify_eq).
  split; [done|]. by exists r0.
Qed.

Lemma translate_pass1_only_spec text (w : World) r w' :
  _translate_pass1_only json_loads lower text w = (r, w') →
  ∃ w1 g1 c1 out1,
    settings (self w1) = settings (self w)
    ∧ rolling (self w1) = rolling (self w)
    ∧ oracle w1 = oracle w
    ∧ modes (self w') = modes (self w1)
    ∧ modes (self w1) = bumped 1 0 0 0 (self w)
    ∧ calls (log w1) = calls (log w) ++ [(TranslateReq g1 c1 text None, out1)]
    ∧ ((r = out1 ∧ is_ok out1 = false ∧ w' = w1)
       ∨ ∃ tr, out1 = Ok tr
               ∧ ends_with_refresh json_loads lower text tr w1 r w').
Proof.
  unfold _translate_pass1_only. intros H.
  apply bind_inv in H as [([] & w0 & H0 & H)|(e & H0 & _)];
    [|by unfold update in H0].
  unfold update in H0. simplify_eq.
  set (w0 := {| self := _ |}) in *.
  destruct (_pass1 lower text None w0) as [out1 w1] eqn:E1.
  pose proof (pass1_spec _ _ _ _ _ E1) as [U1 C1].
  change (log w0) with (log w) in C1.
  unfold bind at 1 in H. rewrite E1 in H. destruct out1 as [tr|e].
  2:{ simplify_eq. eexists w', _, _, (Raise e).
      repeat (split; [first [exact C1 | frame]|]). by left. }
  destruct (_maybe_update_context_glossary json_loads lower text tr w1)
    as [r0 w2] eqn:E2.
  destruct (ends_with_refresh_intro _ _ _ _ _ _ _ E2 H) as [Hm He].
  eexists w1, _, _, (Ok tr).
  repeat (split; [first [exact C1 | frame]|]). right. by exists tr.
Qed.

Lemma batch_tail_spec paragraphs text translation (w : World) r w' :
  (let (result, notice) := reassemble paragraphs translation in
   let* _ := match notice with
             | Some wn => emit (Warn wn)
             | None => ret tt
             end in
   let* _ := _maybe_update_context_glossary json_loads lower text result in
   ret result) w = (r, w') →
  ∃ w1, self w1 = self w ∧ oracle w1 = oracle w
        ∧ calls (log w1) = calls (log w)
        ∧ modes (self w') = modes (self w1)
        ∧ ends_with_refresh json_loads lower text
            (reassemble paragraphs translation).1 w1 r w'.
Proof.
  destruct (reassemble paragraphs translation) as [result notice]. cbn [fst].
  intros H.
  apply bind_inv in H as [([] & w1 & H1 & H)|(e & H1 & _)];
    [|by destruct notice].
  assert (self w1 = self w ∧ oracle w1 = oracle w
          ∧ calls (log w1) = calls (log w)) as (Hs & Ho & Hc).
  { destruct notice; unfold emit, ret in H1; simplify_eq; cbn; [|done].
    rewrite calls_app. cbn. by rewrite app_nil_r. }
  destruct (_maybe_update_context_glossary json_loads lower text result w1)
    as [r0 w2] eqn:E2.
  destruct (ends_with_refresh_intro _ _ _ _ _ _ _ E2 H) as [Hm He].
  by exists w1.
Qed.

Lemma translate_batch_spec text (w : World) r w' :
  _translate_batch json_loads lower text w = (r, w') →
  let paragraphs := split NL text in
  let delimited := join (NL ++ PARA_DELIMITER ++ NL) paragraphs in
  let bi := Some (len paragraphs) in
  let gate := negb (skip_review (self w))
              && (len text >=? min_review_chars (profile (self w))) in
  ∃ w1 g1 g2 g3 c1 out1,
    settings (self w1) = settings (self w)
    ∧ rolling (self w1) = rolling (self w)
    ∧ oracle w1 = oracle w
    ∧ modes (self w') = modes (self w1)
    ∧ ((calls (log w1) =
        calls (log w) ++ [(TranslateReq g1 c1 delimited bi, out1)]
        ∧ modes (self w1) = bumped 0 1 0 0 (self w)
        ∧ ((r = out1 ∧ is_ok out1 = false ∧ w' = w1)
           ∨ ∃ tr, out1 = Ok tr ∧ gate = false
                   ∧ ends_with_refresh json_loads lower text
                       (reassemble paragraphs tr).1 w1 r w'))
       ∨ ∃ tr out2,
           out1 = Ok tr ∧ gate = true
           ∧ ((calls (log w1) =
               calls (log w)
               ++ [(TranslateReq g1 c1 delimited bi, out1);
                   (ReviewReq g2 delimited tr true, out2)]
               ∧ ((modes (self w1) = bumped 0 1 0 0 (self w)
                   ∧ r = out2 ∧ is_ok out2 = false ∧ w' = w1)
                  ∨ ∃ rv, out2 = Ok rv ∧ _is_quality_ok rv = true
                          ∧ modes (self w1) = bumped 0 1 1 0 (self w)
                          ∧ ends_with_refresh json_loads lower text
                              (reassemble paragraphs tr).1 w1 r w'))
              ∨ ∃ rv out3,
                  out2 = Ok rv ∧ _is_quality_ok rv = false
                  ∧ calls (log w1) =
                    calls (log w)
                    ++ [(TranslateReq g1 c1 delimited bi, out1);
                        (ReviewReq g2 delimited tr true, out2);
                        (RefineReq g3 delimited tr rv bi, out3)]
                  ∧ modes (self w1) = bumped 0 1 0 1 (self w)
                  ∧ ((r = out3 ∧ is_ok out3 = false ∧ w' = w1)
                     ∨ ∃ refined,
                         out3 = Ok refined
                         ∧ ends_with_refresh json_loads lower text
                             (reassemble paragraphs refined).1 w1 r w'))).
Proof.
  intros H paragraphs delimited bi gate.
  unfold _translate_batch in H. cbv zeta in H.
  fold paragraphs in H. fold delimited in H. fold bi in H.
  clearbody delimited bi. clearbody paragraphs.
  apply bind_inv in H as [([] & w0 & H0 & H)|(e & H0 & _)];
    [|by unfold update in H0].
  unfold update in H0. simplify_eq.
  set (w0 := {| self := _ |}) in *.
  destruct (_pass1 lower delimited bi w0) as [out1 w1] eqn:E1.
  pose proof (pass1_spec _ _ _ _ _ E1) as [U1 C1].
  change (log w0) with (log w) in C1.
  unfold bind at 1 in H. rewrite E1 in H. destruct out1 as [tr|e].
  2:{ simplify_eq. eexists w', _, [], [], _, (Raise e).
      repeat (split; [frame|]). left. split; [exact C1|].
      split; [frame|]. by left. }
  unfold bind at 1, get_self at 1 in H. cbn [self] in H.
  assert (negb (skip_review (self w1))
          && (len text >=? min_review_chars (profile (self w1))) = gate)
    as Hg by (subst gate; frame).
  clearbody gate. rewrite Hg in H. destruct gate eqn:Hgate.
  2:{ unfold bind at 1, ret at 1 in H.
      apply batch_tail_spec in H as (w2 & Hs & Ho & Hc & Hm & He).
      rewrite Hs in Hm.
      eexists w2, _, [], [], _, (Ok tr).
      repeat (split; [rewrite ?Hs; frame|]). left.
      split; [by rewrite Hc|]. split; [rewrite Hs; frame|].
      right. by exists tr. }
  apply bind_inv in H as [(tr2 & w3 & H3 & H)|(e & H3 & ->)].
  - destruct (_pass2 lower delimited tr true w1) as [out2 w2] eqn:E2.
    pose proof (pass2_spec _ _ _ _ _ _ E2) as [U2 C2].
    rewrite C1, <- app_assoc in C2. simpl in C2.
    unfold bind at 1 in H3. rewrite E2 in H3.
    destruct out2 as [rv|e]; [|done].
    destruct (_is_quality_ok rv) eqn:Hq.
    + unfold bind, update, ret in H3. injection H3 as <- <-.
      apply batch_tail_spec in H as (w4 & Hs & Ho & Hc & Hm & He).
      cbn in Hs, Ho, Hc. rewrite Hs in Hm.
      eexists w4, _, _, [], _, (Ok tr).
      repeat (split; [rewrite ?Hs; frame|]). right. exists tr, (Ok rv).
      do 2 (split; [done|]). left. split; [by rewrite Hc|].
      right. exists rv. repeat (split; [rewrite ?Hs; frame|]). done.
    + apply bind_inv in H3 as [([] & w4 & H4 & H3)|(e & H4 & _)];
        [|by unfold update in H4].
      unfold update in H4. simplify_eq.
      set (w4 := {| self := with_counters (incr_reviews_fixed _) _ |}) in *.
      pose proof (pass3_spec _ _ _ _ _ _ _ H3) as [U3 C3].
      change (log w4) with (log w2) in C3.
      rewrite C2, <- app_assoc in C3. simpl in C3.
      apply batch_tail_spec in H as (w5 & Hs & Ho & Hc & Hm & He).
      rewrite Hs in Hm.
      eexists w5, _, _, _, _, (Ok tr).
      repeat (split; [rewrite ?Hs; frame|]). right. exists tr, (Ok rv).
      do 2 (split; [done|]). right. exists rv, (Ok tr2).
      do 2 (split; [done|]). split; [rewrite Hc; exact C3|].
      split; [rewrite Hs; frame|]. right. by exists tr2.
  - destruct (_pass2 lower delimited tr true w1) as [out2 w2] eqn:E2.
    pose proof (pass2_spec _ _ _ _ _ _ E2) as [U2 C2].
    rewrite C1, <- app_assoc in C2. simpl in C2.
    unfold bind at 1 in H3. rewrite E2 in H3.
    destruct out2 as [rv|e2].
    2:{ simplify_eq. eexists w', _, _, [], _, (Ok tr).
        repeat (split; [frame|]). right. exists tr, (Raise e).
        do 2 (split; [done|]). left. split; [exact C2|]. left. frame. }
    destruct (_is_quality_ok rv) eqn:Hq;
      [by unfold bind, update, ret in H3|].
    apply bind_inv in H3 as [([] & w4 & H4 & H3)|(e4 & H4 & _)];
      [|by unfold update in H4].
    unfold update in H4. simplify_eq.
    set (w4 := {| self := with_counters (incr_reviews_fixed _) _ |}) in *.
    pose proof (pass3_spec _ _ _ _ _ _ _ H3) as [U3 C3].
    change (log w4) with (log w2) in C3.
    rewrite C2, <- app_assoc in C3. simpl in C3.
    eexists w', _, _, _, _, (Ok tr).
    repeat (split; [frame|]). right. exists tr, (Ok rv).
    do 2 (split; [done|]). right. exists rv, (Raise e).
    do 2 (split; [done|]). split; [exact C3|]. split; [frame|]. by left.
Qed.

(** ** Dispatch *)

Lemma translate_dispatch text (w : World) :
  translate json_loads lower text w =
  if contains NL (strip text) then
    _translate_batch json_loads lower text (entered w)
  else if (len text <? min_review_chars (profile (self w)))
          || skip_review (self w)
       then _translate_pass1_only json_loads lower text (entered w)
       else _translate_3pass json_loads lower text (entered w).
Proof.
  unfold translate, bind, update, get_self.
  destruct (contains NL (strip text)); [reflexivity|].
  cbn [self profile skip_review with_counters].
  destruct (_ || _); reflexivity.
Qed.

Lemma ends_with_refresh_ok text x (w1 : World) out w' :
  ends_with_refresh json_loads lower text x w1 (Ok out) w' → out = x.
Proof. intros (r0 & _ & E). destruct r0; by simplify_eq. Qed.

Lemma ends_with_refresh_calls text x (w1 : World) r w' :
  ends_with_refresh json_loads lower text x w1 r w' →
  ∃ cs, calls (log w') = calls (log w1) ++ cs ∧ Forall is_refresh cs.
Proof.
  intros (r0 & E & _). by apply maybe_update_spec in E as (_ & _ & _ & ?).
Qed.

Lemma refresh_gives_no_translation (cs : list (request * result str)) :
  Forall is_refresh cs → List.filter gives_translation cs = [].
Proof.
  induction 1 as [|[req out] cs Hc _ IH]; [done|]. cbn [List.filter].
  unfold gives_translation at 1. cbn [fst].
  by destruct Hc as [Hc|Hc]; cbn in Hc; rewrite Hc.
Qed.

(** What the batch path returns is reassembled from the last translation
    the model gave for the unit. *)
Lemma translate_batch_returns text (w : World) out w' :
  _translate_batch json_loads lower text w = (Ok out, w') →
  ∃ cs req translation,
    calls (log w') = calls (log w) ++ cs
    ∧ last (List.filter gives_translation cs) = Some (req, Ok translation)
    ∧ out = (reassemble (split NL text) translation).1.
Proof.
  intros H. apply translate_batch_spec in H. cbv zeta in H.
  destruct H as (w1 & g1 & g2 & g3 & c1 & out1 & _ & _ & _ & _ & H).
  assert (∀ pcs req x,
            calls (log w1) = calls (log w) ++ pcs →
            last (List.filter gives_translation pcs) = Some (req, Ok x) →
            ends_with_refresh json_loads lower text
              (reassemble (split NL text) x).1 w1 (Ok out) w' →
            ∃ cs req translation,
              calls (log w') = calls (log w) ++ cs
              ∧ last (List.filter gives_translation cs)
                = Some (req, Ok translation)
              ∧ out = (reassemble (split NL text) translation).1) as Hend.
  { intros pcs req x C Hl He.
    pose proof (ends_with_refresh_ok _ _ _ _ _ He) as ->.
    apply ends_with_refresh_calls in He as (rs & Crs & Hrs).
    exists (pcs ++ rs), req, x. rewrite Crs, C, <- app_assoc.
    split; [done|]. split; [|done].
    by rewrite List.filter_app, (refresh_gives_no_translation rs Hrs),
      app_nil_r. }
  destruct H as [(C & _ & [(<- & ? & _)|(tr & -> & _ & He)])
                |(tr & out2 & -> & _ &
                  [(C & [(_ & <- & ? & _)|(rv & -> & _ & _ & He)])
                  |(rv & out3 & -> & _ & C & _ &
                    [(<- & ? & _)|(refined & -> & He)])])];
    try done; (eapply Hend; [exact C| |exact He]); reflexivity.
Qed.

(** C1. Whatever the model returned, the text that the batch path returns
    is reassembled from the last translation the model gave for the unit
    (the answer to the refine call when there was one, to the translate
    call otherwise), and it splits on the newline into exactly as many
    segments as the submitted unit: the non-empty delimiter-split pieces of
    that translation one-to-one when their number [m] equals [n]; the first
    [n-1] pieces and one segment holding all the others when [m > n]; the
    pieces followed by the original paragraphs from position [m] on when
    [m < n]. *)
Theorem batch_reassembly_count text (w : World) out w' :
  _translate_batch json_loads lower text w = (Ok out, w') →
  let paragraphs := split NL text in
  let n := length paragraphs in
  ∃ cs req translation,
    calls (log w') = calls (log w) ++ cs
    ∧ last (List.filter gives_translation cs) = Some (req, Ok translation)
    ∧ let parts := batch_parts translation in
      let m := length parts in
      out = (reassemble paragraphs translation).1
      ∧ length (split NL out) = n
      ∧ (m = n → split NL out = parts)
      ∧ ((n < m)%nat →
         split NL out = take (n - 1) parts ++ [join SP (drop (n - 1) parts)])
      ∧ ((m < n)%nat → split NL out = parts ++ drop m paragraphs).
Proof.
  intros H paragraphs n.
  apply translate_batch_returns in H as (cs & req & translation & C & Hl & ->).
  exists cs, req, translation. split; [done|]. split; [done|].
  split; [done|].
  apply reassemble_segments.
  - apply split_go_nonempty.
  - apply (split_char_segments 10).
Qed.

Lemma issued_one (p : pass) req out :
  issued p [(req, out)] = if decide (pass_of req = p) then 1%nat else 0%nat.
Proof.
  unfold issued. simpl. case_decide.
  - by rewrite bool_decide_eq_true_2.
  - by rewrite bool_decide_eq_false_2.
Qed.

Lemma issued_cons (p : pass) c cs :
  issued p (c :: cs) = (issued p [c] + issued p cs)%nat.
Proof. apply (issued_app p [c] cs). Qed.

(** The calls of a refresh count for none of the three passes. *)
Ltac count_calls :=
  rewrite ?issued_app;
  repeat match goal with
         | H : Forall is_refresh ?cs |- context [issued ?p ?cs] =>
             rewrite (issued_refresh p cs) by done
         end;
  reflexivity.

(** C3, as amended. A unit shorter than the threshold costs exactly one
    translate call and no review or refine call. If it is not a batch it runs
    in Pass-1-only mode and the Pass-1-only counter goes up by one; if it is
    a batch it runs in batch mode and the full-3-pass counter goes up
    instead. *)
Theorem short_unit_dispatch text (w : World) r w' :
  len text < min_review_chars (profile (self w)) →
  translate json_loads lower text w = (r, w') →
  ∃ cs,
    calls (log w') = calls (log w) ++ cs
    ∧ issued Translate cs = 1%nat
    ∧ issued Review cs = 0%nat
    ∧ issued Refine cs = 0%nat
    ∧ (contains NL (strip text) = false →
       pass1_only_count (counters (self w'))
       = pass1_only_count (counters (self w)) + 1
       ∧ full_3pass_count (counters (self w'))
         = full_3pass_count (counters (self w)))
    ∧ (contains NL (strip text) = true →
       full_3pass_count (counters (self w'))
       = full_3pass_count (counters (self w)) + 1
       ∧ pass1_only_count (counters (self w'))
         = pass1_only_count (counters (self w))).
Proof.
  intros Hlen H. rewrite translate_dispatch in H.
  destruct (contains NL (strip text)) eqn:Hb.
  - apply translate_batch_spec in H. cbv zeta in H.
    destruct H as (w1 & g1 & g2 & g3 & c1 & out1 & _ & _ & _ & Hm & H).
    assert (negb (skip_review (self (entered w)))
            && (len text >=? min_review_chars (profile (self (entered w))))
            = false) as Hgate.
    { cbn. apply andb_false_iff. right.
      destruct (Z.geb_spec (len text) (min_review_chars (profile (self w))));
        [lia|done]. }
    rewrite Hgate in H.
    destruct H as [(C & M1 & H)|(tr & out2 & _ & ? & _)]; [|done].
    change (log (entered w)) with (log w) in C.
    assert (∃ rs, calls (log w') = calls (log w1) ++ rs ∧ Forall is_refresh rs)
      as (rs & Crs & Frs).
    { destruct H as [(_ & _ & ->)|(tr & _ & _ & He)].
      - exists []. by rewrite app_nil_r.
      - by apply ends_with_refresh_calls in He. }
    eexists. split; [by rewrite Crs, C, <- app_assoc|].
    repeat (split; [count_calls|]). split; [done|]. intros _. frame.
  - assert ((len text <? min_review_chars (profile (self w)))
            || skip_review (self w) = true) as Hs.
    { apply orb_true_iff. left. by apply Z.ltb_lt. }
    rewrite Hs in H. apply translate_pass1_only_spec in H.
    destruct H as (w1 & g1 & c1 & out1 & _ & _ & _ & Hm & M1 & C & H).
    change (log (entered w)) with (log w) in C.
    assert (∃ rs, calls (log w') = calls (log w1) ++ rs ∧ Forall is_refresh rs)
      as (rs & Crs & Frs).
    { destruct H as [(_ & _ & ->)|(tr & _ & He)].
      - exists []. by rewrite app_nil_r.
      - by apply ends_with_refresh_calls in He. }
    eexists. split; [by rewrite Crs, C, <- app_assoc|].
    repeat (split; [count_calls|]). split; [|done]. intros _. frame.
Qed.

Lemma tail_calls text x (w1 : World) r w' :
  w' = w1 ∨ ends_with_refresh json_loads lower text x w1 r w' →
  ∃ rs, calls (log w') = calls (log w1) ++ rs ∧ Forall is_refresh rs.
Proof.
  intros [->|He].
  - exists []. by rewrite app_nil_r.
  - by apply ends_with_refresh_calls in He.
Qed.

(** C4, as amended. In batch mode a review call is issued exactly when the
    translate call succeeded, review is not globally disabled, and the total
    character count of the batch is at or above the threshold. *)
Theorem batch_review_issued text (w : World) r w' :
  contains NL (strip text) = true →
  translate json_loads lower text w = (r, w') →
  ∃ req out cs,
    calls (log w') = calls (log w) ++ (req, out) :: cs
    ∧ pass_of req = Translate
    ∧ issued Review ((req, out) :: cs) =
      if is_ok out && negb (skip_review (self w))
         && (len text >=? min_review_chars (profile (self w)))
      then 1%nat else 0%nat.
Proof.
  intros Hb H. rewrite translate_dispatch, Hb in H.
  apply translate_batch_spec in H. cbv zeta in H.
  destruct H as (w1 & g1 & g2 & g3 & c1 & out1 & _ & _ & _ & _ & H).
  change (log (entered w)) with (log w) in H.
  change (skip_review (self (entered w))) with (skip_review (self w)) in H.
  change (profile (self (entered w))) with (profile (self w)) in H.
  set (gate := negb _ && _) in *.
  assert (∀ b : bool, b && negb (skip_review (self w))
                      && (len text >=? min_review_chars (profile (self w)))
                      = b && gate) as Hgate
    by (intros b; subst gate; by rewrite andb_assoc).
  setoid_rewrite Hgate. clearbody gate.
  destruct H as [(C & _ & H)|(tr & out2 & -> & -> & H)].
  - destruct (tail_calls text (reassemble (split NL text)
                                 (match out1 with Ok s => s | _ => [] end)).1
                w1 r w') as (rs & Crs & Frs).
    { destruct H as [(_ & _ & ->)|(tr & -> & _ & He)]; [by left|by right]. }
    eexists _, out1, rs. split; [by rewrite Crs, C, <- app_assoc|].
    split; [done|]. rewrite issued_cons, issued_one.
    rewrite (issued_refresh Review rs) by done. simpl.
    destruct H as [(_ & -> & _)|(tr & -> & -> & _)]; [done|].
    by rewrite andb_false_r.
  - destruct H as [(C & H)|(rv & out3 & -> & _ & C & _ & H)].
    + destruct (tail_calls text (reassemble (split NL text) tr).1 w1 r w')
        as (rs & Crs & Frs).
      { destruct H as [(_ & _ & _ & ->)|(rv & _ & _ & _ & He)];
          [by left|by right]. }
      eexists _, (Ok tr), _.
      split; [rewrite Crs, C, <- app_assoc; reflexivity|].
      split; [done|]. cbn [app].
      rewrite issued_cons, issued_one, issued_cons, issued_one.
      by rewrite (issued_refresh Review rs).
    + destruct (tail_calls text
                  (reassemble (split NL text)
                     (match out3 with Ok s => s | _ => [] end)).1 w1 r w')
        as (rs & Crs & Frs).
      { destruct H as [(_ & _ & ->)|(refined & -> & He)]; [by left|by right]. }
      eexists _, (Ok tr), _.
      split; [rewrite Crs, C, <- app_assoc; reflexivity|].
      split; [done|]. cbn [app].
      rewrite issued_cons, issued_one, issued_cons, issued_one.
      rewrite issued_cons, issued_one.
      by rewrite (issued_refresh Review rs).
Qed.


Lemma translate_batch_first_call text (w : World) r w' :
  _translate_batch json_loads lower text w = (r, w') →
  ∃ g c out cs,
    calls (log w') =
    calls (log w)
    ++ (TranslateReq g c (join (NL ++ PARA_DELIMITER ++ NL) (split NL text))
          (Some (len (split NL text))), out) :: cs.
Proof.
  intros H. apply translate_batch_spec in H. cbv zeta in H.
  destruct H as (w1 & g1 & g2 & g3 & c1 & out1 & _ & _ & _ & _ & H).
  assert (∃ x, w' = w1 ∨ ends_with_refresh json_loads lower text x w1 r w')
    as (x & Ht).
  { destruct H as [(_ & _ & [(_ & _ & ->)|(tr & _ & _ & He)])
                  |(tr & out2 & _ & _ &
                    [(_ & [(_ & _ & _ & ->)|(rv & _ & _ & _ & He)])
                    |(rv & out3 & _ & _ & _ & _ &
                      [(_ & _ & ->)|(refined & _ & He)])])];
      first [by exists []; left | eexists; right; exact He]. }
  apply tail_calls in Ht as (rs & Crs & _).
  destruct H as [(C & _)|(tr & out2 & _ & _ &
                          [(C & _)|(rv & out3 & _ & _ & C & _)])];
    rewrite Crs, C, <- app_assoc; cbn [app]; eauto.
Qed.

(** C10. [translate] treats a unit as a batch exactly when the unit without
    its leading and trailing whitespace holds a newline, so newlines that
    only lead or trail do not make a batch.  A batch is split as submitted,
    not as stripped: the paragraph count named in the batch instruction is
    one more than the number of newlines of the whole unit, and a leading or
    a trailing newline yields an empty first or last paragraph. *)
Theorem batch_classification text (w : World) :
  translate json_loads lower text w =
  (if contains NL (strip text) then
     _translate_batch json_loads lower text (entered w)
   else if (len text <? min_review_chars (profile (self w)))
           || skip_review (self w)
        then _translate_pass1_only json_loads lower text (entered w)
        else _translate_3pass json_loads lower text (entered w))
  ∧ (∀ a core b : str,
       Forall (λ x, is_space x = true) a →
       Forall (λ x, is_space x = true) b →
       10%N ∉ core →
       contains NL (strip (a ++ core ++ b)) = false)
  ∧ (∀ r w',
       _translate_batch json_loads lower text w = (r, w') →
       ∃ g c out cs,
         calls (log w') =
         calls (log w)
         ++ (TranslateReq g c
               (join (NL ++ PARA_DELIMITER ++ NL) (split NL text))
               (Some (len (split NL text))), out) :: cs)
  ∧ length (split NL text) = S (length (List.filter (N.eqb 10) text))
  ∧ split NL (NL ++ text) = [] :: split NL text
  ∧ split NL (text ++ NL) = split NL text ++ [[]].
Proof.
  split; [apply translate_dispatch|].
  split.
  { intros a core b Ha Hb Hcore. rewrite strip_padding by done.
    apply (contains_char_false 10). intros Hin. by apply strip_subseteq in Hin. }
  split; [intros r w'; apply translate_batch_first_call|].
  split; [apply (split_char_length 10)|].
  split; [apply (split_char_sep 10)|apply (split_char_snoc 10)].
Qed.

(** ** The call layer, attempt by attempt *)


(** Only an attempt that went through counts as a request. *)
Lemma settle_requests (a : result Response) (m : Meter) :
  total_requests (settle a m)
  = total_requests m + (if is_ok (outcome a) then 1 else 0).
Proof.
  destruct a as [resp|e]; unfold settle, outcome, track; [|cbn; lia].
  destruct (summand (cache_read_input_tokens (usage resp))),
    (summand (cache_creation_input_tokens (usage resp))); cbn; lia.
Qed.


(** ** The refresh step in detail *)

Lemma maybe_update_precise original translation (w : World) r w' :
  _maybe_update_context_glossary json_loads lower original translation w
  = (r, w') →
  ∃ c1 c2,
    calls (log w') = calls (log w) ++ c1 ++ c2
    ∧ ((c1 = [] ∧ context_summary (self w') = context_summary (self w))
       ∨ ∃ req out,
           c1 = [(req, out)] ∧ pass_of req = ContextRefresh
           ∧ context_summary (self w') =
             match out with
             | Ok s => s
             | Raise _ => context_summary (self w)
             end)
    ∧ ((c2 = []
        ∧ glossary (self w') = glossary (self w)
        ∧ glossary_extract_failures (counters (self w'))
          = glossary_extract_failures (counters (self w))
        ∧ (r = Ok tt
           ∨ r = Raise ZeroDivisionError
             ∧ (c1 = [] ∨ glossary_update_interval (profile (self w)) = 0)))
       ∨ ∃ out,
           c2 = [(GlossaryReq (slice_to 2000 original)
                    (slice_to 2000 translation), out)]
           ∧ r = Ok tt
           ∧ glossary (self w') =
             dict_update (glossary (self w))
               (default [] (glossary_verdict json_loads out))
           ∧ glossary_extract_failures (counters (self w')) =
             glossary_extract_failures (counters (self w))
             + (match glossary_verdict json_loads out with
                | Some _ => 0
                | None => 1
                end)).
Proof.
  unfold _maybe_update_context_glossary. intros H.
  apply bind_inv in H as [([] & w1 & H1 & H2)|(e & H1 & ->)].
  - apply update_context_spec in H1 as (S1 & M1 & O1 & G1 & F1 & C1).
    apply update_glossary_spec in H2 as (S2 & M2 & O2 & X2 & C2).
    assert (glossary_update_interval (profile (self w1))
            = glossary_update_interval (profile (self w))) as Hi by frame.
    destruct C1 as [(E1 & X1 & _)|(req & out & Hp & E1 & _ & X1)];
      destruct C2 as [(E2 & G2 & F2 & R2)|(out2 & E2 & R2 & G2 & F2)].
    + exists [], []. rewrite app_nil_r. split; [congruence|].
      split; [left; split; [done|congruence]|]. left.
      repeat (split; [congruence|]). destruct R2 as [?|[? ?]]; [by left|].
      right. split; [done|]. by left.
    + exists [], [(GlossaryReq (slice_to 2000 original)
                     (slice_to 2000 translation), out2)].
      split; [by rewrite E2, E1|].
      split; [left; split; [done|congruence]|]. right. exists out2.
      rewrite G2, F2, G1, F1. done.
    + exists [(req, out)], []. rewrite app_nil_r. split; [congruence|].
      split; [right; exists req, out; repeat split; [done|congruence]|].
      left. repeat (split; [congruence|]).
      destruct R2 as [?|[? ?]]; [by left|].
      right. split; [done|]. right. congruence.
    + exists [(req, out)],
        [(GlossaryReq (slice_to 2000 original) (slice_to 2000 translation),
          out2)].
      split; [by rewrite E2, E1, <- app_assoc|].
      split; [right; exists req, out; repeat split; [done|congruence]|].
      right. exists out2. rewrite G2, F2, G1, F1. done.
  - apply update_context_spec in H1 as (S1 & M1 & O1 & G1 & F1 & C1).
    destruct C1 as [(E1 & X1 & [?|[? ?]])|(req & out & _ & _ & ? & _)];
      try done.
    exists [], []. rewrite app_nil_r. split; [done|].
    split; [by left|]. left. repeat (split; [done|]).
    right. split; [done|]. by left.
Qed.

(** [translate] is a run of passes followed, unless a pass failed, by one
    refresh step. *)
Lemma translate_phases text (w : World) r w' :
  translate json_loads lower text w = (r, w') →
  ∃ w1 pcs,
    settings (self w1) = settings (self w)
    ∧ rolling (self w1) = rolling (self w)
    ∧ calls (log w1) = calls (log w) ++ pcs
    ∧ Forall (λ c, ¬ is_refresh c) pcs
    ∧ ((is_ok r = false ∧ w' = w1)
       ∨ ∃ out, ends_with_refresh json_loads lower text out w1 r w').
Proof.
  intros H. rewrite translate_dispatch in H.
  assert (∀ req out, is_refresh (req, out) →
                     pass_of req ≠ Translate ∧ pass_of req ≠ Review
                     ∧ pass_of req ≠ Refine) as Hnr.
  { intros req out [Hr|Hr]; cbn in Hr; rewrite Hr; done. }
  destruct (contains NL (strip text)); [|destruct (_ || _)].
  - apply translate_batch_spec in H. cbv zeta in H.
    destruct H as (w1 & g1 & g2 & g3 & c1 & out1 & Hs & Hr & _ & _ & H).
    change (log (entered w)) with (log w) in H.
    exists w1.
    destruct H as [(C & _ & H)|(tr & out2 & _ & _ &
                                [(C & H)|(rv & out3 & _ & _ & C & _ & H)])];
      eexists; (split; [exact Hs|]); (split; [exact Hr|]);
      (split; [exact C|]);
      (split; [repeat (apply Forall_cons; split;
                       [intros Hx; apply Hnr in Hx; cbn in Hx; tauto|]);
               apply Forall_nil_2|]).
    + destruct H as [(-> & ? & ->)|(tr & _ & _ & He)]; [by left|eauto].
    + destruct H as [(_ & -> & ? & ->)|(rv & _ & _ & _ & He)];
        [by left|eauto].
    + destruct H as [(-> & ? & ->)|(refined & _ & He)]; [by left|eauto].
  - apply translate_pass1_only_spec in H.
    destruct H as (w1 & g1 & c1 & out1 & Hs & Hr & _ & _ & _ & C & H).
    change (log (entered w)) with (log w) in C.
    exists w1. eexists. split; [exact Hs|]. split; [exact Hr|].
    split; [exact C|].
    split; [apply Forall_singleton; intros Hx; apply Hnr in Hx; cbn in Hx;
            tauto|].
    destruct H as [(-> & ? & ->)|(tr & _ & He)]; [by left|eauto].
  - apply translate_3pass_spec in H.
    destruct H as (w1 & g1 & g2 & g3 & c1 & out1 & Hs & Hr & _ & _ & H).
    change (log (entered w)) with (log w) in H.
    exists w1.
    destruct H as [(C & _ & H)
                  |(tr & out2 & _ &
                    [(C & H)|(rv & out3 & _ & _ & C & _ & H)])];
      eexists; (split; [exact Hs|]); (split; [exact Hr|]);
      (split; [exact C|]);
      (split; [repeat (apply Forall_cons; split;
                       [intros Hx; apply Hnr in Hx; cbn in Hx; tauto|]);
               apply Forall_nil_2|]).
    + destruct H as (-> & ? & ->). by left.
    + destruct H as [(_ & -> & ? & ->)|(rv & _ & _ & _ & He)];
        [by left|eauto].
    + destruct H as [(-> & ? & ->)|(refined & _ & He)]; [by left|eauto].
Qed.

(** ** Recovery from failed refreshes *)

(** C8. When the context-refresh call of a unit raises, the exception stays
    inside [translate]: the stored summary is the one from before, and
    [translate] returns the translation (the one way left for it to raise is
    the unrelated division by a glossary interval of zero). *)
Theorem context_refresh_failure_contained text (w : World) r w' :
  translate json_loads lower text w = (r, w') →
  ∃ cs,
    calls (log w') = calls (log w) ++ cs
    ∧ ∀ req e,
        (req, Raise e) ∈ cs → pass_of req = ContextRefresh →
        context_summary (self w') = context_summary (self w)
        ∧ ((∃ out, r = Ok out)
           ∨ r = Raise ZeroDivisionError
             ∧ glossary_update_interval (profile (self w)) = 0).
Proof.
  intros H. apply translate_phases in H.
  destruct H as (w1 & pcs & Hs & Hr & C & Hp & H).
  assert (∀ req e, (req, Raise e) ∈ pcs → pass_of req = ContextRefresh → False)
    as Hpcs.
  { intros req e Hin Hpass. rewrite Forall_forall in Hp.
    apply (Hp _ Hin). by left. }
  destruct H as [(_ & ->)|(out & r0 & E & ->)].
  { exists pcs. split; [done|]. intros req e Hin Hpass.
    by destruct (Hpcs req e). }
  apply maybe_update_precise in E as (c1 & c2 & C' & Hc & Hg).
  exists (pcs ++ c1 ++ c2). split; [by rewrite C', C, <- app_assoc|].
  intros req e Hin Hpass.
  rewrite !elem_of_app in Hin. destruct Hin as [Hin|[Hin|Hin]].
  - by destruct (Hpcs req e).
  - destruct Hc as [(-> & _)|(req' & out' & -> & _ & Hctx)];
      [by apply elem_of_nil in Hin|].
    apply list_elem_of_singleton in Hin. simplify_eq.
    split; [rewrite Hctx; frame|].
    destruct Hg as [(_ & _ & _ & [->|(-> & [?|Hz])])|(? & _ & -> & _)];
      [by left; eexists| done | |by left; eexists].
    right. split; [done|]. rewrite <- Hz. frame.
  - destruct Hg as [(-> & _)|(out' & -> & _)];
      [by apply elem_of_nil in Hin|].
    apply list_elem_of_singleton in Hin. by simplify_eq.
Qed.

(** C5, as amended. Whatever the glossary-refresh call of a unit ends with,
    no exception escapes and [translate] returns the translation.  A reply
    that is not JSON, or whose fence cannot be taken off, or a failed call,
    counts one failure and leaves the glossary as it was.  A reply that is
    JSON but not an object leaves the glossary as it was and counts nothing.
    A reply that is an object merges exactly its pairs that pass the filter
    and counts nothing. *)
Theorem glossary_refresh_recovery text (w : World) r w' :
  translate json_loads lower text w = (r, w') →
  ∃ cs,
    calls (log w') = calls (log w) ++ cs
    ∧ ∀ req out,
        (req, out) ∈ cs → pass_of req = GlossaryRefresh →
        let failures t := glossary_extract_failures (counters t) in
        let counted :=
          glossary (self w') = glossary (self w)
          ∧ failures (self w') = failures (self w) + 1 in
        (∃ res, r = Ok res)
        ∧ (∀ e, out = Raise e → counted)
        ∧ (∀ resp, out = Ok resp → unfence resp = None → counted)
        ∧ (∀ resp doc,
             out = Ok resp → unfence resp = Some doc →
             json_loads doc = None → counted)
        ∧ (∀ resp doc j,
             out = Ok resp → unfence resp = Some doc →
             json_loads doc = Some j →
             failures (self w') = failures (self w)
             ∧ glossary (self w') =
               match j with
               | JObj items =>
                   dict_update (glossary (self w)) (valid_terms items)
               | _ => glossary (self w)
               end).
Proof.
  intros H. apply translate_phases in H.
  destruct H as (w1 & pcs & Hs & Hr & C & Hp & H).
  assert (∀ req out, (req, out) ∈ pcs → pass_of req = GlossaryRefresh → False)
    as Hpcs.
  { intros req out Hin Hpass. rewrite Forall_forall in Hp.
    apply (Hp _ Hin). by right. }
  destruct H as [(_ & ->)|(x & r0 & E & ->)].
  { exists pcs. split; [done|]. intros req out Hin Hpass.
    by destruct (Hpcs req out). }
  apply maybe_update_precise in E as (c1 & c2 & C' & Hc & Hg).
  exists (pcs ++ c1 ++ c2). split; [by rewrite C', C, <- app_assoc|].
  intros req out Hin Hpass failures counted.
  rewrite !elem_of_app in Hin. destruct Hin as [Hin|[Hin|Hin]].
  - by destruct (Hpcs req out).
  - destruct Hc as [(-> & _)|(req' & out' & -> & Hq & _)];
      [by apply elem_of_nil in Hin|].
    apply list_elem_of_singleton in Hin. simplify_eq. congruence.
  - destruct Hg as [(-> & _)|(out' & -> & -> & Hg & Hf)];
      [by apply elem_of_nil in Hin|].
    apply list_elem_of_singleton in Hin. simplify_eq.
    assert (glossary (self w1) = glossary (self w)
            ∧ failures (self w1) = failures (self w)) as [Eg Ef]
      by (subst failures; frame).
    rewrite Eg in Hg. subst counted failures. cbv beta in *.
    rewrite Ef in Hf.
    split; [by eexists|]. unfold glossary_verdict in Hg, Hf.
    split; [|split; [|split]].
    + intros e ->. cbn in Hg. by rewrite dict_update_nil in Hg.
    + intros resp -> Hd. rewrite Hd in Hg, Hf. cbn in Hg.
      by rewrite dict_update_nil in Hg.
    + intros resp doc -> Hd Hj. rewrite Hd, Hj in Hg, Hf. cbn in Hg.
      by rewrite dict_update_nil in Hg.
    + intros resp doc j -> Hd Hj. rewrite Hd, Hj in Hg, Hf.
      destruct j; cbn in Hg, Hf; rewrite ?dict_update_nil in Hg; split;
        first [done | lia].
Qed.

(** ** The glossary invariant *)

Lemma valid_terms_unmarked (items : list (str * json)) :
  Forall (λ kv, startswith MARKER kv.1 = false) (valid_terms items).
Proof.
  apply Forall_forall. intros kv Hin. unfold valid_terms in Hin.
  apply list_elem_of_omap in Hin as ([k j] & _ & Hf). cbn in Hf.
  destruct j; try done.
  destruct (len k <? 100); [|done]. destruct (len s <? 200); [|done].
  destruct (startswith MARKER k) eqn:E; [done|]. cbn in Hf. by simplify_eq.
Qed.

Lemma dict_update_unmarked (g : gmap str str) (kvs : list (str * str)) :
  unmarked g → Forall (λ kv, startswith MARKER kv.1 = false) kvs →
  unmarked (dict_update g kvs).
Proof.
  intros Hg Hkvs. revert g Hg.
  induction Hkvs as [|kv kvs Hkv _ IH]; intros g Hg; [done|].
  apply IH. intros k v Hl.
  destruct (decide (kv.1 = k)) as [<-|Hne]; [done|].
  rewrite lookup_insert_ne in Hl by done. by apply (Hg k v).
Qed.

Lemma glossary_verdict_unmarked out :
  Forall (λ kv, startswith MARKER kv.1 = false)
    (default [] (glossary_verdict json_loads out)).
Proof.
  unfold glossary_verdict. destruct out as [resp|e]; [|by constructor].
  destruct (unfence resp) as [doc|]; [|by constructor].
  destruct (json_loads doc) as [[| | | | |items]|]; try by constructor.
  apply valid_terms_unmarked.
Qed.

Lemma translate_unmarked text (w : World) r w' :
  unmarked (glossary (self w)) →
  translate json_loads lower text w = (r, w') →
  unmarked (glossary (self w')).
Proof.
  intros Hg H. apply translate_phases in H.
  destruct H as (w1 & pcs & _ & Hr & _ & _ & H).
  assert (glossary (self w1) = glossary (self w)) as Eg by frame.
  destruct H as [(_ & ->)|(x & r0 & E & _)]; [by rewrite Eg|].
  apply maybe_update_precise in E as (c1 & c2 & _ & _ & H).
  destruct H as [(_ & -> & _)|(out & _ & _ & -> & _)]; rewrite Eg; [done|].
  apply dict_update_unmarked; [done|apply glossary_verdict_unmarked].
Qed.

Lemma load_profile_unmarked basename pf (w : World) :
  unmarked (glossary (self w)) →
  clean_seed (OpLoadProfile basename (Some pf)) →
  unmarked (glossary (self (load_profile basename (Some pf) w).2)).
Proof.
  intros Hg Hseed k v. cbn. rewrite lookup_union_Some_raw.
  intros [Hl|[_ Hl]]; [|by apply (Hg k v)].
  apply lookup_delete_Some in Hl as [Hne Hl]. apply (Hseed k v); congruence.
Qed.

(** C2, as amended. No run of profile loads and translations puts a key
    that starts with the marker into the glossary, provided the seed of
    every loaded profile has no such key besides the comment key: the
    glossary refresh filters marked keys out, while [load_profile] removes
    the comment key only. *)
Theorem glossary_keys_unmarked (ops : list op) (w : World) :
  unmarked (glossary (self w)) →
  Forall clean_seed ops →
  unmarked (glossary (self (run_ops json_loads lower ops w))).
Proof.
  intros Hg Hops. revert w Hg.
  induction Hops as [|o ops Ho _ IH]; intros w Hg; [done|].
  change (run_ops json_loads lower (o :: ops) w)
    with (run_ops json_loads lower ops (run_op json_loads lower o w)).
  apply IH. destruct o as [basename [pf|]|text]; unfold run_op.
  - by apply (load_profile_unmarked basename).
  - done.
  - destruct (translate json_loads lower text w) as [r w'] eqn:E.
    by apply (translate_unmarked text w r w').
Qed.

End Properties.

(** ** The glossary snapshot *)

Lemma str_compare_refl (a : str) : str_compare a a = Eq.
Proof. induction a as [|x a IH]; [done|]. simpl. by rewrite N.compare_refl. Qed.

Lemma str_compare_eq (a b : str) : str_compare a b = Eq → a = b.
Proof.
  revert b. induction a as [|x a IH]; intros [|y b]; simpl; try done.
  destruct (N.compare_spec x y); try done. intros ?%IH. congruence.
Qed.

Lemma str_compare_antisym (a b : str) :
  str_compare b a = CompOpp (str_compare a b).
Proof.
  revert b. induction a as [|x a IH]; intros [|y b]; simpl; try done.
  rewrite (N.compare_antisym x y).
  destruct (N.compare x y); simpl; [apply IH|done|done].
Qed.

Lemma str_compare_trans (a b c : str) :
  str_compare a b = Lt → str_compare b c = Lt → str_compare a c = Lt.
Proof.
  revert b c. induction a as [|x a IH]; intros [|y b] [|z c]; simpl; try done.
  destruct (N.compare_spec x y) as [->|Hxy|Hxy]; try done.
  - destruct (N.compare y z); [apply IH|done|done].
  - intros _. destruct (N.compare_spec y z) as [->|Hyz|Hyz]; try done.
    + intros _. by rewrite (proj2 (N.compare_lt_iff x z)).
    + intros _. rewrite (proj2 (N.compare_lt_iff x z)); [done|].
      by etrans.
Qed.

Lemma item_compare_eq (p q : str * str) : item_compare p q = Eq → p = q.
Proof.
  unfold item_compare. destruct p as [a b], q as [c d]. simpl.
  destruct (str_compare a c) eqn:E; try done.
  intros ?%str_compare_eq. apply str_compare_eq in E. congruence.
Qed.

Lemma item_compare_antisym (p q : str * str) :
  item_compare q p = CompOpp (item_compare p q).
Proof.
  unfold item_compare. rewrite (str_compare_antisym p.1 q.1).
  destruct (str_compare p.1 q.1); simpl; [apply str_compare_antisym|done..].
Qed.

Lemma item_compare_trans (p q r : str * str) :
  item_compare p q = Lt → item_compare q r = Lt → item_compare p r = Lt.
Proof.
  unfold item_compare.
  destruct (str_compare p.1 q.1) eqn:E1; try done;
    destruct (str_compare q.1 r.1) eqn:E2; try done; intros H1 H2.
  - apply str_compare_eq in E1, E2. rewrite E1, E2, str_compare_refl.
    by apply (str_compare_trans _ q.2).
  - apply str_compare_eq in E1. by rewrite E1, E2.
  - apply str_compare_eq in E2. by rewrite <- E2, E1.
  - by rewrite (str_compare_trans _ _ _ E1 E2).
Qed.

Global Instance item_le_total : Total item_le.
Proof.
  intros p q. unfold item_le. rewrite (item_compare_antisym p q).
  destruct (item_compare p q); simpl; [by left|by left|by right].
Qed.

Global Instance item_le_trans : Transitive item_le.
Proof.
  intros p q r. unfold item_le.
  destruct (item_compare p q) eqn:E1; [|..|done].
  - by apply item_compare_eq in E1 as ->.
  - destruct (item_compare q r) eqn:E2; [|..|done]; intros _ _.
    + apply item_compare_eq in E2 as <-. by rewrite E1.
    + by rewrite (item_compare_trans _ _ _ E1 E2).
Qed.

(** Items with different keys are ordered by their keys. *)
Lemma item_le_key_lt (p q : str * str) :
  item_le p q → p.1 ≠ q.1 → str_compare p.1 q.1 = Lt.
Proof.
  unfold item_le, item_compare. intros Hle Hne.
  destruct (str_compare p.1 q.1) eqn:E; [|done..].
  by apply str_compare_eq in E.
Qed.

Lemma StronglySorted_keys (l : list (str * str)) :
  StronglySorted item_le l → NoDup l.*1 →
  StronglySorted (λ p q, str_compare p.1 q.1 = Lt) l.
Proof.
  induction 1 as [|p l _ IH Hp]; intros Hnd; [constructor|].
  rewrite fmap_cons in Hnd. apply NoDup_cons in Hnd as [Hnotin Hnd].
  constructor; [by apply IH|].
  rewrite Forall_forall in Hp. apply Forall_forall. intros q Hq.
  apply item_le_key_lt; [by apply Hp|].
  intros E. apply Hnotin. rewrite E. by apply list_elem_of_fmap_2.
Qed.

Lemma StronglySorted_lfilter {A} (R : relation A) (f : A → bool) (l : list A) :
  StronglySorted R l → StronglySorted R (List.filter f l).
Proof.
  induction 1 as [|x l _ IH Hx]; [constructor|]. simpl.
  destruct (f x); [|done]. constructor; [done|].
  rewrite Forall_forall in Hx. apply Forall_forall. intros y Hy.
  apply list_elem_of_In, filter_In in Hy as [Hy _].
  by apply Hx, list_elem_of_In.
Qed.

Lemma StronglySorted_take {A} (R : relation A) (n : nat) (l : list A) :
  StronglySorted R l → StronglySorted R (take n l).
Proof.
  intros H. rewrite <- (take_drop n l) in H.
  by apply StronglySorted_app_1_l in H.
Qed.

(** C9. The snapshot is the newline-join of the formatted lines of at most
    60 entries of the store.  None of their keys starts with the marker,
    they come in strictly increasing order of their keys, and they are the
    first in that order: an unmarked entry of the store that is left out
    comes after all 60 that are in. *)
Theorem format_glossary_snapshot (t : Translator) :
  ∃ entries : list (str * str),
    _format_glossary t = join NL (map format_entry entries)
    ∧ (length entries ≤ 60)%nat
    ∧ Forall (λ e, glossary t !! e.1 = Some e.2
                   ∧ startswith MARKER e.1 = false) entries
    ∧ StronglySorted (λ p q, str_compare p.1 q.1 = Lt) entries
    ∧ ∀ k v,
        glossary t !! k = Some v → startswith MARKER k = false →
        (k, v) ∈ entries
        ∨ (length entries = 60%nat
           ∧ Forall (λ e, str_compare e.1 k = Lt) entries).
Proof.
  set (sorted := merge_sort item_le (map_to_list (glossary t))).
  set (kept := List.filter (λ e, negb (startswith MARKER e.1)) sorted).
  assert (sorted ≡ₚ map_to_list (glossary t)) as Hperm
    by apply merge_sort_Permutation.
  assert (StronglySorted (λ p q, str_compare p.1 q.1 = Lt) sorted) as Hsorted.
  { apply StronglySorted_keys; [apply StronglySorted_merge_sort; apply _|].
    rewrite Hperm. apply NoDup_fst_map_to_list. }
  assert (StronglySorted (λ p q, str_compare p.1 q.1 = Lt) kept) as Hkept
    by by apply StronglySorted_lfilter.
  assert (∀ e, e ∈ kept ↔
               glossary t !! e.1 = Some e.2 ∧ startswith MARKER e.1 = false)
    as Hin.
  { intros [k v]. subst kept. rewrite list_elem_of_In, filter_In.
    rewrite <- list_elem_of_In, Hperm, elem_of_map_to_list, negb_true_iff.
    done. }
  exists (take 60 kept). split; [|split; [|split; [|split]]].
  - unfold _format_glossary. case_decide as Hempty.
    + assert (kept = []) as ->; [|done].
      subst kept sorted. rewrite Hempty, map_to_list_empty. done.
    + unfold glossary_lines. fold sorted. fold kept.
      change 60 with (Z.of_nat 60). by rewrite slice_to_nonneg, fmap_take.
  - rewrite length_take. lia.
  - apply Forall_forall. intros e He. apply Hin.
    by apply (subseteq_take 60).
  - by apply StronglySorted_take.
  - intros k v Hl Hm.
    assert ((k, v) ∈ kept) as Hk by by apply Hin.
    rewrite <- (take_drop 60 kept) in Hk, Hkept.
    apply elem_of_app in Hk as [Hk|Hk]; [by left|]. right. split.
    + rewrite length_take. apply list_elem_of_lookup in Hk as [i Hi].
      apply lookup_lt_Some in Hi. rewrite length_drop in Hi. lia.
    + apply Forall_forall. intros e He.
      by apply (StronglySorted_app_1_elem_of _ _ _ e (k, v) Hkept).
Qed.

(** ** Runs of the scenarios *)

Import Sample.

Lemma unmarked_empty : unmarked ∅.
Proof. intros k v H. by rewrite lookup_empty in H. Qed.

(** The batch of three paragraphs, answered with two segments, comes back
    with three lines. *)
Lemma batch_reassembly_count_witness :
  let run := _translate_batch json_loads lower three_paras w_batch in
  let out := lit "X" ++ NL ++ lit "Y" ++ NL ++ lit "C" in
  run = (Ok out, run.2)
  ∧ (let paragraphs := split NL three_paras in
     let n := length paragraphs in
     ∃ cs req translation,
       calls (log run.2) = calls (log w_batch) ++ cs
       ∧ last (List.filter gives_translation cs) = Some (req, Ok translation)
       ∧ let parts := batch_parts translation in
         let m := length parts in
         out = (reassemble paragraphs translation).1
         ∧ length (split NL out) = n
         ∧ (m = n → split NL out = parts)
         ∧ ((n < m)%nat →
            split NL out
            = take (n - 1) parts ++ [join SP (drop (n - 1) parts)])
         ∧ ((m < n)%nat → split NL out = parts ++ drop m paragraphs)).
Proof.
  intros run out. split; [by vm_compute|].
  apply (batch_reassembly_count json_loads lower three_paras w_batch out run.2).
  by vm_compute.
Defined.

(** C3 fails on a short batch: it is below the threshold, yet the
    Pass-1-only counter does not move and the full-3-pass counter does. *)
Lemma short_batch_is_not_pass1_only :
  let w' := (translate json_loads lower two_paras w_short_batch).2 in
  len two_paras < min_review_chars (profile (self w_short_batch))
  ∧ pass1_only_count (counters (self w'))
    ≠ pass1_only_count (counters (self w_short_batch)) + 1
  ∧ pass1_only_count (counters (self w')) = 0
  ∧ full_3pass_count (counters (self w')) = 1.
Proof. by vm_compute. Qed.

Lemma short_unit_dispatch_witness :
  let run := translate json_loads lower hello w_short in
  len hello < min_review_chars (profile (self w_short))
  ∧ run = (run.1, run.2)
  ∧ ∃ cs,
      calls (log run.2) = calls (log w_short) ++ cs
      ∧ issued Translate cs = 1%nat
      ∧ issued Review cs = 0%nat
      ∧ issued Refine cs = 0%nat
      ∧ (contains NL (strip hello) = false →
         pass1_only_count (counters (self run.2))
         = pass1_only_count (counters (self w_short)) + 1
         ∧ full_3pass_count (counters (self run.2))
           = full_3pass_count (counters (self w_short)))
      ∧ (contains NL (strip hello) = true →
         full_3pass_count (counters (self run.2))
         = full_3pass_count (counters (self w_short)) + 1
         ∧ pass1_only_count (counters (self run.2))
           = pass1_only_count (counters (self w_short))).
Proof.
  intros run. split; [by vm_compute|]. split; [by vm_compute|].
  apply (short_unit_dispatch json_loads lower hello w_short run.1 run.2);
    by vm_compute.
Defined.

(** C4 fails when review is globally disabled: the batch is at the
    threshold and its translate call succeeds, yet no review call is
    issued. *)
Lemma disabled_review_is_not_issued :
  let run := translate json_loads lower two_paras w_batch_skip in
  contains NL (strip two_paras) = true
  ∧ min_review_chars (profile (self w_batch_skip)) <= len two_paras
  ∧ is_ok run.1 = true
  ∧ issued Review (calls (log run.2)) = 0%nat.
Proof. by vm_compute. Qed.

Lemma batch_review_issued_witness :
  let run := translate json_loads lower two_paras w_batch in
  contains NL (strip two_paras) = true
  ∧ run = (run.1, run.2)
  ∧ ∃ req out cs,
      calls (log run.2) = calls (log w_batch) ++ (req, out) :: cs
      ∧ pass_of req = Translate
      ∧ issued Review ((req, out) :: cs) =
        if is_ok out && negb (skip_review (self w_batch))
           && (len two_paras >=? min_review_chars (profile (self w_batch)))
        then 1%nat else 0%nat.
Proof.
  intros run. split; [by vm_compute|]. split; [by vm_compute|].
  apply (batch_review_issued json_loads lower two_paras w_batch run.1 run.2);
    by vm_compute.
Defined.



Lemma context_refresh_failure_contained_witness :
  let run := translate json_loads lower hello w_context_down in
  run = (run.1, run.2)
  ∧ ∃ cs,
      calls (log run.2) = calls (log w_context_down) ++ cs
      ∧ ∀ req e,
          (req, Raise e) ∈ cs → pass_of req = ContextRefresh →
          context_summary (self run.2) = context_summary (self w_context_down)
          ∧ ((∃ out, run.1 = Ok out)
             ∨ run.1 = Raise ZeroDivisionError
               ∧ glossary_update_interval (profile (self w_context_down)) = 0).
Proof.
  intros run. split; [by vm_compute|].
  apply (context_refresh_failure_contained json_loads lower hello
           w_context_down run.1 run.2).
  by vm_compute.
Defined.

(** C5 fails on replies of the wrong shape.  An array is not counted as a
    failure; an object with a member that is not a string is not counted
    either, and its good pairs change the glossary. *)
Lemma wrong_shape_is_not_counted :
  let failures w := glossary_extract_failures (counters (self w)) in
  let run1 := translate json_loads lower hello (w_glossary (lit "[]")) in
  let run2 := translate json_loads lower hello (w_glossary doc_mixed) in
  json_loads (lit "[]") = Some (JArr [])
  ∧ (GlossaryReq hello (lit "Hallo"), Ok (lit "[]")) ∈ calls (log run1.2)
  ∧ failures run1.2 ≠ failures (w_glossary (lit "[]")) + 1
  ∧ json_loads doc_mixed
    = Some (JObj [(lit "Shire", JStr (lit "Auenland"));
                  (lit "n", JNum (lit "1"))])
  ∧ (GlossaryReq hello (lit "Hallo"), Ok doc_mixed) ∈ calls (log run2.2)
  ∧ failures run2.2 ≠ failures (w_glossary doc_mixed) + 1
  ∧ glossary (self run2.2) ≠ glossary (self (w_glossary doc_mixed)).
Proof.
  intros failures run1 run2.
  split; [by vm_compute|]. split; [vm_compute; set_solver|].
  split; [by vm_compute|]. split; [by vm_compute|].
  split; [vm_compute; set_solver|]. split; [by vm_compute|].
  intros H. apply (f_equal (λ g, g !! lit "Shire")) in H.
  by vm_compute in H.
Qed.

Lemma glossary_refresh_recovery_witness :
  let w := w_glossary chatter in
  let run := translate json_loads lower hello w in
  run = (run.1, run.2)
  ∧ ∃ cs,
      calls (log run.2) = calls (log w) ++ cs
      ∧ ∀ req out,
          (req, out) ∈ cs → pass_of req = GlossaryRefresh →
          let failures t := glossary_extract_failures (counters t) in
          let counted :=
            glossary (self run.2) = glossary (self w)
            ∧ failures (self run.2) = failures (self w) + 1 in
          (∃ res, run.1 = Ok res)
          ∧ (∀ e, out = Raise e → counted)
          ∧ (∀ resp, out = Ok resp → unfence resp = None → counted)
          ∧ (∀ resp doc,
               out = Ok resp → unfence resp = Some doc →
               json_loads doc = None → counted)
          ∧ (∀ resp doc j,
               out = Ok resp → unfence resp = Some doc →
               json_loads doc = Some j →
               failures (self run.2) = failures (self w)
               ∧ glossary (self run.2) =
                 match j with
                 | JObj items =>
                     dict_update (glossary (self w)) (valid_terms items)
                 | _ => glossary (self w)
                 end).
Proof.
  intros w run. split; [by vm_compute|].
  apply (glossary_refresh_recovery json_loads lower hello w run.1 run.2).
  by vm_compute.
Defined.

(** C2 fails on a seed with a marked key other than the comment key:
    [load_profile] stores it. *)
Lemma load_profile_stores_marked_key :
  let w' :=
    run_ops json_loads lower
      [OpLoadProfile (lit "p.json") (Some (profile_with_seed seed_marked))]
      w_session in
  unmarked (glossary (self w_session))
  ∧ glossary (self w') !! lit "_note" = Some (lit "x")
  ∧ startswith MARKER (lit "_note") = true
  ∧ ¬ unmarked (glossary (self w')).
Proof.
  intros w'. split; [exact unmarked_empty|].
  split; [by vm_compute|]. split; [by vm_compute|].
  intros H. specialize (H (lit "_note") (lit "x")).
  assert (glossary (self w') !! lit "_note" = Some (lit "x")) as Hl
    by by vm_compute.
  apply H in Hl. by vm_compute in Hl.
Qed.

Lemma glossary_keys_unmarked_witness :
  unmarked (glossary (self w_session))
  ∧ Forall clean_seed session
  ∧ unmarked (glossary (self (run_ops json_loads lower session w_session))).
Proof.
  assert (unmarked (glossary (self w_session))) as H1
    by exact unmarked_empty.
  assert (Forall clean_seed session) as H2.
  { repeat constructor. intros k v Hl Hne. cbn in Hl. unfold seed_commented in Hl.
    apply lookup_insert_Some in Hl as [[<- _]|[_ Hl]]; [done|].
    apply lookup_singleton_Some in Hl as [<- _]. by vm_compute. }
  split; [exact H1|]. split; [exact H2|].
  exact (glossary_keys_unmarked json_loads lower session w_session H1 H2).
Defined.

(** The scenario of the specification: a seeded glossary, a refresh adding
    one term, entries listed by source key. *)
Example seeded_glossary_snapshot :
  let t := self (run_ops json_loads lower session w_session) in
  size (glossary t) = 2%nat
  ∧ _format_glossary t
    = lit "  Gandalf " ++ [8594%N] ++ lit " Gandalf" ++ NL
      ++ lit "  Shire " ++ [8594%N] ++ lit " Auenland"
  ∧ protected_nouns (profile t) = [lit "Mordor"].
Proof. by vm_compute. Qed.

(** * Further properties of the engine *)

(** ** Stepping through the monad *)

Section Steps.
Context {R : World → World → Prop} `{!PreOrder R}.

Lemma steps_ret {A} (a : A) : steps R (ret a).
Proof. intros w r w' H. unfold ret in H. by simplify_eq. Qed.

Lemma steps_raise {A} e : steps R (raise (A:=A) e).
Proof. intros w r w' H. unfold raise in H. by simplify_eq. Qed.

Lemma steps_get : steps R get_self.
Proof. intros w r w' H. unfold get_self in H. by simplify_eq. Qed.

Lemma steps_py_mod a b : steps R (py_mod a b).
Proof. unfold py_mod. destruct (b =? 0); [apply steps_raise|apply steps_ret]. Qed.

Lemma steps_bind {A B} (m : M A) (k : A → M B) :
  steps R m → (∀ a, steps R (k a)) → steps R (bind m k).
Proof.
  intros Hm Hk w r w' H. unfold bind in H.
  destruct (m w) as [[a|e] w1] eqn:E.
  - trans w1; [by eapply Hm|by eapply Hk].
  - simplify_eq. by eapply Hm.
Qed.

Lemma steps_try {A} (m : M A) (h : exn → M A) :
  steps R m → (∀ e, steps R (h e)) → steps R (try_except m h).
Proof.
  intros Hm Hh w r w' H. unfold try_except in H.
  destruct (m w) as [[a|e] w1] eqn:E.
  - simplify_eq. by eapply Hm.
  - trans w1; [by eapply Hm|by eapply Hh].
Qed.

Lemma steps_update (f : Translator → Translator) :
  (∀ w, R w {| self := f (self w); oracle := oracle w; next := next w;
               log := log w |}) →
  steps R (update f).
Proof. intros Hf w r w' H. unfold update in H. simplify_eq. apply Hf. Qed.

Lemma steps_emit ev :
  (∀ w, R w {| self := self w; oracle := oracle w; next := next w;
               log := log w ++ [ev] |}) →
  steps R (emit ev).
Proof. intros Hf w r w' H. unfold emit in H. simplify_eq. apply Hf. Qed.

Lemma steps_recorded {A} (ev : result A → event) (m : M A) :
  (∀ w e, R w {| self := self w; oracle := oracle w; next := next w;
                 log := log w ++ [e] |}) →
  steps R m → steps R (recorded ev m).
Proof.
  intros Hf Hm w r w' H. unfold recorded in H.
  destruct (m w) as [r1 w1] eqn:E. simplify_eq.
  trans w1; [by eapply Hm|apply Hf].
Qed.

Lemma steps_api_call lower req mt retries uc :
  (∀ w e, R w {| self := self w; oracle := oracle w; next := next w;
                 log := log w ++ [e] |}) →
  steps R (api_loop lower retries retries) →
  steps R (_api_call lower req mt retries uc).
Proof. intros Hlog Hloop. unfold _api_call. by apply steps_recorded. Qed.

Lemma steps_glossary_except e :
  (∀ w c, R w {| self := with_counters c (self w); oracle := oracle w;
                 next := next w; log := log w |}) →
  (∀ w ev, R w {| self := self w; oracle := oracle w; next := next w;
                  log := log w ++ [ev] |}) →
  steps R (glossary_except e).
Proof.
  intros Hc Hlog. unfold glossary_except, count_glossary_failure.
  repeat first [ apply steps_bind | apply steps_get | apply steps_ret
               | apply steps_update; intros; apply Hc
               | apply steps_emit; intros; apply Hlog
               | lazymatch goal with |- steps _ _ => fail | _ => intro end
               | match goal with
                 | |- steps _ (if ?b then _ else _) => destruct b
                 end ].
Qed.

End Steps.

Lemma reassemble_notice (paragraphs : list str) (translation result : str) wn :
  reassemble paragraphs translation = (result, Some wn) →
  glossary_warning wn = false.
Proof.
  unfold reassemble. intros H.
  repeat match type of H with
         | context [if ?b then _ else _] => destruct b
         end; by simplify_eq.
Qed.

(** A relation kept by the assignments of the engine, by its warnings and
    by its completion calls is kept by a whole unit. *)
Section Walk.
Context {R : World → World → Prop} `{!PreOrder R}.
Variable json_loads : str → option json.
Variable lower : str → str.

Hypothesis R_counters : ∀ w c,
  glossary_extract_failures c = glossary_extract_failures (counters (self w)) →
  R w {| self := with_counters c (self w); oracle := oracle w;
         next := next w; log := log w |}.
Hypothesis R_glossary : ∀ w g,
  R w {| self := with_glossary g (self w); oracle := oracle w;
         next := next w; log := log w |}.
Hypothesis R_summary : ∀ w s,
  R w {| self := with_context_summary s (self w); oracle := oracle w;
         next := next w; log := log w |}.
Hypothesis R_warn : ∀ w wn,
  glossary_warning wn = false →
  R w {| self := self w; oracle := oracle w; next := next w;
         log := log w ++ [Warn wn] |}.
Hypothesis R_except : ∀ e, steps R (glossary_except e).
Hypothesis R_call : ∀ req mt uc,
  steps R (_api_call lower req mt RETRIES uc).

Ltac walk :=
  repeat (repeat lazymatch goal with
                 | |- steps _ _ => fail
                 | _ => intro
                 end;
          first [ apply R_call | apply R_except
                | apply steps_ret | apply steps_raise | apply steps_get
                | apply steps_py_mod
                | apply steps_bind | apply steps_try
                | apply steps_emit; intros; apply R_warn;
                  first [reflexivity | assumption]
                | apply steps_update; intros; first
                    [ apply R_counters; reflexivity
                    | apply R_glossary | apply R_summary ]
                | match goal with
                  | |- steps _ (let (_, _) := reassemble ?p ?t in _) =>
                      let E := fresh "E" in
                      destruct (reassemble p t) as [? [?|]] eqn:E;
                      [apply reassemble_notice in E|]
                  end
                | match goal with
                  | |- steps _ (if ?b then _ else _) => destruct b
                  | |- steps _ (match ?x with _ => _ end) => destruct x
                  | |- steps _ (let (_, _) := ?x in _) => destruct x
                  end
                | progress cbv zeta ]).

Lemma pass1_steps text bi : steps R (_pass1 lower text bi).
Proof. unfold _pass1. walk. Qed.

Lemma pass2_steps o t b : steps R (_pass2 lower o t b).
Proof. unfold _pass2. walk. Qed.

Lemma pass3_steps o t rv bi : steps R (_pass3 lower o t rv bi).
Proof. unfold _pass3. walk. Qed.

Lemma maybe_update_steps o t :
  steps R (_maybe_update_context_glossary json_loads lower o t).
Proof.
  unfold _maybe_update_context_glossary, update_context, update_glossary.
  walk.
Qed.

Lemma translate_steps text : steps R (translate json_loads lower text).
Proof.
  unfold translate, _translate_batch, _translate_pass1_only, _translate_3pass,
    _maybe_update_context_glossary, update_context, update_glossary,
    _pass1, _pass2, _pass3.
  walk.
Qed.

End Walk.

(** ** Statistics *)

Lemma tally_add o (s d1 d2 : nat) (m : Meter) :
  tally o s (d1 + d2) m = tally o (s + d1) d2 (tally o s d1 m).
Proof.
  revert s m. induction d1 as [|d1 IH]; intros s m; simpl.
  - by rewrite Nat.add_0_r.
  - rewrite IH. by replace (S s + d1)%nat with (s + S d1)%nat by lia.
Qed.

Lemma tally_requests o (s d : nat) (m : Meter) :
  total_requests (tally o s d m) = total_requests m + responses o s d.
Proof.
  revert s m. induction d as [|d IH]; intros s m; simpl; [lia|].
  rewrite IH, settle_requests. lia.
Qed.

Lemma settle_tokens (a : result Response) (m : Meter) :
  total_input_tokens (settle a m)
  = total_input_tokens m
    + match a with Ok resp => input_tokens (usage resp) | Raise _ => 0 end
  ∧ total_output_tokens (settle a m)
    = total_output_tokens m
      + match a with Ok resp => output_tokens (usage resp) | Raise _ => 0 end.
Proof.
  destruct a as [resp|e]; unfold settle, track; [|cbn; lia].
  destruct (summand (cache_read_input_tokens (usage resp))),
    (summand (cache_creation_input_tokens (usage resp))); cbn; lia.
Qed.

Lemma tally_tokens o (s d : nat) (m : Meter) :
  total_input_tokens (tally o s d m)
  = total_input_tokens m + received input_tokens o s d
  ∧ total_output_tokens (tally o s d m)
    = total_output_tokens m + received output_tokens o s d.
Proof.
  revert s m. induction d as [|d IH]; intros s m; simpl; [lia|].
  destruct (IH (S s) (settle (o s) m)) as [-> ->].
  destruct (settle_tokens (o s) m) as [-> ->]. lia.
Qed.

Global Instance accounted_preorder : PreOrder accounted.
Proof.
  split.
  - intros w. repeat split; [done|]. by rewrite Nat.sub_diag.
  - intros w1 w2 w3 (O1 & N1 & M1) (O2 & N2 & M2).
    split; [congruence|]. split; [lia|].
    rewrite M2, M1, O1.
    replace (next w3 - next w1)%nat
      with ((next w2 - next w1) + (next w3 - next w2))%nat by lia.
    rewrite tally_add. by replace (next w1 + (next w2 - next w1))%nat
      with (next w2) by lia.
Qed.

Lemma api_loop_accounted lower retries todo :
  steps accounted (api_loop lower retries todo).
Proof.
  induction todo as [|todo IH]; intros w r w' H.
  - cbn in H. unfold raise in H. by simplify_eq.
  - assert (accounted w
              {| self := with_meter (settle (oracle w (next w))
                                       (meter (self w))) (self w);
                 oracle := oracle w; next := S (next w); log := log w |})
      as Hone.
    { repeat split; cbn; [lia|].
      by replace (S (next w) - next w)%nat with 1%nat by lia. }
    destruct (outcome (oracle w (next w))) as [s|e] eqn:Ho.
    + rewrite (api_loop_success _ _ _ _ _ Ho) in H. simplify_eq. exact Hone.
    + destruct (decide (retries - S todo < retries - 1)%nat) as [Hlt|Hlt].
      * rewrite (api_loop_retry _ _ _ _ _ Ho Hlt) in H. apply IH in H.
        etrans; [exact Hone|]. exact H.
      * rewrite (api_loop_give_up _ _ _ _ _ Ho Hlt) in H. simplify_eq.
        exact Hone.
Qed.

(** X1. However a unit ends, the statistics of the translator have grown by
    the bookkeeping of each answer the client gave for it, in order.  An
    attempt on which the client raised adds nothing.  A response adds its
    input tokens, its output tokens, its two cache counters, and one
    request; when a cache counter holds [None] the bookkeeping stops there,
    so that the tokens before it stay added and no request is counted.  The
    request total therefore grows by the number of responses whose
    bookkeeping went through, and the input and output totals by the tokens
    of every response received. *)
Theorem meter_accounts_for_responses json_loads lower text (w : World) r w' :
  translate json_loads lower text w = (r, w') →
  let o := oracle w in
  let d := (next w' - next w)%nat in
  (next w ≤ next w')%nat
  ∧ meter (self w') = tally o (next w) d (meter (self w))
  ∧ total_requests (meter (self w'))
    = total_requests (meter (self w)) + responses o (next w) d
  ∧ total_input_tokens (meter (self w'))
    = total_input_tokens (meter (self w)) + received input_tokens o (next w) d
  ∧ total_output_tokens (meter (self w'))
    = total_output_tokens (meter (self w))
      + received output_tokens o (next w) d.
Proof.
  intros H o d. subst o d.
  assert (accounted w w') as (_ & Hn & Hm).
  { revert H. apply (translate_steps (R:=accounted) json_loads lower).
    - intros w0 c _. repeat split; cbn; [lia|]. by rewrite Nat.sub_diag.
    - intros w0 g. repeat split; cbn; [lia|]. by rewrite Nat.sub_diag.
    - intros w0 s. repeat split; cbn; [lia|]. by rewrite Nat.sub_diag.
    - intros w0 e _. repeat split; cbn; [lia|]. by rewrite Nat.sub_diag.
    - intros e. apply steps_glossary_except.
      + intros w0 c. repeat split; cbn; [lia|]. by rewrite Nat.sub_diag.
      + intros w0 ev. repeat split; cbn; [lia|]. by rewrite Nat.sub_diag.
    - intros req mt uc. apply steps_api_call; [|apply api_loop_accounted].
      intros w0 e. repeat split; cbn; [lia|]. by rewrite Nat.sub_diag. }
  split; [done|]. split; [done|]. rewrite Hm.
  split; [apply tally_requests|apply tally_tokens].
Qed.

(** ** Counters, settings and the order of the calls *)

Section Engine.
Variable json_loads : str → option json.
Variable lower : str → str.

Local Ltac unfold_views :=
  unfold untouched, settings, rolling, modes, bumped, entered in *;
  cbn in *; simplify_eq.

Lemma unit_counters text (w : World) r w' :
  translate json_loads lower text w = (r, w') →
  let c := counters (self w) in
  let c' := counters (self w') in
  chunk_counter c' = chunk_counter c + 1
  ∧ ((pass1_only_count c' = pass1_only_count c + 1
      ∧ full_3pass_count c' = full_3pass_count c
      ∧ reviews_ok c' = reviews_ok c
      ∧ reviews_fixed c' = reviews_fixed c)
     ∨ (pass1_only_count c' = pass1_only_count c
        ∧ full_3pass_count c' = full_3pass_count c + 1
        ∧ ((reviews_ok c' = reviews_ok c
            ∧ reviews_fixed c' = reviews_fixed c)
           ∨ (reviews_ok c' = reviews_ok c + 1
              ∧ reviews_fixed c' = reviews_fixed c)
           ∨ (reviews_ok c' = reviews_ok c
              ∧ reviews_fixed c' = reviews_fixed c + 1)))).
Proof.
  intros H c c'. subst c c'. rewrite translate_dispatch in H.
  destruct (contains NL (strip text)); [|destruct (_ || _)].
  - apply translate_batch_spec in H. cbv zeta in H.
    destruct H as (w1 & g1 & g2 & g3 & c1 & out1 & _ & _ & _ & Hm & H).
    destruct H as [(_ & M1 & _)
                  |(tr & out2 & _ & _ &
                    [(_ & [(M1 & _)|(rv & _ & _ & M1 & _)])
                    |(rv & out3 & _ & _ & _ & M1 & _)])];
      rewrite M1 in Hm; unfold_views; split; try lia; right; lia.
  - apply translate_pass1_only_spec in H.
    destruct H as (w1 & g1 & c1 & out1 & _ & _ & _ & Hm & M1 & _).
    rewrite M1 in Hm. unfold_views. split; [lia|]. left. lia.
  - apply translate_3pass_spec in H.
    destruct H as (w1 & g1 & g2 & g3 & c1 & out1 & _ & _ & _ & Hm & H).
    destruct H as [(_ & M1 & _)
                  |(tr & out2 & _ &
                    [(_ & [(M1 & _)|(rv & _ & _ & M1 & _)])
                    |(rv & out3 & _ & _ & _ & M1 & _)])];
      rewrite M1 in Hm; unfold_views; split; try lia; right; lia.
Qed.

(** X2. Every call of [translate], batched or not and however it ends, adds
    one to the chunk counter and one to exactly one of the two mode
    counters.  Pass-1-only units leave the review counters alone; the other
    units add at most one review outcome, either an OK or a fix. *)
Theorem unit_is_counted_once text (w : World) r w' :
  translate json_loads lower text w = (r, w') →
  let c := counters (self w) in
  let c' := counters (self w') in
  chunk_counter c' = chunk_counter c + 1
  ∧ ((pass1_only_count c' = pass1_only_count c + 1
      ∧ full_3pass_count c' = full_3pass_count c
      ∧ reviews_ok c' = reviews_ok c
      ∧ reviews_fixed c' = reviews_fixed c)
     ∨ (pass1_only_count c' = pass1_only_count c
        ∧ full_3pass_count c' = full_3pass_count c + 1
        ∧ ((reviews_ok c' = reviews_ok c
            ∧ reviews_fixed c' = reviews_fixed c)
           ∨ (reviews_ok c' = reviews_ok c + 1
              ∧ reviews_fixed c' = reviews_fixed c)
           ∨ (reviews_ok c' = reviews_ok c
              ∧ reviews_fixed c' = reviews_fixed c + 1)))).
Proof. apply unit_counters. Qed.

Lemma unit_settings text (w : World) r w' :
  translate json_loads lower text w = (r, w') →
  profile (self w') = profile (self w)
  ∧ skip_review (self w') = skip_review (self w)
  ∧ context_flag (self w') = context_flag (self w).
Proof.
  intros H. apply translate_phases in H.
  destruct H as (w1 & pcs & Hs & _ & _ & _ & H).
  assert (settings (self w') = settings (self w1)) as Hs'.
  { destruct H as [(_ & ->)|(out & r0 & E & _)]; [done|].
    by apply maybe_update_spec in E as (? & _). }
  rewrite Hs in Hs'. unfold settings in Hs'. by simplify_eq.
Qed.

(** X3. [translate] never changes what the profile and the constructor
    set: the profile, the skip-review flag and the context flag after a
    unit are the ones from before. *)
Theorem translate_keeps_settings text (w : World) r w' :
  translate json_loads lower text w = (r, w') →
  profile (self w') = profile (self w)
  ∧ skip_review (self w') = skip_review (self w)
  ∧ context_flag (self w') = context_flag (self w).
Proof. apply unit_settings. Qed.

Lemma refresh_passes text x (w1 : World) r w' :
  w' = w1 ∨ ends_with_refresh json_loads lower text x w1 r w' →
  ∃ rs, calls (log w') = calls (log w1) ++ rs
        ∧ map (λ c, pass_of c.1) rs
          `sublist_of` [ContextRefresh; GlossaryRefresh].
Proof.
  intros [->|(r0 & E & _)].
  { exists []. rewrite app_nil_r. split; [done|]. apply sublist_nil_l. }
  apply maybe_update_precise in E as (c1 & c2 & C & Hc & Hg).
  exists (c1 ++ c2). split; [done|]. rewrite map_app.
  apply (sublist_app _ [ContextRefresh] _ [GlossaryRefresh]).
  - destruct Hc as [(-> & _)|(req & out & -> & Hp & _)];
      [apply sublist_nil_l|]. cbn. by rewrite Hp.
  - destruct Hg as [(-> & _)|(out & -> & _)]; [apply sublist_nil_l|done].
Qed.

Lemma unit_calls text (w : World) r w' :
  translate json_loads lower text w = (r, w') →
  ∃ c rest,
    calls (log w') = calls (log w) ++ c :: rest
    ∧ pass_of c.1 = Translate
    ∧ map (λ c, pass_of c.1) (c :: rest)
      `sublist_of` [Translate; Review; Refine; ContextRefresh; GlossaryRefresh].
Proof.
  intros H.
  assert (∃ w1 pcs x,
            calls (log w1) = calls (log w) ++ pcs
            ∧ (∃ c rest, pcs = c :: rest ∧ pass_of c.1 = Translate)
            ∧ map (λ c, pass_of c.1) pcs `sublist_of` [Translate; Review; Refine]
            ∧ (w' = w1 ∨ ends_with_refresh json_loads lower text x w1 r w'))
    as (w1 & pcs & x & C & Hhead & Hsub & Htail).
  { rewrite translate_dispatch in H.
    assert ([Translate; Review] `sublist_of` [Translate; Review; Refine])
      as S2 by (do 2 apply sublist_skip; apply sublist_nil_l).
    assert ([Translate] `sublist_of` [Translate; Review; Refine])
      as S1 by (apply sublist_skip; apply sublist_nil_l).
    destruct (contains NL (strip text)); [|destruct (_ || _)].
    - apply translate_batch_spec in H. cbv zeta in H.
      destruct H as (w1 & g1 & g2 & g3 & c1 & out1 & _ & _ & _ & _ & H).
      change (log (entered w)) with (log w) in H. exists w1.
      destruct H
        as [(C & _ & [(_ & _ & ->)|(tr & _ & _ & He)])
           |(tr & out2 & _ & _ &
             [(C & [(_ & _ & _ & ->)|(rv & _ & _ & _ & He)])
             |(rv & out3 & _ & _ & C & _ &
               [(_ & _ & ->)|(refined & _ & He)])])];
        eexists _, _; (split; [exact C|]); (split; [by eexists _, _|]);
        (split; [done|]); first [by left | right; exact He].
    - apply translate_pass1_only_spec in H.
      destruct H as (w1 & g1 & c1 & out1 & _ & _ & _ & _ & _ & C & H).
      change (log (entered w)) with (log w) in C. exists w1.
      destruct H as [(_ & _ & ->)|(tr & _ & He)];
        eexists _, _; (split; [exact C|]); (split; [by eexists _, _|]);
        (split; [done|]); first [by left | right; exact He].
    - apply translate_3pass_spec in H.
      destruct H as (w1 & g1 & g2 & g3 & c1 & out1 & _ & _ & _ & _ & H).
      change (log (entered w)) with (log w) in H. exists w1.
      destruct H
        as [(C & _ & _ & _ & ->)
           |(tr & out2 & _ &
             [(C & [(_ & _ & _ & ->)|(rv & _ & _ & _ & He)])
             |(rv & out3 & _ & _ & C & _ &
               [(_ & _ & ->)|(refined & _ & He)])])];
        eexists _, _; (split; [exact C|]); (split; [by eexists _, _|]);
        (split; [done|]); first [by left | right; exact He].
    Unshelve. all: exact []. }
  apply refresh_passes in Htail as (rs & Crs & Hrs).
  destruct Hhead as (c & rest & -> & Hc).
  exists c, (rest ++ rs). split; [by rewrite Crs, C, <- app_assoc|].
  split; [done|].
  change (c :: rest ++ rs) with ((c :: rest) ++ rs). rewrite map_app.
  by apply (sublist_app _ [Translate; Review; Refine] _
              [ContextRefresh; GlossaryRefresh]).
Qed.

(** X4. The completion calls of a unit follow the pipeline: the first is
    the translate call, and the calls are made in the order translate,
    review, refine, context refresh, glossary refresh, none of them more
    than once.  A unit therefore costs at most five completion calls. *)
Theorem calls_follow_the_pipeline text (w : World) r w' :
  translate json_loads lower text w = (r, w') →
  ∃ cs,
    calls (log w') = calls (log w) ++ cs
    ∧ (∃ c rest, cs = c :: rest ∧ pass_of c.1 = Translate)
    ∧ map (λ c, pass_of c.1) cs
      `sublist_of` [Translate; Review; Refine; ContextRefresh; GlossaryRefresh]
    ∧ (length cs ≤ 5)%nat.
Proof.
  intros H. apply unit_calls in H as (c & rest & C & Hc & Hall).
  exists (c :: rest). split; [done|]. split; [by exists c, rest|].
  split; [done|].
  apply sublist_length in Hall. by rewrite length_map in Hall.
Qed.

End Engine.

(** ** The glossary as a store *)

Lemma dict_update_union (g : gmap str str) (kvs : list (str * str)) :
  dict_update g kvs = list_to_map (reverse kvs) ∪ g.
Proof.
  revert g. induction kvs as [|[k v] kvs IH]; intros g.
  - unfold dict_update. cbn. by rewrite (left_id_L ∅ (∪)).
  - change (dict_update g ((k, v) :: kvs))
      with (dict_update (<[k:=v]> g) kvs).
    rewrite IH, reverse_cons, list_to_map_app. cbn.
    rewrite <- (assoc_L (∪)). f_equal.
    by rewrite insert_union_singleton_l, <- insert_empty.
Qed.

Lemma dict_update_lookup_Some (g : gmap str str) kvs k v :
  dict_update g kvs !! k = Some v → g !! k = Some v ∨ (k, v) ∈ kvs.
Proof.
  rewrite dict_update_union, lookup_union_Some_raw.
  intros [H|[_ H]]; [|by left]. right.
  apply elem_of_list_to_map_2 in H. by rewrite elem_of_reverse in H.
Qed.

Lemma dict_update_keeps (g : gmap str str) kvs k :
  is_Some (g !! k) → is_Some (dict_update g kvs !! k).
Proof.
  rewrite dict_update_union. intros [v Hv].
  destruct ((list_to_map (reverse kvs) : gmap str str) !! k) as [v'|] eqn:E.
  - exists v'. apply lookup_union_Some_raw. by left.
  - exists v. apply lookup_union_Some_raw. by right.
Qed.

(** X5. Merging term pairs into the glossary is a plain overwrite.  With
    distinct keys every merged pair is then found as merged; keys that are
    not merged keep their entry; and merging the same pairs a second time
    changes nothing. *)
Theorem glossary_merge_laws (g : gmap str str) (kvs : list (str * str)) :
  (NoDup kvs.*1 → ∀ k v, (k, v) ∈ kvs → dict_update g kvs !! k = Some v)
  ∧ (∀ k, k ∉ kvs.*1 → dict_update g kvs !! k = g !! k)
  ∧ dict_update (dict_update g kvs) kvs = dict_update g kvs
  ∧ ((∀ k v, (k, v) ∈ kvs → g !! k = Some v) → dict_update g kvs = g).
Proof.
  split; [|split; [|split]].
  - intros Hnd k v Hin. rewrite dict_update_union.
    apply lookup_union_Some_raw. left.
    apply elem_of_list_to_map_1; [|by rewrite elem_of_reverse].
    by rewrite fmap_reverse, reverse_Permutation.
  - intros k Hk. rewrite dict_update_union.
    apply lookup_union_r, not_elem_of_list_to_map_1.
    by rewrite fmap_reverse, elem_of_reverse.
  - rewrite !dict_update_union, (assoc_L (∪)). f_equal.
    apply (idemp_L (∪)).
  - intros Hin. rewrite dict_update_union. apply map_eq. intros k.
    destruct ((list_to_map (reverse kvs) : gmap str str) !! k) as [v|] eqn:E.
    + rewrite (lookup_union_Some_l _ _ _ v) by done.
      apply elem_of_list_to_map_2 in E. rewrite elem_of_reverse in E.
      symmetry. eauto.
    + by rewrite lookup_union_r.
Qed.

Lemma valid_terms_bounds (items : list (str * json)) :
  Forall (λ kv, len kv.1 < 100 ∧ len kv.2 < 200
                ∧ startswith MARKER kv.1 = false
                ∧ (kv.1, JStr kv.2) ∈ items) (valid_terms items).
Proof.
  apply Forall_forall. intros kv Hin. unfold valid_terms in Hin.
  apply list_elem_of_omap in Hin as ([k j] & Hitem & Hf). cbn in Hf.
  destruct j; try done.
  destruct (Z.ltb_spec (len k) 100); [|done].
  destruct (Z.ltb_spec (len s) 200); [|done].
  destruct (startswith MARKER k) eqn:E; [done|]. cbn in Hf. by simplify_eq.
Qed.

(** X6. A unit never removes a glossary entry, and whatever it adds or
    overwrites is a filtered pair: the key is shorter than 100 characters
    and does not start with the marker, the value is shorter than 200. *)
Theorem glossary_grows_within_bounds json_loads lower text (w : World) r w' :
  translate json_loads lower text w = (r, w') →
  (∀ k, is_Some (glossary (self w) !! k) → is_Some (glossary (self w') !! k))
  ∧ (∀ k v,
       glossary (self w') !! k = Some v →
       glossary (self w) !! k = Some v
       ∨ (len k < 100 ∧ len v < 200 ∧ startswith MARKER k = false)).
Proof.
  intros H. apply translate_phases in H.
  destruct H as (w1 & pcs & _ & Hr & _ & _ & H).
  assert (glossary (self w1) = glossary (self w)) as Eg
    by (unfold rolling in Hr; by simplify_eq).
  assert (glossary (self w') = glossary (self w)
          ∨ ∃ items, glossary (self w')
                     = dict_update (glossary (self w)) (valid_terms items))
    as [->|(items & ->)]; [|split; [done|intros; by left]|].
  { destruct H as [(_ & ->)|(x & r0 & E & _)]; [by left|].
    apply maybe_update_precise in E as (c1 & c2 & _ & _ & H).
    destruct H as [(_ & -> & _)|(out & _ & _ & -> & _)]; rewrite Eg;
      [by left|].
    unfold glossary_verdict. destruct out as [resp|e]; [|by left].
    destruct (unfence resp) as [doc|]; [|by left].
    destruct (json_loads doc) as [[| | | | |items]|]; try by left.
    right. by exists items. }
  split; [intros k; apply dict_update_keeps|].
  intros k v Hl. apply dict_update_lookup_Some in Hl as [?|Hin]; [by left|].
  right. pose proof (valid_terms_bounds items) as Hb.
  rewrite Forall_forall in Hb. apply Hb in Hin. cbn in Hin. tauto.
Qed.

(** ** Profiles *)

(** X7. Loading a profile merges its seed over the glossary: every seed
    pair other than the comment key is then found with the seed's value,
    also where the glossary had another value; every other key, the comment
    key included, keeps the entry it had.  A profile without a seed leaves
    the glossary as it was. *)
Theorem load_profile_seed basename pf (w : World) :
  let seed := default ∅ (pf_glossary_seed pf) in
  let w' := (load_profile basename (Some pf) w).2 in
  (∀ k v, seed !! k = Some v → k ≠ lit "_comment" →
          glossary (self w') !! k = Some v)
  ∧ (∀ k, seed !! k = None ∨ k = lit "_comment" →
          glossary (self w') !! k = glossary (self w) !! k)
  ∧ (pf_glossary_seed pf = None → glossary (self w') = glossary (self w)).
Proof.
  intros seed w'. subst w'. cbn. fold seed. split; [|split].
  - intros k v Hl Hne. apply lookup_union_Some_raw. left.
    by rewrite lookup_delete_ne.
  - intros k Hk. apply lookup_union_r.
    destruct Hk as [Hk| ->]; [|apply lookup_delete_eq].
    apply lookup_delete_None. by right.
  - intros E. subst seed. rewrite E. cbn.
    by rewrite delete_empty, (left_id_L ∅ (∪)).
Qed.

(** X8. Loading the same profile file twice in a row is the same as loading
    it once. *)
Theorem load_profile_idempotent basename pf (w : World) :
  let once := (load_profile basename (Some pf) w).2 in
  (load_profile basename (Some pf) once).2 = once.
Proof.
  intros once. subst once. unfold load_profile, update. cbn.
  f_equal. unfold with_glossary, with_profile. cbn. f_equal.
  - f_equal; by destruct pf as [[] [] [] [] [] [] [] []].
  - rewrite (assoc_L (∪)). f_equal. apply (idemp_L (∪)).
Qed.

Lemma keep_noun_tidy (n : str) :
  keep_noun n = true →
  len n < 100 ∧ Forall (λ p, startswith p n = false) skip_prefixes.
Proof.
  unfold keep_noun. intros [Hp Hl]%andb_true_iff.
  split; [by apply Z.ltb_lt|].
  apply negb_true_iff in Hp. apply Forall_forall. intros p Hin.
  destruct (startswith p n) eqn:E; [|done].
  assert (existsb (λ p, startswith p n) skip_prefixes = true) as Hex;
    [|congruence].
  apply existsb_exists. exists p. split; [by apply list_elem_of_In|done].
Qed.

(** X9. The protected nouns stay tidy through every run of profile loads
    and translations: each of them is shorter than 100 characters and
    starts with none of the junk prefixes, whatever the profile files
    hold. *)
Theorem protected_nouns_stay_tidy json_loads lower (ops : list op) (w : World) :
  tidy_nouns (self w) → tidy_nouns (self (run_ops json_loads lower ops w)).
Proof.
  revert w. induction ops as [|o ops IH]; intros w Hw; [done|].
  change (run_ops json_loads lower (o :: ops) w)
    with (run_ops json_loads lower ops (run_op json_loads lower o w)).
  apply IH. destruct o as [basename [pf|]|text]; unfold run_op.
  - unfold tidy_nouns. cbn. apply Forall_forall. intros n Hn.
    apply list_elem_of_In, filter_In in Hn as [_ Hn]. by apply keep_noun_tidy.
  - done.
  - destruct (translate json_loads lower text w) as [r w'] eqn:E.
    apply unit_settings in E as (Hp & _).
    unfold tidy_nouns. cbn. by rewrite Hp.
Qed.

(** X18. The counters tell a consistent story through every run of profile
    loads and translations: every unit is counted in exactly one of the two
    modes, also when it fails, so the two mode counters add up to the chunk
    counter; the reviews counted never exceed the units that went beyond
    pass 1; and the chunk counter has grown by the number of [translate]
    calls of the run. *)
Theorem counters_stay_consistent json_loads lower (ops : list op) (w : World) :
  consistent (self w) →
  let w' := run_ops json_loads lower ops w in
  consistent (self w')
  ∧ chunk_counter (counters (self w'))
    = chunk_counter (counters (self w)) + len (List.filter is_unit ops).
Proof.
  cbv zeta. revert w. induction ops as [|o ops IH]; intros w Hw.
  { split; [done|]. unfold len. cbn. lia. }
  change (run_ops json_loads lower (o :: ops) w)
    with (run_ops json_loads lower ops (run_op json_loads lower o w)).
  assert (consistent (self (run_op json_loads lower o w))
          ∧ chunk_counter (counters (self (run_op json_loads lower o w)))
            = chunk_counter (counters (self w))
              + (if is_unit o then 1 else 0)) as [Hc Hn].
  { destruct o as [basename [pf|]|text]; unfold run_op.
    - split; [exact Hw|cbn; lia].
    - split; [exact Hw|cbn; lia].
    - destruct (translate json_loads lower text w) as [r w1] eqn:E.
      apply unit_counters in E. cbv zeta in E. unfold consistent in *.
      cbn [snd is_unit]. lia. }
  destruct (IH _ Hc) as [Hc' Hn']. split; [exact Hc'|].
  rewrite Hn', Hn. unfold len. cbn [List.filter].
  destruct (is_unit o); cbn [length]; lia.
Qed.

(** ** More on strings *)

Lemma startswith_spec (p s : str) :
  startswith p s = true ↔ ∃ b, s = p ++ b.
Proof.
  revert s. induction p as [|x p IH]; intros s; simpl.
  - split; [by exists s|done].
  - destruct s as [|y s]; [split; [done|by intros [b ?]]|].
    destruct (N.eqb_spec x y) as [->|Hne].
    + rewrite IH. split; intros [b Hb]; exists b; by simplify_eq.
    + split; [done|]. intros [b Hb]. by simplify_eq.
Qed.

Lemma contains_nil (sub : str) : contains sub [] = startswith sub [].
Proof. unfold contains. by rewrite orb_false_r. Qed.

Lemma contains_cons (sub : str) x s :
  contains sub (x :: s) = startswith sub (x :: s) || contains sub s.
Proof. done. Qed.

Lemma contains_spec (sub s : str) :
  contains sub s = true ↔ ∃ a b, s = a ++ sub ++ b.
Proof.
  induction s as [|x s IH].
  - rewrite contains_nil, startswith_spec. split.
    + intros [b Hb]. by exists [], b.
    + intros (a & b & Hab). destruct a; [by exists b|done].
  - rewrite contains_cons, orb_true_iff, startswith_spec, IH. split.
    + intros [[b Hb]|(a & b & Hab)]; [by exists [], b|].
      exists (x :: a), b. by rewrite Hab.
    + intros (a & b & Hab). destruct a as [|y a].
      * left. by exists b.
      * right. exists a, b. by injection Hab.
Qed.

(** X10. A review is taken as a pass exactly when one of the three accepted
    sentinels occurs somewhere in it, whatever surrounds the sentinel; an
    empty review is not a pass. *)
Theorem quality_ok_iff_sentinel_occurs (review : str) :
  (_is_quality_ok review = true ↔
   ∃ tag a b, tag ∈ QUALITY_TAGS ∧ review = a ++ tag ++ b)
  ∧ _is_quality_ok [] = false.
Proof.
  split; [|done]. unfold _is_quality_ok. rewrite existsb_exists. split.
  - intros (tag & Hin & Hc). apply contains_spec in Hc as (a & b & ->).
    exists tag, a, b. split; [by apply list_elem_of_In|done].
  - intros (tag & a & b & Hin & ->). exists tag.
    split; [by apply list_elem_of_In|]. apply contains_spec. eauto.
Qed.

(** ** Splitting at a delimiter of several characters *)

Lemma split_go_skip (sep a s : str) :
  split_go sep (length a) (a ++ s) = split_go sep 0 s.
Proof. induction a as [|x a IH]; [done|]. exact IH. Qed.

Lemma split_sep_head (c : N) (sep' s : str) :
  split (c :: sep') ((c :: sep') ++ s) = [] :: split (c :: sep') s.
Proof.
  unfold split. change ((c :: sep') ++ s) with (c :: (sep' ++ s)).
  cbn [split_go].
  assert (startswith (c :: sep') (c :: sep' ++ s) = true) as ->
    by (apply startswith_spec; by exists s).
  f_equal. replace (length (c :: sep') - 1)%nat with (length sep')
    by (cbn [length]; lia).
  apply split_go_skip.
Qed.

Lemma split_absent_head (c : N) (sep' a s : str) :
  c ∉ a →
  split (c :: sep') (a ++ s)
  = match split (c :: sep') s with
    | seg :: rest => (a ++ seg) :: rest
    | [] => [a]
    end.
Proof.
  unfold split. induction a as [|x a IH]; intros Ha.
  - cbn [app]. destruct (split_go (c :: sep') 0 s) eqn:E; [|done].
    by apply split_go_nonempty in E.
  - apply not_elem_of_cons in Ha as [Hx Ha].
    change ((x :: a) ++ s) with (x :: (a ++ s)). cbn [split_go startswith].
    destruct (N.eqb_spec c x) as [->|_]; [done|].
    rewrite (IH Ha). by destruct (split_go (c :: sep') 0 s).
Qed.

Lemma split_absent (c : N) (sep' a : str) :
  c ∉ a → split (c :: sep') a = [a].
Proof.
  intros Ha. pose proof (split_absent_head c sep' a [] Ha) as H.
  rewrite app_nil_r in H. rewrite H. unfold split. cbn [split_go].
  by rewrite app_nil_r.
Qed.

(** ** A well-formed batch answer *)

Lemma batch_parts_cons (piece q : str) (rest : list str) :
  strip piece = q → plain_paragraph q →
  map (λ p, replace NL SP (strip p))
    (List.filter (λ p, truthy (strip p)) (piece :: rest))
  = q :: map (λ p, replace NL SP (strip p))
           (List.filter (λ p, truthy (strip p)) rest).
Proof.
  intros Hs (Hne & _ & _ & Hnl). cbn [List.filter]. rewrite Hs.
  destruct q as [|x q]; [done|]. cbn [truthy map]. rewrite Hs.
  f_equal. unfold replace, NL. rewrite split_char_free by done. done.
Qed.

Lemma batch_parts_join (qs : list str) (pre : str) :
  Forall plain_paragraph qs → Forall (λ x, is_space x = true) pre →
  batch_parts (pre ++ join (NL ++ PARA_DELIMITER ++ NL) qs) = qs.
Proof.
  assert (∀ a : str, Forall (λ x, is_space x = true) a → 124%N ∉ a) as Hsp.
  { intros a Ha Hin. eapply Forall_forall in Ha; [|exact Hin]. done. }
  assert (Forall (λ x, is_space x = true) NL) as HNL
    by (by repeat constructor).
  unfold batch_parts.
  change PARA_DELIMITER with (124%N :: lit "||PARA|||").
  intros Hqs. revert pre.
  induction Hqs as [|q qs Hq Hqs IH]; intros pre Hpre.
  - change (join _ []) with (@nil N). rewrite app_nil_r.
    rewrite split_absent by auto. cbn [List.filter].
    replace (strip pre) with (@nil N); [done|].
    symmetry. exact (strip_padding [] [] pre (Forall_nil_2 _) Hpre).
  - assert (strip (pre ++ q ++ NL) = q) as Hstrip.
    { rewrite strip_padding by done. apply Hq. }
    destruct qs as [|q2 qs].
    + change (join _ [q]) with q. rewrite split_absent.
      * rewrite (batch_parts_cons _ q); [done| |done].
        pose proof (strip_padding pre q [] Hpre (Forall_nil_2 _)) as H.
        rewrite app_nil_r in H. rewrite H. apply Hq.
      * rewrite not_elem_of_app. split; [auto|apply Hq].
    + change (join ?sep (q :: q2 :: qs))
        with (q ++ sep ++ join sep (q2 :: qs)).
      set (J := join _ (q2 :: qs)) in *.
      replace (pre ++ q ++ (NL ++ (124%N :: lit "||PARA|||") ++ NL) ++ J)
        with ((pre ++ q ++ NL) ++ (124%N :: lit "||PARA|||") ++ (NL ++ J))
        by (by rewrite <- !app_assoc).
      rewrite split_absent_head, split_sep_head.
      * rewrite app_nil_r, (batch_parts_cons _ q) by done.
        f_equal. by apply IH.
      * rewrite !not_elem_of_app. split_and!; [auto|apply Hq|auto].
Qed.

(** X11. An answer to a batch that has one plain paragraph per input
    paragraph, separated as the request was, is returned paragraph by
    paragraph, joined by newlines, and nothing is merged or padded. *)
Theorem well_formed_batch_answer (paragraphs qs : list str) :
  length qs = length paragraphs →
  Forall plain_paragraph qs →
  reassemble paragraphs (join (NL ++ PARA_DELIMITER ++ NL) qs)
  = (join NL qs, None).
Proof.
  intros Hlen Hqs. unfold reassemble.
  rewrite <- (app_nil_l (join _ qs)), batch_parts_join by done.
  unfold len. rewrite Hlen, Z.eqb_refl. done.
Qed.

(** X12. A batch answer that is blank gives back the source text as it
    was, every paragraph padded from the original, with the padding
    notice. *)
Theorem blank_batch_answer_returns_source (text translation : str) :
  Forall (λ x, is_space x = true) translation →
  reassemble (split NL text) translation
  = (text, Some (PaddedParas 0 (len (split NL text)))).
Proof.
  intros Hblank. unfold reassemble.
  pose proof (batch_parts_join [] translation (Forall_nil_2 _) Hblank) as Hp.
  change (join _ []) with (@nil N) in Hp. rewrite app_nil_r in Hp.
  rewrite Hp. clear Hp.
  assert (0 < len (split NL text)) as Hn.
  { unfold len, split. pose proof (split_go_nonempty NL 0 text).
    destruct (split_go NL 0 text); [done|]. cbn [length]. lia. }
  change (len []) with 0.
  destruct (Z.eqb_spec 0 (len (split NL text))) as [|_]; [lia|].
  destruct (Z.gtb_spec 0 (len (split NL text))) as [|_]; [lia|].
  unfold len. rewrite (slice_from_nonneg 0), slice_to_nonneg.
  cbn [app]. rewrite firstn_all, drop_0.
  unfold NL. by rewrite join_split_char.
Qed.

(** ** The code fence around a glossary reply *)

Lemma startswith_length (p s : str) :
  startswith p s = true → (length p ≤ length s)%nat.
Proof.
  intros [b ->]%startswith_spec. rewrite length_app. lia.
Qed.

Lemma before_last_short (sep s : str) :
  (length s < length sep)%nat → before_last sep s = None.
Proof.
  induction s as [|x s IH]; intros Hlen.
  - destruct sep; [cbn in Hlen; lia|done].
  - cbn [before_last]. rewrite IH by (cbn in Hlen; lia).
    destruct (startswith sep (x :: s)) eqn:E; [|done].
    apply startswith_length in E. lia.
Qed.

Lemma before_last_app_sep (sep body : str) :
  sep ≠ [] → before_last sep (body ++ sep) = Some body.
Proof.
  intros Hsep. induction body as [|x body IH].
  - destruct sep as [|c sep']; [done|]. cbn [app before_last].
    rewrite before_last_short by (cbn; lia).
    assert (startswith (c :: sep') (c :: sep') = true) as ->; [|done].
    apply startswith_spec. exists []. by rewrite app_nil_r.
  - change ((x :: body) ++ sep) with (x :: (body ++ sep)).
    cbn [before_last]. by rewrite IH.
Qed.

Lemma split_once_char (c : N) (a s : str) :
  c ∉ a → split_once [c] (a ++ c :: s) = Some (a, s).
Proof.
  induction a as [|x a IH]; intros Ha.
  - cbn [app split_once]. by rewrite startswith_char, N.eqb_refl.
  - apply not_elem_of_cons in Ha as [Hx Ha].
    change ((x :: a) ++ c :: s) with (x :: (a ++ c :: s)).
    cbn [split_once]. rewrite startswith_char.
    destruct (N.eqb_spec c x) as [->|_]; [done|]. by rewrite IH.
Qed.

Lemma split_once_absent (c : N) (s : str) :
  c ∉ s → split_once [c] s = None.
Proof.
  induction s as [|x s IH]; intros Hs; [done|].
  apply not_elem_of_cons in Hs as [Hx Hs].
  cbn [split_once]. rewrite startswith_char.
  destruct (N.eqb_spec c x) as [->|_]; [done|]. by rewrite IH.
Qed.

Lemma rstrip_snoc (s : str) (y : N) :
  is_space y = false → rstrip (s ++ [y]) = s ++ [y].
Proof.
  intros Hy. unfold rstrip. rewrite reverse_snoc. cbn [lstrip].
  rewrite Hy. by rewrite reverse_cons, reverse_involutive.
Qed.

Lemma rstrip_after (p s : str) :
  rstrip p = p → rstrip (p ++ s) = p ++ rstrip s.
Proof.
  intros Hp. unfold rstrip in *. rewrite reverse_app, lstrip_app.
  destruct (lstrip (reverse s)) as [|x l] eqn:E.
  - rewrite Hp. by rewrite reverse_nil, app_nil_r.
  - by rewrite reverse_app, reverse_involutive.
Qed.

Lemma rstrip_subseteq (s : str) (x : N) : x ∈ rstrip s → x ∈ s.
Proof.
  unfold rstrip. rewrite elem_of_reverse. intros Hx.
  rewrite <- elem_of_reverse.
  eapply elem_of_suffix; [exact Hx | apply lstrip_suffix].
Qed.

Lemma strip_core (x : N) (m : str) (y : N) :
  is_space x = false → is_space y = false →
  strip (x :: m ++ [y]) = x :: m ++ [y].
Proof.
  intros Hx Hy. unfold strip. cbn [lstrip]. rewrite Hx.
  by apply (rstrip_snoc (x :: m) y).
Qed.

(** X13. A glossary reply wrapped in a code fence, with any tag after the
    opening fence and any whitespace around the whole, is unwrapped to
    exactly what stands between the first line break and the closing fence;
    a fenced reply with no line break at all cannot be unwrapped. *)
Theorem unfence_fenced_reply (a tag body b : str) :
  Forall (λ x, is_space x = true) a →
  Forall (λ x, is_space x = true) b →
  10%N ∉ tag →
  unfence (a ++ (lit "```" ++ tag ++ NL ++ body ++ lit "```") ++ b)
  = Some body
  ∧ unfence (a ++ (lit "```" ++ tag) ++ b) = None.
Proof.
  intros Ha Hb Htag. unfold unfence.
  change (lit "```") with [96%N; 96%N; 96%N].
  split; rewrite (strip_padding a _ b) by done.
  - assert (strip ([96; 96; 96] ++ tag ++ NL ++ body ++ [96; 96; 96])%N
            = ([96; 96; 96] ++ tag ++ NL ++ body ++ [96; 96; 96])%N) as ->.
    { assert (([96; 96; 96] ++ tag ++ NL ++ body ++ [96; 96; 96])%N
              = (96 :: ([96; 96] ++ tag ++ NL ++ body ++ [96; 96]) ++ [96])%N)
        as -> by (cbn [app]; by rewrite <- !app_assoc).
      by apply strip_core. }
    cbn [app startswith N.eqb Pos.eqb].
    change (96 :: 96 :: 96 :: tag ++ NL ++ body ++ [96; 96; 96])%N
      with (([96; 96; 96] ++ tag) ++ 10 :: (body ++ [96; 96; 96]))%N.
    unfold NL. rewrite split_once_char.
    + unfold rsplit_once_head. by rewrite before_last_app_sep.
    + rewrite not_elem_of_app. split; [|done].
      rewrite !not_elem_of_cons. split_and!; try done. apply not_elem_of_nil.
  - assert (strip ([96; 96; 96] ++ tag)%N
            = ([96; 96; 96] ++ rstrip tag)%N) as ->.
    { unfold strip. cbn [app lstrip is_space]. cbn.
      by apply (rstrip_after [96; 96; 96]%N tag). }
    cbn [app startswith N.eqb Pos.eqb].
    unfold NL. rewrite split_once_absent; [done|].
    rewrite !not_elem_of_cons. split_and!; try done.
    intros ?%rstrip_subseteq. done.
Qed.

(** ** Attempts and back-off *)

Lemma attempts_app (l1 l2 : list event) :
  attempts (l1 ++ l2) = (attempts l1 + attempts l2)%nat.
Proof. unfold attempts. by rewrite List.filter_app, length_app. Qed.

Lemma slept_app (l1 l2 : list event) : slept (l1 ++ l2) = slept l1 + slept l2.
Proof.
  unfold slept. rewrite foldr_app.
  induction l1 as [|ev l1 IH]; [done|]. cbn. destruct ev; lia.
Qed.

Global Instance paced_preorder : PreOrder paced.
Proof.
  split.
  - intros w. exists []. rewrite app_nil_r. cbn. repeat split; lia.
  - intros w1 w2 w3 (l1 & L1 & N1 & A1 & S1) (l2 & L2 & N2 & A2 & S2).
    exists (l1 ++ l2). rewrite L2, L1, app_assoc. split; [done|].
    rewrite attempts_app, slept_app, calls_app, length_app.
    repeat split; lia.
Qed.

Lemma backoff_bounds lower (a : nat) e :
  (a < 4)%nat → 0 ≤ backoff lower a e ≤ 5 * 2 ^ Z.of_nat a.
Proof.
  intros Ha. unfold backoff, backoff_base.
  destruct (looks_rate_limited lower e);
    destruct a as [|[|[|[|a]]]]; try lia; cbn; lia.
Qed.

(** The attempts and the sleeps of the loop, with [todo] of its five
    iterations left. *)
Lemma api_loop_paced lower (todo : nat) (w : World) r w' :
  (todo ≤ 5)%nat →
  api_loop lower 5 todo w = (r, w') →
  ∃ l, log w' = log w ++ l
       ∧ calls l = []
       ∧ next w' = (next w + attempts l)%nat
       ∧ (attempts l ≤ todo)%nat
       ∧ 0 ≤ slept l
       ∧ ((1 ≤ todo)%nat → slept l + 5 * 2 ^ Z.of_nat (5 - todo) ≤ 80).
Proof.
  revert w. induction todo as [|todo IH]; intros w Hle H.
  - cbn in H. unfold raise in H. simplify_eq. exists [].
    rewrite app_nil_r. cbn. repeat split; lia.
  - assert (5 * 2 ^ Z.of_nat (5 - S todo) ≤ 80) as Hpow.
    { destruct todo as [|[|[|[|[|todo]]]]]; try lia; cbn; lia. }
    destruct (outcome (oracle w (next w))) as [s|e] eqn:Ho.
    + rewrite (api_loop_success _ _ _ _ _ Ho) in H. simplify_eq.
      exists [Create (5 - S todo)]. cbn in Hpow |- *. repeat split; lia.
    + destruct (decide (5 - S todo < 5 - 1)%nat) as [Hlt|Hlt].
      * rewrite (api_loop_retry _ _ _ _ _ Ho Hlt) in H.
        apply IH in H as (l & L & C & N & A & S0 & S1); [|lia].
        cbn [log next] in L, N.
        pose proof (backoff_bounds lower (5 - S todo) e ltac:(lia)) as Hb.
        exists ([Create (5 - S todo); Sleep (backoff lower (5 - S todo) e)]
                ++ l).
        rewrite L, <- !app_assoc. split; [done|].
        rewrite attempts_app, slept_app, calls_app, C.
        change (attempts [Create _; Sleep _]) with 1%nat.
        change (slept [Create ?a; Sleep ?s]) with (s + 0).
        split; [done|]. split; [lia|]. split; [lia|]. split; [lia|].
        intros _. specialize (S1 ltac:(lia)).
        replace (Z.of_nat (5 - todo)) with (Z.of_nat (5 - S todo) + 1) in S1
          by lia.
        rewrite Z.pow_add_r in S1 by lia. lia.
      * rewrite (api_loop_give_up _ _ _ _ _ Ho Hlt) in H. simplify_eq.
        exists [Create (5 - S todo)]. cbn in Hpow |- *. repeat split; lia.
Qed.

Lemma api_call_paced lower req mt uc :
  steps paced (_api_call lower req mt RETRIES uc).
Proof.
  intros w r w' H. unfold _api_call, recorded, RETRIES in H.
  destruct (api_loop lower 5 5 w) as [r1 w1] eqn:E. simplify_eq.
  apply api_loop_paced in E as (l & L & C & N & A & S0 & S1); [|lia].
  specialize (S1 ltac:(lia)). change (5 * 2 ^ Z.of_nat (5 - 5)) with 5 in S1.
  exists (l ++ [Called req mt uc r]). cbn [log next].
  rewrite L, app_assoc. split; [done|].
  rewrite attempts_app, slept_app, calls_app, C.
  change (attempts [Called _ _ _ _]) with 0%nat.
  change (slept [Called _ _ _ _]) with 0.
  change (length ([] ++ calls [Called req mt uc r])) with 1%nat.
  repeat split; lia.
Qed.

(** X14. One call of [translate] makes at most 25 attempts on the client
    and sleeps at most 375 seconds between them: five attempts and 75
    seconds of back-off for each of its completion calls, of which there
    are at most five.  Every attempt consumes one answer of the client. *)
Theorem unit_attempts_and_backoff json_loads lower text (w : World) r w' :
  translate json_loads lower text w = (r, w') →
  ∃ l, log w' = log w ++ l
       ∧ next w' = (next w + attempts l)%nat
       ∧ (attempts l ≤ 5 * length (calls l))%nat
       ∧ 0 ≤ slept l ≤ 75 * Z.of_nat (length (calls l))
       ∧ (attempts l ≤ 25)%nat
       ∧ slept l ≤ 375.
Proof.
  intros H.
  assert (paced w w') as (l & L & N & A & S0).
  { revert H. apply (translate_steps (R:=paced) json_loads lower).
    - intros w0 c _. exists []. cbn. rewrite app_nil_r. repeat split; lia.
    - intros w0 g. exists []. cbn. rewrite app_nil_r. repeat split; lia.
    - intros w0 s. exists []. cbn. rewrite app_nil_r. repeat split; lia.
    - intros w0 wn _. exists [Warn wn]. cbn. repeat split; lia.
    - intros e. unfold glossary_except, count_glossary_failure.
      assert (∀ wn, steps paced (emit (Warn wn))) as Hw.
      { intros wn. apply steps_emit. intros w0. exists [Warn wn]. cbn.
        repeat split; lia. }
      repeat first [ apply steps_bind | apply steps_get | apply steps_ret
                   | apply Hw
                   | lazymatch goal with |- steps _ _ => fail | _ => intro end
                   | apply steps_update; intros w0; exists []; cbn;
                     rewrite app_nil_r; repeat split; lia
                   | match goal with
                     | |- steps _ (if ?b then _ else _) => destruct b
                     end ].
    - apply api_call_paced. }
  apply unit_calls in H as (c & rest & C & _ & Hall).
  rewrite L, calls_app in C. apply app_inv_head in C.
  apply sublist_length in Hall. rewrite length_map, <- C in Hall.
  cbn [length] in Hall.
  exists l. split_and!; try done; lia.
Qed.

(** ** The source language *)

Lemma language_names_listed :
  NoDup LANGUAGE_NAMES.*1 ∧ Forall (λ kv, kv.2 ≠ []) LANGUAGE_NAMES.
Proof.
  split.
  - apply (bool_decide_unpack _). by vm_compute.
  - apply (bool_decide_unpack _). by vm_compute.
Qed.

(** X15. The source language the constructor stores is never empty.  A
    missing, empty or [auto] code gives English; a code whose lower-case
    form is in the table gives the table's name; anything else is taken as
    the name itself. *)
Theorem resolve_source_lang_cases (lower : str → str)
    (source_lang : option str) :
  _resolve_source_lang lower source_lang ≠ []
  ∧ (source_lang = None ∨ source_lang = Some [] ∨ source_lang = Some (lit "auto")
     → _resolve_source_lang lower source_lang = lit "English")
  ∧ (∀ s name,
       source_lang = Some s → s ≠ [] → s ≠ lit "auto" →
       (lower s, name) ∈ LANGUAGE_NAMES →
       _resolve_source_lang lower source_lang = name)
  ∧ (∀ s,
       source_lang = Some s → s ≠ [] → s ≠ lit "auto" →
       lower s ∉ LANGUAGE_NAMES.*1 →
       _resolve_source_lang lower source_lang = s).
Proof.
  destruct language_names_listed as [Hnd Hne].
  unfold _resolve_source_lang. split; [|split; [|split]].
  - destruct source_lang as [s|]; [|done].
    destruct s as [|c s]; [done|]. cbn [truthy negb orb].
    case_bool_decide; [done|].
    destruct (_ !! lower (c :: s)) as [name|] eqn:E; [|done]. cbn.
    apply elem_of_list_to_map_2 in E.
    eapply Forall_forall in Hne; [|exact E]. done.
  - intros [->|[->| ->]]; done.
  - intros s name -> Hs Hauto Hin. destruct s as [|c s]; [done|].
    cbn [truthy negb orb]. rewrite bool_decide_eq_false_2 by done.
    by rewrite (elem_of_list_to_map_1 _ _ _ Hnd Hin).
  - intros s -> Hs Hauto Hin. destruct s as [|c s]; [done|].
    cbn [truthy negb orb]. rewrite bool_decide_eq_false_2 by done.
    by rewrite (not_elem_of_list_to_map_1 _ _ Hin).
Qed.

(** ** Text files, line by line *)

Lemma lstrip_head (s : str) :
  lstrip s = [] ∨ ∃ x t, lstrip s = x :: t ∧ is_space x = false.
Proof.
  induction s as [|x s IH]; [by left|]. cbn [lstrip].
  destruct (is_space x) eqn:E; [exact IH|]. right. by exists x, s.
Qed.

Lemma rstrip_head (x : N) (t : str) :
  is_space x = false → ∃ t', rstrip (x :: t) = x :: t'.
Proof.
  intros Hx. unfold rstrip. rewrite reverse_cons, lstrip_app.
  destruct (lstrip (reverse t)) as [|y l].
  - exists []. cbn [lstrip]. by rewrite Hx.
  - exists (reverse (y :: l)). by rewrite reverse_app.
Qed.

Lemma rstrip_idem (s : str) : rstrip (rstrip s) = rstrip s.
Proof.
  unfold rstrip. rewrite reverse_involutive. f_equal.
  destruct (lstrip_head (reverse s)) as [->|(x & t & -> & Hx)]; [done|].
  cbn [lstrip]. by rewrite Hx.
Qed.

Lemma strip_idem (s : str) : strip (strip s) = strip s.
Proof.
  unfold strip. destruct (lstrip_head s) as [->|(x & t & -> & Hx)]; [done|].
  destruct (rstrip_head x t Hx) as [t' E]. rewrite E. cbn [lstrip].
  rewrite Hx, <- E. apply rstrip_idem.
Qed.

Lemma keepends_lines (c : N) (pieces : list str) :
  Forall (λ p, c ∉ p) pieces →
  Forall (λ l, c ∉ strip l) (keepends pieces).
Proof.
  induction 1 as [|p pieces Hp _ IH]; [done|].
  assert (c ∉ strip p) as Hs by (by intros ?%strip_subseteq).
  cbn [keepends]. destruct pieces as [|q pieces].
  - destruct (truthy p); [|done]. by apply Forall_singleton.
  - apply Forall_cons. split; [|exact IH].
    pose proof (strip_padding [] p NL (Forall_nil_2 _)) as E.
    cbn [app] in E. rewrite E; [done|]. by repeat constructor.
Qed.

Lemma elem_of_join (sep : str) (l : list str) (p : str) (x : N) :
  p ∈ l → x ∈ p → x ∈ join sep l.
Proof.
  intros Hp Hx. induction l as [|q l IH]; [by apply elem_of_nil in Hp|].
  destruct l as [|q' l].
  - apply list_elem_of_singleton in Hp as ->. exact Hx.
  - change (join sep (q :: q' :: l)) with (q ++ sep ++ join sep (q' :: l)).
    rewrite !elem_of_app. apply elem_of_cons in Hp as [->|Hp]; [by left|].
    right. right. by apply IH.
Qed.

Lemma split_char_subseteq (c : N) (s p : str) (x : N) :
  p ∈ split [c] s → x ∈ p → x ∈ s.
Proof.
  intros Hp Hx. rewrite <- (join_split_char c s). by eapply elem_of_join.
Qed.

Lemma universal_newlines_free (s : str) : 13%N ∉ universal_newlines s.
Proof.
  assert (∀ n (s : str), (length s ≤ n)%nat → 13%N ∉ universal_newlines s)
    as H; [|by apply (H (length s))].
  clear s. induction n as [|n IH]; intros s Hn.
  { destruct s; [apply not_elem_of_nil|cbn in Hn; lia]. }
  destruct s as [|c s]; [apply not_elem_of_nil|]. cbn in Hn.
  cbn [universal_newlines]. destruct (N.eqb_spec c 13) as [->|Hc].
  - destruct s as [|d s].
    + rewrite not_elem_of_cons. split; [done|apply not_elem_of_nil].
    + destruct (d =? 10)%N; rewrite not_elem_of_cons;
        (split; [done|]); apply IH; cbn in *; lia.
  - rewrite not_elem_of_cons. split; [done|]. apply IH. lia.
Qed.

(** The lines of a text file are units of their own: stripped, not empty,
    and on one line. *)
Lemma txt_lines_plain (content : str) (test_mode : bool) (test_num : Z) :
  Forall (λ l, l ≠ [] ∧ strip l = l ∧ (10%N ∉ l) ∧ (13%N ∉ l))
    (txt_lines content test_mode test_num).
Proof.
  assert (Forall (λ l, l ≠ [] ∧ strip l = l ∧ (10%N ∉ l) ∧ (13%N ∉ l))
            (map strip (List.filter (λ l, truthy (strip l))
                          (readlines content)))) as H.
  { apply Forall_forall. intros l Hl.
    apply list_elem_of_fmap in Hl as (l0 & -> & Hl0).
    apply list_elem_of_In, filter_In in Hl0 as [Hin Ht].
    apply list_elem_of_In in Hin.
    split; [by destruct (strip l0)|]. split; [apply strip_idem|]. split.
    - pose proof (keepends_lines 10 _
                    (split_char_segments 10 (universal_newlines content)))
        as Hk.
      eapply Forall_forall in Hk; [exact Hk|exact Hin].
    - assert (Forall (λ p, 13%N ∉ p)
                (split NL (universal_newlines content))) as Hfree.
      { apply Forall_forall. intros p Hp Hx.
        apply (universal_newlines_free content).
        by apply (split_char_subseteq 10 _ p). }
      pose proof (keepends_lines 13 _ Hfree) as Hk.
      eapply Forall_forall in Hk; [exact Hk|exact Hin]. }
  unfold txt_lines. destruct test_mode; [|exact H].
  unfold slice_to. destruct (_ <? 0); by apply Forall_take.
Qed.

Lemma submitted_app (a b : list (request * result str)) :
  submitted (a ++ b) = submitted a ++ submitted b.
Proof. apply omap_app. Qed.

Lemma submitted_refresh (cs : list (request * result str)) :
  Forall is_refresh cs → submitted cs = [].
Proof.
  induction 1 as [|[req out] cs Hc _ IH]; [done|].
  destruct Hc as [Hc|Hc], req; try done; exact IH.
Qed.

Section Lines.
Variable json_loads : str → option json.
Variable lower : str → str.

(** A unit on one line is submitted once, as it is. *)
Lemma single_unit text (w : World) r w' :
  contains NL (strip text) = false →
  translate json_loads lower text w = (r, w') →
  chunk_counter (counters (self w')) = chunk_counter (counters (self w)) + 1
  ∧ ∃ cs, calls (log w') = calls (log w) ++ cs
          ∧ submitted cs = [(text, None)].
Proof.
  intros Hnl H. rewrite translate_dispatch, Hnl in H.
  assert (∀ x (w1 : World) pcs,
            calls (log w1) = calls (log w) ++ pcs →
            submitted pcs = [(text, None)] →
            w' = w1 ∨ ends_with_refresh json_loads lower text x w1 r w' →
            ∃ cs, calls (log w') = calls (log w) ++ cs
                  ∧ submitted cs = [(text, None)]) as Hend.
  { intros x w1 pcs C Hs [->|He]; [by exists pcs|].
    apply ends_with_refresh_calls in He as (rs & Crs & Hrs).
    exists (pcs ++ rs). rewrite Crs, C, <- app_assoc. split; [done|].
    by rewrite submitted_app, Hs, (submitted_refresh rs Hrs). }
  destruct (_ || _).
  - apply translate_pass1_only_spec in H.
    destruct H as (w1 & g1 & c1 & out1 & _ & _ & _ & Hm & M1 & C & H).
    change (log (entered w)) with (log w) in C. split.
    + pose proof (eq_trans Hm M1) as Hc.
      unfold modes, bumped, entered in Hc. cbn in Hc. simplify_eq. lia.
    + destruct H as [(_ & _ & ->)|(tr & _ & He)];
        (eapply Hend; [exact C|done|]); first [by left|right; exact He].
  - apply translate_3pass_spec in H.
    destruct H as (w1 & g1 & g2 & g3 & c1 & out1 & _ & _ & _ & Hm & H).
    change (log (entered w)) with (log w) in H.
    destruct H as [(C & M1 & _ & _ & ->)
                  |(tr & out2 & _ &
                    [(C & [(M1 & _ & _ & ->)|(rv & _ & _ & M1 & He)])
                    |(rv & out3 & _ & _ & C & M1 &
                      [(_ & _ & ->)|(refined & _ & He)])])];
      (split; [pose proof (eq_trans Hm M1) as Hc;
               unfold modes, bumped, entered in Hc; cbn in Hc;
               simplify_eq; lia|]);
      (eapply Hend; [exact C|done|]); first [by left|right; exact He].
  Unshelve. all: exact [].
Qed.

Lemma translate_lines_spec (lines : list str) (w : World) translated w' :
  Forall (λ l, contains NL (strip l) = false) lines →
  translate_lines json_loads lower lines w = (Ok translated, w') →
  translated_in_turn json_loads lower lines translated w w'
  ∧ length translated = length lines
  ∧ chunk_counter (counters (self w'))
    = chunk_counter (counters (self w)) + len lines
  ∧ ∃ cs, calls (log w') = calls (log w) ++ cs
          ∧ submitted cs = map (λ l, (l, None)) lines.
Proof.
  intros Hl. revert w translated.
  induction Hl as [|line lines Hline _ IH]; intros w translated H.
  - cbn in H. unfold ret in H. simplify_eq. split; [done|]. split; [done|].
    split; [unfold len; cbn; lia|]. exists []. by rewrite app_nil_r.
  - cbn [translate_lines] in H.
    apply bind_inv in H as [(result & w1 & H1 & H)|(e & _ & ?)]; [|done].
    apply bind_inv in H as [(rest & w2 & H2 & H)|(e & _ & ?)]; [|done].
    unfold ret in H. simplify_eq.
    pose proof (single_unit _ _ _ _ Hline H1) as (N1 & c1 & C1 & S1).
    apply IH in H2 as (T2 & L2 & N2 & c2 & C2 & S2).
    split; [by exists w1|].
    split; [cbn; by rewrite L2|].
    split; [unfold len in *; cbn [length]; lia|].
    exists (c1 ++ c2). rewrite C2, C1, <- app_assoc. split; [done|].
    by rewrite submitted_app, S1, S2.
Qed.

(** X16. [_translate_txt] translates the non-blank lines of the file
    (the first [test_num] of them in test mode; a line ends at a line feed,
    at a carriage return, or at both in a row), each stripped and as a unit
    of its own, never as a batch.  When it returns, what it writes pairs
    every line, in the order of the file, with what [translate] returned
    for that line when the lines were translated one after the other; it
    has made one call of [translate] and submitted one translation request
    per line. *)
Theorem translate_txt_line_by_line content test_mode test_num
    (w : World) out w' :
  _translate_txt json_loads lower content test_mode test_num w
  = (Ok out, w') →
  let lines := txt_lines content test_mode test_num in
  Forall (λ l, l ≠ [] ∧ strip l = l ∧ (10%N ∉ l) ∧ (13%N ∉ l)) lines
  ∧ chunk_counter (counters (self w'))
    = chunk_counter (counters (self w)) + len lines
  ∧ ∃ translated cs,
      translated_in_turn json_loads lower lines translated w w'
      ∧ length translated = length lines
      ∧ out = bilingual lines translated
      ∧ calls (log w') = calls (log w) ++ cs
      ∧ submitted cs = map (λ l, (l, None)) lines.
Proof.
  intros H lines. pose proof (txt_lines_plain content test_mode test_num) as Hp.
  fold lines in Hp. split; [exact Hp|].
  unfold _translate_txt in H. fold lines in H.
  apply bind_inv in H as [(translated & w1 & H1 & H)|(e & _ & ?)]; [|done].
  unfold ret in H. simplify_eq.
  apply translate_lines_spec in H1 as (T & L & Nc & cs & C & S1).
  - split; [exact Nc|]. by exists translated, cs.
  - eapply Forall_impl; [exact Hp|]. intros l (_ & Hs & Hnl & _). cbn in *.
    rewrite Hs. by apply contains_char_false.
Qed.

End Lines.

(** ** Warnings of the glossary refresh *)

Lemma rationed_weaken (f0 f0' f1 f1' : Z) ev :
  f0' ≤ f0 → f1 ≤ f1' → rationed f0 f1 ev → rationed f0' f1' ev.
Proof.
  intros H0 H1. destruct ev as [| | |wn]; try done.
  destruct wn; cbn; lia.
Qed.

Global Instance hushed_preorder : PreOrder hushed.
Proof.
  split.
  - intros w. split; [lia|]. exists []. by rewrite app_nil_r.
  - intros w1 w2 w3 (F1 & l1 & L1 & A1) (F2 & l2 & L2 & A2).
    split; [lia|]. exists (l1 ++ l2). rewrite L2, L1, app_assoc.
    split; [done|]. apply Forall_app. split.
    + eapply Forall_impl; [exact A1|]. intros ev.
      apply rationed_weaken; lia.
    + eapply Forall_impl; [exact A2|]. intros ev.
      apply rationed_weaken; lia.
Qed.

Lemma hushed_same (w w' : World) l :
  failures w' = failures w → log w' = log w ++ l →
  Forall (λ ev, ∀ wn, ev = Warn wn → glossary_warning wn = false) l →
  hushed w w'.
Proof.
  intros F L A. split; [lia|]. exists l. split; [done|].
  eapply Forall_impl; [exact A|]. intros ev Hev.
  destruct ev as [| | |wn]; try done.
  specialize (Hev wn eq_refl). by destruct wn.
Qed.

Lemma api_loop_hushed lower retries todo (w : World) r w' :
  api_loop lower retries todo w = (r, w') →
  failures w' = failures w
  ∧ ∃ l, log w' = log w ++ l
         ∧ Forall (λ ev, ∀ wn, ev = Warn wn → glossary_warning wn = false) l.
Proof.
  revert w. induction todo as [|todo IH]; intros w H.
  - cbn in H. unfold raise in H. simplify_eq. split; [done|].
    exists []. by rewrite app_nil_r.
  - destruct (outcome (oracle w (next w))) as [s|e] eqn:Ho.
    + rewrite (api_loop_success _ _ _ _ _ Ho) in H. simplify_eq.
      split; [done|]. eexists. split; [done|]. by apply Forall_singleton.
    + destruct (decide (retries - S todo < retries - 1)%nat) as [Hlt|Hlt].
      * rewrite (api_loop_retry _ _ _ _ _ Ho Hlt) in H.
        apply IH in H as (F & l & L & A). split; [exact F|].
        cbn [log] in L. rewrite <- !app_assoc in L.
        eexists. split; [exact L|].
        repeat (apply Forall_app; split); try done;
          by apply Forall_singleton.
      * rewrite (api_loop_give_up _ _ _ _ _ Ho Hlt) in H. simplify_eq.
        split; [done|]. eexists. split; [done|]. by apply Forall_singleton.
Qed.

Lemma api_call_hushed lower req mt retries uc :
  steps hushed (_api_call lower req mt retries uc).
Proof.
  intros w r w' H. unfold _api_call, recorded in H.
  destruct (api_loop lower retries retries w) as [r1 w1] eqn:E. simplify_eq.
  apply api_loop_hushed in E as (F & l & L & A).
  apply (hushed_same _ _ (l ++ [Called req mt uc r])); cbn.
  - exact F.
  - by rewrite L, app_assoc.
  - apply Forall_app. split; [done|]. by apply Forall_singleton.
Qed.

Lemma glossary_except_hushed e : steps hushed (glossary_except e).
Proof.
  intros w r w' H.
  unfold glossary_except, count_glossary_failure, bind, update, get_self,
    ret in H. cbn in H.
  repeat match type of H with
         | context [if ?b then _ else _] => destruct b eqn:?
         end;
    unfold emit in H; simplify_eq; unfold hushed, failures; cbn;
    repeat match goal with
           | H : (_ <=? _) = true |- _ => apply Z.leb_le in H
           | H : (_ <=? _) = false |- _ => apply Z.leb_gt in H
           | H : (_ =? _) = true |- _ => apply Z.eqb_eq in H
           end;
    (split; [lia|]);
    first [ exists []; split; [by rewrite app_nil_r|done]
          | eexists; split; [reflexivity|]; apply Forall_singleton; cbn; lia ].
Qed.

Section Rationing.
Variable json_loads : str → option json.
Variable lower : str → str.

Lemma unit_failures text (w : World) r w' :
  translate json_loads lower text w = (r, w') →
  failures w ≤ failures w' ≤ failures w + 1.
Proof.
  intros H. apply translate_phases in H.
  destruct H as (w1 & pcs & _ & Hr & _ & _ & H).
  assert (failures w1 = failures w) as F1.
  { unfold rolling in Hr. unfold failures. by simplify_eq. }
  destruct H as [(_ & ->)|(out & r0 & E & _)]; [lia|].
  apply maybe_update_precise in E as (c1 & c2 & _ & _ & Hg).
  unfold failures in *.
  destruct Hg as [(_ & _ & F & _)|(o & _ & _ & _ & F)]; [lia|].
  destruct (glossary_verdict json_loads o); lia.
Qed.

(** X17. The warnings of the glossary refresh are rationed by one failure
    count, which a unit raises by at most one and never lowers.  A unit
    prints such a warning only when it counts a failure: a parse failure is
    reported while fewer than five failures were counted before, the notice
    that further warnings are suppressed is printed by the unit that counts
    the sixth, and any other failure is reported while fewer than three were
    counted before.  Nothing else in a unit prints them. *)
Theorem glossary_warnings_are_rationed text (w : World) r w' :
  translate json_loads lower text w = (r, w') →
  failures w ≤ failures w' ≤ failures w + 1
  ∧ ∃ l, log w' = log w ++ l
         ∧ ∀ wn, Warn wn ∈ l →
             match wn with
             | GlossaryParseFailed _ =>
                 failures w < 5 ∧ failures w' = failures w + 1
             | SuppressingGlossaryWarnings =>
                 failures w = 5 ∧ failures w' = 6
             | GlossaryExtractionFailed _ =>
                 failures w < 3 ∧ failures w' = failures w + 1
             | _ => True
             end.
Proof.
  intros H. pose proof (unit_failures _ _ _ _ H) as F. split; [exact F|].
  assert (hushed w w') as (_ & l & L & A).
  { revert H. apply (translate_steps (R:=hushed) json_loads lower).
    - intros w0 c Hc. by apply (hushed_same _ _ []); cbn; rewrite ?app_nil_r.
    - intros w0 g. by apply (hushed_same _ _ []); cbn; rewrite ?app_nil_r.
    - intros w0 s. by apply (hushed_same _ _ []); cbn; rewrite ?app_nil_r.
    - intros w0 wn Hwn. apply (hushed_same _ _ [Warn wn]); cbn; [done..|].
      apply Forall_singleton. intros wn' ?. by simplify_eq.
    - apply glossary_except_hushed.
    - intros req mt uc. apply api_call_hushed. }
  exists l. split; [exact L|]. intros wn Hin.
  eapply Forall_forall in A; [|exact Hin]. destruct wn; cbn in A; try done; lia.
Qed.

End Rationing.

(** ** The schedule of the refreshes *)

Section Cadence.
Variable json_loads : str → option json.
Variable lower : str → str.

Lemma update_context_idle original translation (w : World) r w' :
  ¬ context_due (self w) (chunk_counter (counters (self w))) →
  update_context lower original translation w = (r, w') → w' = w.
Proof.
  unfold context_due, update_context, bind, get_self. cbn. intros Hd.
  destruct (context_flag (self w)); [|unfold ret; by intros; simplify_eq].
  unfold py_mod.
  destruct (Z.eqb_spec (context_update_interval (profile (self w))) 0)
    as [Hz|Hz]; [unfold raise; by intros; simplify_eq|].
  unfold ret. cbn. destruct (_ =? 0) eqn:Hm; [apply Z.eqb_eq in Hm; tauto|].
  by intros; simplify_eq.
Qed.

Lemma update_glossary_idle original translation (w : World) r w' :
  ¬ glossary_due (self w) (chunk_counter (counters (self w))) →
  update_glossary json_loads lower original translation w = (r, w') → w' = w.
Proof.
  unfold glossary_due, update_glossary, bind, get_self. cbn. intros Hd.
  unfold py_mod.
  destruct (Z.eqb_spec (glossary_update_interval (profile (self w))) 0)
    as [Hz|Hz]; [unfold raise; by intros; simplify_eq|].
  unfold ret. cbn. destruct (_ =? 0) eqn:Hm; [apply Z.eqb_eq in Hm; tauto|].
  by intros; simplify_eq.
Qed.

Lemma not_grown {A} (l : list A) (x : A) : l ≠ l ++ [x].
Proof.
  intros H. apply (f_equal length) in H. rewrite length_app in H.
  cbn in H. lia.
Qed.

Lemma maybe_update_due original translation (w : World) r w' :
  _maybe_update_context_glossary json_loads lower original translation w
  = (r, w') →
  let n := chunk_counter (counters (self w)) in
  ∃ cs, calls (log w') = calls (log w) ++ cs
        ∧ Forall is_refresh cs
        ∧ (¬ context_due (self w) n →
           issued ContextRefresh cs = 0%nat
           ∧ context_summary (self w') = context_summary (self w))
        ∧ (¬ glossary_due (self w) n →
           issued GlossaryRefresh cs = 0%nat
           ∧ glossary (self w') = glossary (self w)
           ∧ failures w' = failures w).
Proof.
  intros H n. subst n. unfold _maybe_update_context_glossary in H.
  assert (∀ w1 r1,
            update_context lower original translation w = (r1, w1) →
            settings (self w1) = settings (self w)
            ∧ modes (self w1) = modes (self w)
            ∧ glossary (self w1) = glossary (self w)
            ∧ failures w1 = failures w
            ∧ ∃ c1, calls (log w1) = calls (log w) ++ c1
                    ∧ Forall is_refresh c1
                    ∧ issued GlossaryRefresh c1 = 0%nat
                    ∧ (¬ context_due (self w)
                           (chunk_counter (counters (self w))) →
                       issued ContextRefresh c1 = 0%nat
                       ∧ context_summary (self w1) = context_summary (self w)))
    as Hctx.
  { intros w1 r1 H1.
    pose proof (update_context_spec json_loads lower _ _ _ _ _ H1)
      as (S1 & M1 & _ & G1 & F1 & C1).
    repeat (split; [done|]).
    destruct C1 as [(E & X & _)|(req & out & Hp & E & _ & X)].
    - exists []. rewrite app_nil_r. by repeat split.
    - exists [(req, out)]. split; [done|].
      split; [apply Forall_singleton; by left|].
      split; [rewrite issued_one, Hp; by case_decide|].
      intros Hd. apply (update_context_idle _ _ _ _ _ Hd) in H1. subst w1.
      by apply not_grown in E. }
  apply bind_inv in H as [([] & w1 & H1 & H2)|(e & H1 & ->)].
  - apply Hctx in H1 as (S1 & M1 & G1 & F1 & c1 & E1 & R1 & I1 & X1).
    assert (chunk_counter (counters (self w1))
            = chunk_counter (counters (self w))) as Hn
      by (unfold modes in M1; by simplify_eq).
    assert (profile (self w1) = profile (self w)) as Hp
      by (unfold settings in S1; by simplify_eq).
    pose proof (update_glossary_spec json_loads lower _ _ _ _ _ H2)
      as (_ & _ & _ & X2 & C2).
    assert (∃ c2, calls (log w') = calls (log w1) ++ c2
                  ∧ Forall is_refresh c2
                  ∧ issued ContextRefresh c2 = 0%nat
                  ∧ (¬ glossary_due (self w)
                         (chunk_counter (counters (self w))) →
                     issued GlossaryRefresh c2 = 0%nat
                     ∧ glossary (self w') = glossary (self w1)
                     ∧ failures w' = failures w1))
      as (c2 & E2 & R2 & I2 & Y2).
    { destruct C2 as [(E & G & F & _)|(out & E & _)].
      - exists []. rewrite app_nil_r. by repeat split.
      - eexists. split; [exact E|].
        split; [apply Forall_singleton; by right|].
        split; [by rewrite issued_one; case_decide|].
        intros Hd. apply update_glossary_idle in H2.
        + subst w'. by apply not_grown in E.
        + unfold glossary_due in *. by rewrite Hn, Hp. }
    exists (c1 ++ c2). rewrite E2, E1, <- app_assoc. split; [done|].
    split; [by apply Forall_app|]. rewrite !issued_app. split.
    + intros Hd. destruct (X1 Hd) as [-> ?]. rewrite I2. split; [done|].
      congruence.
    + intros Hd. destruct (Y2 Hd) as (-> & G2 & F2). rewrite I1.
      split; [done|]. split; congruence.
  - apply Hctx in H1 as (S1 & M1 & G1 & F1 & c1 & E1 & R1 & I1 & X1).
    exists c1. split; [done|]. split; [done|]. split; [exact X1|].
    intros _. by repeat split.
Qed.

(** X19. The refreshes keep to their schedule.  A unit makes a context
    refresh call only if the context flag is set and the number of the unit
    is a multiple of the context interval, and a glossary refresh call only
    if the number of the unit is a multiple of the glossary interval; the
    number of a unit is the chunk counter after it was counted.  A unit at
    which a refresh is not due leaves what that refresh maintains alone:
    the summary, or the glossary and the failure count. *)
Theorem refresh_cadence text (w : World) r w' :
  translate json_loads lower text w = (r, w') →
  let n := chunk_counter (counters (self w)) + 1 in
  ∃ cs, calls (log w') = calls (log w) ++ cs
        ∧ (¬ context_due (self w) n →
           issued ContextRefresh cs = 0%nat
           ∧ context_summary (self w') = context_summary (self w))
        ∧ (¬ glossary_due (self w) n →
           issued GlossaryRefresh cs = 0%nat
           ∧ glossary (self w') = glossary (self w)
           ∧ failures w' = failures w).
Proof.
  intros H n. subst n.
  pose proof (unit_counters json_loads lower _ _ _ _ H) as [Hn _].
  apply translate_phases in H.
  destruct H as (w1 & pcs & Hs & Hr & C & Hpcs & H).
  assert (issued ContextRefresh pcs = 0%nat
          ∧ issued GlossaryRefresh pcs = 0%nat) as [I1 I2].
  { clear -Hpcs. unfold issued.
    induction Hpcs as [|c pcs Hc _ IH]; [done|]. cbn [List.filter].
    unfold is_refresh in Hc.
    rewrite !bool_decide_eq_false_2 by tauto. exact IH. }
  unfold rolling in Hr. unfold settings in Hs.
  destruct H as [(_ & ->)|(out & r0 & E & _)].
  { exists pcs. split; [done|]. unfold failures.
    split; intros _; repeat split; by simplify_eq. }
  pose proof (maybe_update_spec json_loads lower _ _ _ _ _ E) as (_ & Hm & _).
  assert (chunk_counter (counters (self w1))
          = chunk_counter (counters (self w)) + 1) as Hn1
    by (unfold modes in Hm; cbv zeta in Hn; simplify_eq; congruence).
  apply maybe_update_due in E as (cs & Cs & _ & X & Y). cbv zeta in X, Y.
  rewrite Hn1 in X, Y.
  exists (pcs ++ cs). rewrite Cs, C, <- app_assoc. split; [done|].
  rewrite !issued_app, I1, I2. unfold failures in *.
  injection Hs as Hp _ Hf. injection Hr as Rg Rs Rf. split.
  - intros Hd.
    assert (¬ context_due (self w1) (chunk_counter (counters (self w)) + 1))
      as Hd1 by (unfold context_due in *; by rewrite Hp, Hf).
    destruct (X Hd1) as [-> Sx]. split; [done|]. congruence.
  - intros Hd.
    assert (¬ glossary_due (self w1) (chunk_counter (counters (self w)) + 1))
      as Hd1 by (unfold glossary_due in *; by rewrite Hp).
    destruct (Y Hd1) as (-> & G & F). split; [done|].
    split; congruence.
Qed.

End Cadence.

(** ** Runs of the further properties *)

(** A response without cache usage, then one with: two responses are paid
    for, one request is counted. *)
Lemma meter_accounts_for_responses_witness :
  let w := w_without_cache in
  let run := translate json_loads lower hello w in
  run = (run.1, run.2)
  ∧ (let o := oracle w in
     let d := (next run.2 - next w)%nat in
     (next w ≤ next run.2)%nat
     ∧ meter (self run.2) = tally o (next w) d (meter (self w))
     ∧ total_requests (meter (self run.2))
       = total_requests (meter (self w)) + responses o (next w) d
     ∧ total_input_tokens (meter (self run.2))
       = total_input_tokens (meter (self w))
         + received input_tokens o (next w) d
     ∧ total_output_tokens (meter (self run.2))
       = total_output_tokens (meter (self w))
         + received output_tokens o (next w) d).
Proof.
  intros w run. split; [by vm_compute|].
  apply (meter_accounts_for_responses json_loads lower hello w run.1 run.2).
  by vm_compute.
Defined.

(** The run above in numbers: the tokens of both responses, one request. *)
Example uncounted_response_is_paid_for :
  let run := translate json_loads lower hello w_without_cache in
  run.1 = Ok (lit "Hallo")
  ∧ total_input_tokens (meter (self run.2)) = 20
  ∧ total_output_tokens (meter (self run.2)) = 10
  ∧ total_requests (meter (self run.2)) = 1
  ∧ next run.2 = 2%nat.
Proof. by vm_compute. Qed.

(** A reviewed and refined paragraph. *)
Lemma unit_is_counted_once_witness :
  let run := translate json_loads lower hello w_refine in
  run = (run.1, run.2)
  ∧ (let c := counters (self w_refine) in
     let c' := counters (self run.2) in
     chunk_counter c' = chunk_counter c + 1
     ∧ ((pass1_only_count c' = pass1_only_count c + 1
         ∧ full_3pass_count c' = full_3pass_count c
         ∧ reviews_ok c' = reviews_ok c
         ∧ reviews_fixed c' = reviews_fixed c)
        ∨ (pass1_only_count c' = pass1_only_count c
           ∧ full_3pass_count c' = full_3pass_count c + 1
           ∧ ((reviews_ok c' = reviews_ok c
               ∧ reviews_fixed c' = reviews_fixed c)
              ∨ (reviews_ok c' = reviews_ok c + 1
                 ∧ reviews_fixed c' = reviews_fixed c)
              ∨ (reviews_ok c' = reviews_ok c
                 ∧ reviews_fixed c' = reviews_fixed c + 1))))).
Proof.
  intros run. split; [by vm_compute|].
  apply (unit_is_counted_once json_loads lower hello w_refine run.1 run.2).
  by vm_compute.
Defined.

Lemma translate_keeps_settings_witness :
  let run := translate json_loads lower two_paras w_batch in
  run = (run.1, run.2)
  ∧ (profile (self run.2) = profile (self w_batch)
     ∧ skip_review (self run.2) = skip_review (self w_batch)
     ∧ context_flag (self run.2) = context_flag (self w_batch)).
Proof.
  intros run. split; [by vm_compute|].
  apply (translate_keeps_settings json_loads lower two_paras w_batch
           run.1 run.2).
  by vm_compute.
Defined.

Lemma calls_follow_the_pipeline_witness :
  let run := translate json_loads lower hello w_refine in
  run = (run.1, run.2)
  ∧ ∃ cs,
      calls (log run.2) = calls (log w_refine) ++ cs
      ∧ (∃ c rest, cs = c :: rest ∧ pass_of c.1 = Translate)
      ∧ map (λ c, pass_of c.1) cs
        `sublist_of` [Translate; Review; Refine; ContextRefresh;
                      GlossaryRefresh]
      ∧ (length cs ≤ 5)%nat.
Proof.
  intros run. split; [by vm_compute|].
  apply (calls_follow_the_pipeline json_loads lower hello w_refine
           run.1 run.2).
  by vm_compute.
Defined.

(** A refresh answered with one term and one junk member. *)
Lemma glossary_grows_within_bounds_witness :
  let run := translate json_loads lower hello (w_glossary doc_mixed) in
  run = (run.1, run.2)
  ∧ ((∀ k, is_Some (glossary (self (w_glossary doc_mixed)) !! k) →
           is_Some (glossary (self run.2) !! k))
     ∧ (∀ k v,
          glossary (self run.2) !! k = Some v →
          glossary (self (w_glossary doc_mixed)) !! k = Some v
          ∨ (len k < 100 ∧ len v < 200 ∧ startswith MARKER k = false))).
Proof.
  intros run. split; [by vm_compute|].
  apply (glossary_grows_within_bounds json_loads lower hello
           (w_glossary doc_mixed) run.1 run.2).
  by vm_compute.
Defined.

Lemma protected_nouns_stay_tidy_witness :
  tidy_nouns (self w_session)
  ∧ tidy_nouns (self (run_ops json_loads lower session w_session)).
Proof.
  assert (tidy_nouns (self w_session)) as H by apply Forall_nil_2.
  split; [exact H|].
  exact (protected_nouns_stay_tidy json_loads lower session w_session H).
Defined.

Lemma counters_stay_consistent_witness :
  consistent (self w_session)
  ∧ (let w' := run_ops json_loads lower session w_session in
     consistent (self w')
     ∧ chunk_counter (counters (self w'))
       = chunk_counter (counters (self w_session))
         + len (List.filter is_unit session)).
Proof.
  assert (consistent (self w_session)) as H
    by (unfold consistent; cbn; lia).
  split; [exact H|].
  exact (counters_stay_consistent json_loads lower session w_session H).
Defined.

(** Two translated paragraphs for two paragraphs. *)
Lemma well_formed_batch_answer_witness :
  let paragraphs := [lit "A"; lit "B"] in
  let qs := [lit "Ein Satz."; lit "Noch einer."] in
  length qs = length paragraphs
  ∧ Forall plain_paragraph qs
  ∧ reassemble paragraphs (join (NL ++ PARA_DELIMITER ++ NL) qs)
    = (join NL qs, None).
Proof.
  intros paragraphs qs.
  assert (Forall plain_paragraph qs) as H.
  { repeat constructor; try done; try (by vm_compute);
      apply (bool_decide_unpack _); by vm_compute. }
  split; [done|]. split; [exact H|].
  exact (well_formed_batch_answer paragraphs qs eq_refl H).
Defined.

Lemma blank_batch_answer_returns_source_witness :
  let translation := lit "  " ++ NL in
  Forall (λ x, is_space x = true) translation
  ∧ reassemble (split NL two_paras) translation
    = (two_paras, Some (PaddedParas 0 (len (split NL two_paras)))).
Proof.
  intros translation.
  assert (Forall (λ x, is_space x = true) translation) as H
    by (by repeat constructor).
  split; [exact H|].
  exact (blank_batch_answer_returns_source two_paras translation H).
Defined.

(** A reply fenced as JSON, and the same fence on one line. *)
Lemma unfence_fenced_reply_witness :
  let a := lit " " in
  let tag := lit "json" in
  let body := doc_terms ++ NL in
  let b := NL in
  Forall (λ x, is_space x = true) a
  ∧ Forall (λ x, is_space x = true) b
  ∧ (10%N ∉ tag)
  ∧ unfence (a ++ (lit "```" ++ tag ++ NL ++ body ++ lit "```") ++ b)
    = Some body
  ∧ unfence (a ++ (lit "```" ++ tag) ++ b) = None.
Proof.
  intros a tag body b.
  assert (Forall (λ x, is_space x = true) a) as Ha by (by repeat constructor).
  assert (Forall (λ x, is_space x = true) b) as Hb by (by repeat constructor).
  assert (10%N ∉ tag) as Ht by (apply (bool_decide_unpack _); by vm_compute).
  split; [exact Ha|]. split; [exact Hb|]. split; [exact Ht|].
  exact (unfence_fenced_reply a tag body b Ha Hb Ht).
Defined.

Lemma unit_attempts_and_backoff_witness :
  let run := translate json_loads lower hello w_flaky in
  run = (run.1, run.2)
  ∧ ∃ l, log run.2 = log w_flaky ++ l
         ∧ next run.2 = (next w_flaky + attempts l)%nat
         ∧ (attempts l ≤ 5 * length (calls l))%nat
         ∧ 0 ≤ slept l ≤ 75 * Z.of_nat (length (calls l))
         ∧ (attempts l ≤ 25)%nat
         ∧ slept l ≤ 375.
Proof.
  intros run. split; [by vm_compute|].
  apply (unit_attempts_and_backoff json_loads lower hello w_flaky
           run.1 run.2).
  by vm_compute.
Defined.

(** A file of three lines, the second blank, the third ended by a carriage
    return and followed by a fourth without line end. *)
Lemma translate_txt_line_by_line_witness :
  let content :=
    lit "Hello" ++ NL ++ NL ++ lit "  World " ++ [13%N] ++ lit "Bye" in
  let w :=
    world fresh
      (scripted [Ok (reply (lit "Hallo")); Ok (reply (lit "Welt"));
                 Ok (reply (lit "Tschuess"))]) in
  let run := _translate_txt json_loads lower content false 0 w in
  let out :=
    lit "Hello" ++ NL ++ lit "Hallo" ++ NL ++ NL
    ++ lit "World" ++ NL ++ lit "Welt" ++ NL ++ NL
    ++ lit "Bye" ++ NL ++ lit "Tschuess" ++ NL ++ NL in
  run = (Ok out, run.2)
  ∧ (let lines := txt_lines content false 0 in
     Forall (λ l, l ≠ [] ∧ strip l = l ∧ (10%N ∉ l) ∧ (13%N ∉ l)) lines
     ∧ chunk_counter (counters (self run.2))
       = chunk_counter (counters (self w)) + len lines
     ∧ ∃ translated cs,
         translated_in_turn json_loads lower lines translated w run.2
         ∧ length translated = length lines
         ∧ out = bilingual lines translated
         ∧ calls (log run.2) = calls (log w) ++ cs
         ∧ submitted cs = map (λ l, (l, None)) lines).
Proof.
  intros content w run out. split; [by vm_compute|].
  apply (translate_txt_line_by_line json_loads lower content false 0 w out
           run.2).
  by vm_compute.
Defined.

(** A glossary refresh answered with chatter: the first failure. *)
Lemma glossary_warnings_are_rationed_witness :
  let w := w_glossary chatter in
  let run := translate json_loads lower hello w in
  run = (run.1, run.2)
  ∧ (failures w ≤ failures run.2 ≤ failures w + 1
     ∧ ∃ l, log run.2 = log w ++ l
            ∧ ∀ wn, Warn wn ∈ l →
                match wn with
                | GlossaryParseFailed _ =>
                    failures w < 5 ∧ failures run.2 = failures w + 1
                | SuppressingGlossaryWarnings =>
                    failures w = 5 ∧ failures run.2 = 6
                | GlossaryExtractionFailed _ =>
                    failures w < 3 ∧ failures run.2 = failures w + 1
                | _ => True
                end).
Proof.
  intros w run. split; [by vm_compute|].
  apply (glossary_warnings_are_rationed json_loads lower hello w run.1 run.2).
  by vm_compute.
Defined.

(** The context refresh is due at every unit, the glossary refresh is
    not due at the first. *)
Lemma refresh_cadence_witness :
  let w := w_context_down in
  let run := translate json_loads lower hello w in
  run = (run.1, run.2)
  ∧ (let n := chunk_counter (counters (self w)) + 1 in
     ∃ cs, calls (log run.2) = calls (log w) ++ cs
           ∧ (¬ context_due (self w) n →
              issued ContextRefresh cs = 0%nat
              ∧ context_summary (self run.2) = context_summary (self w))
           ∧ (¬ glossary_due (self w) n →
              issued GlossaryRefresh cs = 0%nat
              ∧ glossary (self run.2) = glossary (self w)
              ∧ failures run.2 = failures w)).
Proof.
  intros w run. split; [by vm_compute|].
  apply (refresh_cadence json_loads lower hello w run.1 run.2).
  by vm_compute.
Defined.
